(** * TSFC loopy backend: a shallow embedding of [tsfc/loopy.py]

    The development follows the Python module top to bottom: the dtype
    inferencer, the code generation context [LoopyContext], the scoped
    activation of indices, the lowering of Impero statements and of GEM
    expressions, the synthesis of the matrix-free conjugate-gradient kernel and
    the kernel assembler [generate].

    Python objects with identity (GEM nodes, GEM indices) carry an instance
    handle; dictionaries are finite maps; the mutable context and the module
    level variable [matfree_solve_knl] are threaded explicitly, and an
    exception leaves the state as it was when it was raised. *)

From Stdlib Require Import Floats ZArith Uint63 Ascii.
From stdpp Require Import gmap strings list pretty.

Set Warnings "-register-all,-inexact-float".

(** ** Exceptions and results *)

Inductive exn : Type :=
| AssertionError (msg : string)
| KeyError
| AttributeError
| IndexError
| TypeError
| ValueError
| NotImplementedError (msg : string)
| RecursionError
| GemFailure (exception : string).

Inductive result (A : Type) : Type :=
| Ok (a : A)
| Raise (e : exn).
Arguments Ok {A} a.
Arguments Raise {A} e.

(** Computations over a mutable state [S]: the state survives an exception. *)
Definition M (S A : Type) : Type := S -> result A * S.

Definition ret {S A} (a : A) : M S A := fun s => (Ok a, s).
Definition raise {S A} (e : exn) : M S A := fun s => (Raise e, s).
Definition bind {S A B} (m : M S A) (k : A -> M S B) : M S B :=
  fun s => match m s with
           | (Ok a, s') => k a s'
           | (Raise e, s') => (Raise e, s')
           end.
Definition get {S} : M S S := fun s => (Ok s, s).
Definition modify {S} (f : S -> S) : M S unit := fun s => (Ok tt, f s).
Definition lift_result {S A} (r : result A) : M S A := fun s => (r, s).

Declare Scope loopy_scope.
Delimit Scope loopy_scope with loopy.
Notation "x <- m ;; k" := (bind m (fun x => k))
  (at level 100, m at next level, right associativity) : loopy_scope.
Notation "m ;;; k" := (bind m (fun _ => k))
  (at level 100, right associativity) : loopy_scope.
Open Scope loopy_scope.

Fixpoint mapM {S A B} (f : A -> M S B) (l : list A) : M S (list B) :=
  match l with
  | [] => ret []
  | a :: l' => b <- f a ;; bs <- mapM f l' ;; ret (b :: bs)
  end.

(** ** numpy scalar types *)

Inductive dtype : Type :=
| int8 | float16 | float32 | float64 | complex64 | complex128.

#[global] Instance dtype_eq_dec : EqDecision dtype.
Proof. solve_decision. Defined.

Definition dtype_code (d : dtype) : nat :=
  match d with
  | int8 => 0 | float16 => 1 | float32 => 2 | float64 => 3
  | complex64 => 4 | complex128 => 5
  end.
Definition dtype_of_code (n : nat) : dtype :=
  match n with
  | 0 => int8 | 1 => float16 | 2 => float32 | 3 => float64
  | 4 => complex64 | _ => complex128
  end.
#[global] Instance dtype_countable : Countable dtype.
Proof. apply (inj_countable' dtype_code dtype_of_code). by intros []. Defined.

(** [numpy.can_cast(a, b)] with the default "safe" casting. *)
Definition can_cast (a b : dtype) : bool :=
  match a, b with
  | int8, _ => true
  | float16, int8 => false
  | float16, _ => true
  | float32, (float32 | float64 | complex64 | complex128) => true
  | float64, (float64 | complex128) => true
  | complex64, (complex64 | complex128) => true
  | complex128, complex128 => true
  | _, _ => false
  end.

(** numpy's list of candidate types, in the order [find_common_type] tries them. *)
Definition test_types : list dtype :=
  [int8; float16; float32; float64; complex64; complex128].

(** [numpy.find_common_type(array_types, [])]: a single type is returned as it
    is, otherwise the first candidate every type casts to; [None] when there
    is none. *)
Definition find_common_type (array_types : list dtype) : option dtype :=
  match array_types with
  | [] => None
  | [d] => Some d
  | _ => List.find (fun t => forallb (fun x => can_cast x t) array_types) test_types
  end.

(** [numpy.finfo(scalar_type)]: defined for inexact types only. *)
Definition finfo_dtype (scalar_type : dtype) : result dtype :=
  match scalar_type with
  | int8 => Raise ValueError
  | float16 => Ok float16
  | float32 | complex64 => Ok float32
  | float64 | complex128 => Ok float64
  end.

Definition finfo_resolution (scalar_type : dtype) : result float :=
  match scalar_type with
  | int8 => Raise ValueError
  | float16 => Ok 0.001%float
  | float32 | complex64 => Ok 0.000001%float
  | float64 | complex128 => Ok 0.000000000000001%float
  end.

(** Modelled from the spec: [tsfc.parameters.is_complex], which tells the
    complex scalar types from the real ones. *)
Definition is_complex (scalar_type : dtype) : bool :=
  match scalar_type with
  | complex64 | complex128 => true
  | _ => false
  end.

(** ** GEM expressions *)

Module gem.

(** A fixed-extent index: [extent] is [None] until the index is bound. *)
Record Index : Type := {
  iid : nat;
  index_name : option string;
  extent : option nat
}.

(** A numpy array of numbers. *)
Record ndarray : Type := {
  array_dtype : dtype;
  array_shape : list nat;
  array_flat : list float
}.

Inductive node : Type :=
| Variable_ (nid : nat) (name : string) (shape : list nat)
| Zero (nid : nat) (shape : list nat)
| Identity (nid : nat) (dim : nat)
| Delta (nid : nat) (i j : index)
| Literal (nid : nat) (array : ndarray)
| Failure (nid : nat) (shape : list nat) (exception : string)
| Sum (nid : nat) (a b : node)
| Product (nid : nat) (a b : node)
| Division (nid : nat) (a b : node)
| Power (nid : nat) (base exponent : node)
| MathFunction (nid : nat) (name : string) (children : list node)
| MinValue (nid : nat) (a b : node)
| MaxValue (nid : nat) (a b : node)
| Comparison (nid : nat) (operator : string) (a b : node)
| LogicalNot (nid : nat) (a : node)
| LogicalAnd (nid : nat) (a b : node)
| LogicalOr (nid : nat) (a b : node)
| Conditional (nid : nat) (condition then_ else_ : node)
| Indexed (nid : nat) (aggregate : node) (multiindex : list index)
| FlexiblyIndexed (nid : nat) (variable : node)
    (dim2idxs : list (Z * list (index * Z)))
| ComponentTensor (nid : nat) (shape : list nat) (expression : node)
    (multiindex : list Index)
| IndexSum (nid : nat) (summand : node) (multiindex : list Index)
| ListTensor (nid : nat) (arr_shape : list nat) (array : list node)
| Inverse (nid : nat) (tensor : node)
| Action (nid : nat) (shape : list nat) (children : list node)
| Solve (nid : nat) (shape : list nat) (children : list node) (matfree : bool)
with index : Type :=
| an_Index (i : Index)
| a_VariableIndex (expression : node)
| an_int (z : Z).

(** The instance handle: Python's object identity. *)
Definition nid (e : node) : nat :=
  match e with
  | Variable_ n _ _ | Zero n _ | Identity n _ | Delta n _ _ | Literal n _
  | Failure n _ _ | Sum n _ _ | Product n _ _ | Division n _ _ | Power n _ _
  | MathFunction n _ _ | MinValue n _ _ | MaxValue n _ _ | Comparison n _ _ _
  | LogicalNot n _ | LogicalAnd n _ _ | LogicalOr n _ _ | Conditional n _ _ _
  | Indexed n _ _ | FlexiblyIndexed n _ _ | ComponentTensor n _ _ _
  | IndexSum n _ _ | ListTensor n _ _ | Inverse n _ | Action n _ _
  | Solve n _ _ _ => n
  end.

Definition children (e : node) : list node :=
  match e with
  | Variable_ _ _ _ | Zero _ _ | Identity _ _ | Delta _ _ _ | Literal _ _
  | Failure _ _ _ => []
  | Sum _ a b | Product _ a b | Division _ a b | Power _ a b
  | MinValue _ a b | MaxValue _ a b | Comparison _ _ a b
  | LogicalAnd _ a b | LogicalOr _ a b => [a; b]
  | LogicalNot _ a => [a]
  | Conditional _ c t e => [c; t; e]
  | MathFunction _ _ cs | Action _ _ cs | Solve _ _ cs _ => cs
  | Indexed _ a _ | FlexiblyIndexed _ a _ => [a]
  | ComponentTensor _ _ a _ | IndexSum _ a _ | Inverse _ a => [a]
  | ListTensor _ _ arr => arr
  end.

Fixpoint shape (e : node) : list nat :=
  match e with
  | Variable_ _ _ s | Zero _ s | Failure _ s _ | ComponentTensor _ s _ _
  | Action _ s _ | Solve _ s _ _ => s
  | Identity _ d => [d; d]
  | Literal _ arr => array_shape arr
  | ListTensor _ s _ => s
  | Inverse _ t => shape t
  | _ => []
  end.

(** The [name] attribute: only variables and mathematical functions have one. *)
Definition name (e : node) : option string :=
  match e with
  | Variable_ _ s _ | MathFunction _ s _ => Some s
  | _ => None
  end.

(** [isinstance(e, gem.Constant)] *)
Definition is_Constant (e : node) : bool :=
  match e with
  | Zero _ _ | Identity _ _ | Literal _ _ => true
  | _ => false
  end.

End gem.

(** ** Impero statements *)

Module imp.

Inductive tree : Type :=
| Block (children : list tree)
| For (index : gem.Index) (body : tree)
| Initialise (indexsum : gem.node)
| Accumulate (indexsum : gem.node)
| Return (variable expression : gem.node)
| ReturnAccumulate (variable indexsum : gem.node)
| Evaluate (expression : gem.node)
| Noop.

End imp.

(** ** The dtype inferencer *)

(** [set.union] applied to the unpacked sets: Python refuses to call it
    without an argument. *)
Definition set_union (sets : list (gset dtype)) : result (gset dtype) :=
  match sets with
  | [] => Raise TypeError
  | s :: rest => Ok (foldl (∪) s rest)
  end.

Fixpoint sequence_result {A} (l : list (result A)) : result (list A) :=
  match l with
  | [] => Ok []
  | Ok a :: l' =>
      match sequence_result l' with Ok r => Ok (a :: r) | Raise e => Raise e end
  | Raise e :: _ => Raise e
  end.

Section AssignDtype.

(** The two attributes [assign_dtypes] stores on the mapper. *)
Variables scalar_type real_type : dtype.

(** [_assign_dtype] with its registered cases; [self] is the memoised mapper,
    which computes the same function. *)
Fixpoint _assign_dtype (expression : gem.node) : result (gset dtype) :=
  let self_all := fix go (l : list gem.node) : list (result (gset dtype)) :=
    match l with
    | [] => []
    | c :: l' => _assign_dtype c :: go l'
    end in
  let union_over (l : list gem.node) :=
    match sequence_result (self_all l) with
    | Ok sets => set_union sets
    | Raise e => Raise e
    end in
  match expression with
  | gem.Zero _ _ | gem.Identity _ _ | gem.Delta _ _ _ => Ok {[ real_type ]}
  | gem.Literal _ arr => Ok {[ gem.array_dtype arr ]}
  | gem.Variable_ _ _ _ | gem.Failure _ _ _ => Ok {[ scalar_type ]}
  | gem.Power _ _ _ => Ok {[ scalar_type ]}
  | gem.MathFunction _ name cs =>
      if bool_decide (name ∈ ["abs"; "real"; "imag"]) then Ok {[ real_type ]}
      else if bool_decide (name = "sqrt") then Ok {[ scalar_type ]}
      else union_over cs
  | gem.MinValue _ _ _ | gem.MaxValue _ _ _ => Ok {[ real_type ]}
  | gem.Conditional _ c t e => union_over [t; e]
  | gem.Comparison _ _ _ _ | gem.LogicalNot _ _ | gem.LogicalAnd _ _ _
  | gem.LogicalOr _ _ _ => Ok {[ int8 ]}
  | gem.Sum _ a b | gem.Product _ a b | gem.Division _ a b => union_over [a; b]
  | gem.Indexed _ a _ | gem.FlexiblyIndexed _ a _ => union_over [a]
  | gem.ComponentTensor _ _ a _ | gem.IndexSum _ a _ | gem.Inverse _ a =>
      union_over [a]
  | gem.ListTensor _ _ cs | gem.Action _ _ cs | gem.Solve _ _ cs _ => union_over cs
  end.

End AssignDtype.

(** [assign_dtypes(expressions, scalar_type)] *)
Definition assign_dtypes (expressions : list gem.node) (scalar_type : dtype)
  : result (list (gem.node * option dtype)) :=
  match finfo_dtype scalar_type with
  | Raise e => Raise e
  | Ok real_type =>
      sequence_result
        (List.map (fun e =>
           match _assign_dtype scalar_type real_type e with
           | Ok s => Ok (e, find_common_type (elements s))
           | Raise x => Raise x
           end) expressions)
  end.

(** ** pymbolic expressions *)

Module p.

Inductive expr : Type :=
| Variable_ (name : string)
| IntLit (z : Z)
| FloatLit (f : float)
| Sum (children : list expr)
| Product (children : list expr)
| Quotient (numerator denominator : expr)
| Call (function : expr) (parameters : list expr)
| Subscript (aggregate : expr) (index : list expr)
| Comparison (left : expr) (operator : string) (right : expr)
| LogicalNot (children : list expr)
| LogicalAnd (children : list expr)
| LogicalOr (children : list expr)
| If (condition then_ else_ : expr)
| SubArrayRef (swept_inames : list expr) (subscript : expr).

End p.

(** ** loopy kernels *)

Module lp.

Inductive AddressSpace : Type := LOCAL | GLOBAL.

(** Arguments and temporaries of a kernel.  An entry of a shape is [None]
    where the extent it was read from was not set. *)
Inductive decl : Type :=
| GlobalArg (name : string) (dtype : option dtype) (shape : list (option nat))
    (is_output_only : bool)
| TemporaryVariable (name : string) (shape : list (option nat))
    (dtype : option dtype) (initializer : option gem.node)
    (address_space : AddressSpace) (read_only : bool).

Definition decl_name (d : decl) : string :=
  match d with
  | GlobalArg n _ _ _ | TemporaryVariable n _ _ _ _ _ => n
  end.
Definition decl_dtype (d : decl) : option dtype :=
  match d with
  | GlobalArg _ t _ _ | TemporaryVariable _ _ t _ _ _ => t
  end.
Definition decl_shape (d : decl) : list (option nat) :=
  match d with
  | GlobalArg _ _ s _ | TemporaryVariable _ s _ _ _ _ => s
  end.

(** An upper bound of an ISL constraint: a constant or a multiple of a
    parameter of the domain. *)
Inductive aff : Type :=
| aff_const (c : nat)
| aff_param (k : nat) (param : string).

(** The constraint [0 <= iname < upper], or [0 <= iname <= upper] when
    [inclusive]. *)
Record iname_range : Type := {
  iname : string;
  upper : aff;
  inclusive : bool
}.

(** A basic set is the conjunction of the constraints on its inames; the set
    without inames is the universe [[] -> {[]}]. *)
Definition BasicSet : Type := list iname_range.

Inductive instruction : Type :=
| Assignment (assignee expression : p.expr) (within_inames : gset string)
    (priority : nat)
| CallInstruction (assignees : list p.expr) (expression : p.expr)
    (within_inames : gset string) (priority : nat)
| CInstruction (iname_exprs code : string) (read_variables : list string)
    (depends_on id : string)
| Text (lines : list string).

Definition set_priority (prio : nat) (insn : instruction) : instruction :=
  match insn with
  | Assignment a e w _ => Assignment a e w prio
  | CallInstruction a e w _ => CallInstruction a e w prio
  | other => other
  end.

Record kernel : Type := {
  name : string;
  domains : list BasicSet;
  instructions : list instruction;
  kernel_data : list decl;
  loop_priority : option string
}.

(** The callable-kernel transformations of loopy, applied symbolically. *)
Inductive program : Type :=
| make_program (knl : kernel)
| register_callable_kernel (prg : program) (callee : kernel)
| _match_caller_callee_argument_dimension_ (prg : program) (callee_name : string)
| inline_callable_kernel (prg : program) (callee_name : string).

(** [lp.fix_parameters(knl, param=value)] *)
Definition fix_aff (param : string) (value : nat) (a : aff) : aff :=
  match a with
  | aff_param k q => if bool_decide (q = param) then aff_const (k * value) else a
  | _ => a
  end.
Definition fix_parameters (knl : kernel) (param : string) (value : nat) : kernel :=
  {| name := name knl;
     domains :=
       List.map (List.map (fun r =>
         {| iname := iname r; upper := fix_aff param value (upper r);
            inclusive := inclusive r |})) (domains knl);
     instructions := instructions knl;
     kernel_data := kernel_data knl;
     loop_priority := loop_priority knl |}.

(** [lp.prioritize_loops(knl, loop_priority)] *)
Definition prioritize_loops (knl : kernel) (prio : string) : kernel :=
  {| name := name knl; domains := domains knl; instructions := instructions knl;
     kernel_data := kernel_data knl; loop_priority := Some prio |}.

(** [knl.copy(instructions=...)] *)
Definition copy_instructions (knl : kernel) (insns : list instruction) : kernel :=
  {| name := name knl; domains := domains knl; instructions := insns;
     kernel_data := kernel_data knl; loop_priority := loop_priority knl |}.

(** The values an iname takes in a domain whose parameters are fixed, in the
    order of the generated loop. *)
Definition range_values (r : iname_range) : list nat :=
  match upper r with
  | aff_const c => seq 0 (if inclusive r then S c else c)
  | aff_param _ _ => []
  end.

Definition find_range (knl : kernel) (i : string) : option iname_range :=
  List.find (fun r => bool_decide (iname r = i)) (concat (domains knl)).

Definition iname_values (knl : kernel) (i : string) : list nat :=
  match find_range knl i with
  | Some r => range_values r
  | None => []
  end.

End lp.

(** ** loopy's instruction language

    The instructions of a kernel given as text are read and run in the order
    they are given, which is an order their declared dependencies allow: one
    instruction per line, [<>] declaring a temporary, the options in braces
    naming the instruction and what it depends on; an instruction is run for
    every value of the inames it mentions that no enclosing [for] binds; a
    [for] block runs its body for every value of its iname, in order; a C
    instruction given between two texts stands where it is given, inside the
    block open there, and its [if (...) break;] leaves that block.  What
    cannot be read, and a read of what was never written, yields [None]. *)

Module ll.

Inductive token : Type :=
| TId (s : string)
| TNum (s : string)
| TSym (c : ascii).

Definition is_digit (c : ascii) : bool :=
  let n := nat_of_ascii c in (48 <=? n) && (n <=? 57).
Definition is_letter (c : ascii) : bool :=
  let n := nat_of_ascii c in
  ((65 <=? n) && (n <=? 90)) || ((97 <=? n) && (n <=? 122)) || (n =? 95).
Definition is_space (c : ascii) : bool :=
  let n := nat_of_ascii c in (n =? 32) || (n =? 10) || (n =? 9).
Definition is_dot (c : ascii) : bool := nat_of_ascii c =? 46.

Inductive lexing : Type := Idle | InId (acc : string) | InNum (acc : string).

Definition flush (st : lexing) : list token :=
  match st with
  | Idle => []
  | InId acc => [TId acc]
  | InNum acc => [TNum acc]
  end.

Definition snoc (acc : string) (c : ascii) : string := acc +:+ String c EmptyString.

Fixpoint lex (st : lexing) (s : string) : list token :=
  match s with
  | EmptyString => flush st
  | String c s' =>
      if is_letter c then
        match st with
        | InId acc => lex (InId (snoc acc c)) s'
        | _ => flush st ++ lex (InId (String c EmptyString)) s'
        end
      else if is_digit c then
        match st with
        | InId acc => lex (InId (snoc acc c)) s'
        | InNum acc => lex (InNum (snoc acc c)) s'
        | Idle => lex (InNum (String c EmptyString)) s'
        end
      else if is_dot c then
        match st with
        | InNum acc => lex (InNum (snoc acc c)) s'
        | _ => flush st ++ lex (InNum (String c EmptyString)) s'
        end
      else if is_space c then flush st ++ lex Idle s'
      else flush st ++ TSym c :: lex Idle s'
  end.

(** A decimal numeral: the digits as an integer and the number of digits
    after the point. *)
Fixpoint decimal (s : string) (acc : Z) (frac : option nat) : option (Z * nat) :=
  match s with
  | EmptyString => Some (acc, default 0 frac)
  | String c s' =>
      if is_digit c then
        decimal s' (acc * 10 + Z.of_nat (nat_of_ascii c - 48)) (S <$> frac)
      else if is_dot c then
        match frac with
        | None => decimal s' acc (Some 0)
        | Some _ => None
        end
      else None
  end.

Definition number (s : string) : option float :=
  match decimal s 0 None with
  | Some (m, k) =>
      Some (PrimFloat.of_uint63 (Uint63.of_Z m)
            / PrimFloat.of_uint63 (Uint63.of_Z (10 ^ Z.of_nat k)))%float
  | None => None
  end.

(** Expressions of the instruction language. *)
Inductive binop : Type := Plus | Minus | Times | Over.

Inductive expr : Type :=
| Num (f : float)
| Var (v : string)
| Elem (v i : string)
| Neg (e : expr)
| Bin (op : binop) (a b : expr).

Definition sym (c : string) (t : token) : bool :=
  match t with
  | TSym a => bool_decide (String a EmptyString = c)
  | _ => false
  end.

Inductive level : Type :=
| GSum | GSumTail (acc : expr) | GProduct | GProductTail (acc : expr) | GFactor.

(** Sums of products of factors, by recursive descent. *)
Fixpoint parse (fuel : nat) (g : level) (ts : list token)
  : option (expr * list token) :=
  match fuel with
  | 0 => None
  | S fuel =>
      match g with
      | GFactor =>
          match ts with
          | TNum n :: r => (fun f => (Num f, r)) <$> number n
          | TId v :: r =>
              match r with
              | t1 :: TId i :: t2 :: r' =>
                  if sym "[" t1 && sym "]" t2 then Some (Elem v i, r')
                  else Some (Var v, r)
              | _ => Some (Var v, r)
              end
          | t :: r =>
              if sym "-" t then
                match parse fuel GFactor r with
                | Some (e, r') => Some (Neg e, r')
                | None => None
                end
              else if sym "(" t then
                match parse fuel GSum r with
                | Some (e, t' :: r') => if sym ")" t' then Some (e, r') else None
                | _ => None
                end
              else None
          | [] => None
          end
      | GProduct =>
          match parse fuel GFactor ts with
          | Some (e, r) => parse fuel (GProductTail e) r
          | None => None
          end
      | GProductTail acc =>
          match ts with
          | t :: r =>
              if sym "*" t then
                match parse fuel GFactor r with
                | Some (e, r') => parse fuel (GProductTail (Bin Times acc e)) r'
                | None => None
                end
              else if sym "/" t then
                match parse fuel GFactor r with
                | Some (e, r') => parse fuel (GProductTail (Bin Over acc e)) r'
                | None => None
                end
              else Some (acc, ts)
          | [] => Some (acc, ts)
          end
      | GSum =>
          match parse fuel GProduct ts with
          | Some (e, r) => parse fuel (GSumTail e) r
          | None => None
          end
      | GSumTail acc =>
          match ts with
          | t :: r =>
              if sym "+" t then
                match parse fuel GProduct r with
                | Some (e, r') => parse fuel (GSumTail (Bin Plus acc e)) r'
                | None => None
                end
              else if sym "-" t then
                match parse fuel GProduct r with
                | Some (e, r') => parse fuel (GSumTail (Bin Minus acc e)) r'
                | None => None
                end
              else Some (acc, ts)
          | [] => Some (acc, ts)
          end
      end
  end.

Definition expression (ts : list token) : option expr :=
  match parse (4 * length ts + 4) GSum ts with
  | Some (e, []) => Some e
  | _ => None
  end.

(** Statements: an assignment to a scalar or to one element, swept over the
    inames it mentions; the assignment of the result of a callable to a whole
    array; a loop; the conditional [break] of a C instruction. *)
Inductive stmt : Type :=
| Assign (v : string) (i : option string) (rhs : expr)
| CallAssign (v callee matrix vector : string)
| Loop (iname : string) (body : list stmt)
| BreakIf (v : string) (bound : float).

Inductive item : Type :=
| IStmt (s : stmt)
| IFor (iname : string)
| IEnd.

(** The tokens of an instruction before its options [{...}]. *)
Fixpoint before_options (ts : list token) : list token :=
  match ts with
  | [] => []
  | t :: r => if sym "{" t then [] else t :: before_options r
  end.

(** The marker [<>] of an instruction that declares its temporary. *)
Definition after_marker (ts : list token) : list token :=
  match ts with
  | t1 :: t2 :: r => if sym "<" t1 && sym ">" t2 then r else ts
  | _ => ts
  end.

Definition call (v : string) (ts : list token) : option stmt :=
  match ts with
  | [TId f; o; TId A; b1; c1; m; c2; b2; m'; TId x; b3; c3; b4; c] =>
      if sym "(" o && sym "[" b1 && sym ":" c1 && sym "," m && sym ":" c2
         && sym "]" b2 && sym "," m' && sym "[" b3 && sym ":" c3 && sym "]" b4
         && sym ")" c
      then Some (CallAssign v f A x) else None
  | _ => None
  end.

Definition line (s : string) : option item :=
  match lex Idle s with
  | [TId w; TId i] => if bool_decide (w = "for") then Some (IFor i) else None
  | [TId w] => if bool_decide (w = "end") then Some IEnd else None
  | ts =>
      match after_marker (before_options ts) with
      | TId v :: t :: r =>
          if sym "=" t then
            (fun e => IStmt (Assign v None e)) <$> expression r
          else if sym "[" t then
            match r with
            | TId i :: t1 :: t2 :: r' =>
                if sym "]" t1 && sym "=" t2 then
                  (fun e => IStmt (Assign v (Some i) e)) <$> expression r'
                else None
            | t0 :: t1 :: t2 :: r' =>
                if sym ":" t0 && sym "]" t1 && sym "=" t2 then IStmt <$> call v r'
                else None
            | _ => None
            end
          else None
      | _ => None
      end
  end.

Fixpoint lines (l : list string) : option (list item) :=
  match l with
  | [] => Some []
  | s :: l' =>
      match line s, lines l' with
      | Some i, Some r => Some (i :: r)
      | _, _ => None
      end
  end.

(** The C instruction [if (<prefix><v> < <bound>) break;] reading [v], where
    the prefix is the one the variables of the kernel get when it is
    inlined. *)
Definition c_instruction (kernel_name code : string) (read_variables : list string)
  : option item :=
  match lex Idle code, read_variables with
  | [TId w; o; TId v; lt; TNum n; c; TId b; sc], [rv] =>
      if bool_decide (w = "if") && sym "(" o && sym "<" lt && sym ")" c
         && bool_decide (b = "break") && sym ";" sc
         && bool_decide (v = String.substring 0 4 kernel_name +:+ "_" +:+ rv)
      then (fun f => IStmt (BreakIf rv f)) <$> number n
      else None
  | _, _ => None
  end.

Fixpoint items (kernel_name : string) (insns : list lp.instruction)
  : option (list item) :=
  match insns with
  | [] => Some []
  | insn :: rest =>
      match
        match insn with
        | lp.Text l => lines l
        | lp.CInstruction _ code read_variables _ _ =>
            (fun i => [i]) <$> c_instruction kernel_name code read_variables
        | _ => None
        end, items kernel_name rest
      with
      | Some a, Some b => Some (a ++ b)
      | _, _ => None
      end
  end.

(** The nesting of [for] and [end]; [stack] holds the open loops with the
    statements before them, [cur] the statements of the innermost one, both
    in reverse. *)
Fixpoint nest (l : list item) (stack : list (string * list stmt))
    (cur : list stmt) : option (list stmt) :=
  match l with
  | [] => match stack with [] => Some (rev cur) | _ => None end
  | IStmt s :: r => nest r stack (s :: cur)
  | IFor i :: r => nest r ((i, cur) :: stack) []
  | IEnd :: r =>
      match stack with
      | (i, outer) :: stack' => nest r stack' (Loop i (rev cur) :: outer)
      | [] => None
      end
  end.

Definition program (knl : lp.kernel) : option (list stmt) :=
  match items (lp.name knl) (lp.instructions knl) with
  | Some l => nest l [] []
  | None => None
  end.

(** ** Execution *)

(** Arrays by name, a scalar being an array of one element. *)
Definition memory : Type := gmap string (list float).

(** The state of a run: the memory, the memory at every entry of a loop
    iteration, and the memory at every test of a stop
    criterion with its outcome, both in the order of the run. *)
Record machine : Type := {
  mem : memory;
  entries : list memory;
  checks : list (memory * bool)
}.

Definition set_mem (m : memory) (st : machine) : machine :=
  {| mem := m; entries := entries st; checks := checks st |}.

Section Exec.

(** The values of the inames, the callables registered with the kernel and
    the two-dimensional arguments. *)
Variable values : string -> list nat.
Variable callables : string -> option (list (list float) -> list float -> list float).
Variable matrices : gmap string (list (list float)).

Definition apply_binop (op : binop) (a b : float) : float :=
  match op with
  | Plus => (a + b)%float
  | Minus => (a - b)%float
  | Times => (a * b)%float
  | Over => (a / b)%float
  end.

Fixpoint eval (env : gmap string nat) (m : memory) (e : expr) : option float :=
  match e with
  | Num f => Some f
  | Var v => m !! v ≫= fun arr => arr !! 0
  | Elem v i => env !! i ≫= fun k => m !! v ≫= fun arr => arr !! k
  | Neg a => PrimFloat.opp <$> eval env m a
  | Bin op a b =>
      match eval env m a, eval env m b with
      | Some x, Some y => Some (apply_binop op x y)
      | _, _ => None
      end
  end.

Fixpoint inames_of (e : expr) : list string :=
  match e with
  | Num _ | Var _ => []
  | Elem _ i => [i]
  | Neg a => inames_of a
  | Bin _ a b => inames_of a ++ inames_of b
  end.

(** The write of one element; an array is extended by the element after its
    last. *)
Definition store (v : string) (k : option nat) (x : float) (m : memory)
  : option memory :=
  match k with
  | None => Some (<[ v := [x] ]> m)
  | Some k =>
      let arr := default [] (m !! v) in
      if decide (k < length arr) then Some (<[ v := <[ k := x ]> arr ]> m)
      else if decide (k = length arr) then Some (<[ v := arr ++ [x] ]> m)
      else None
  end.

(** One run of [step] for every value of every iname of the list, the last
    iname varying fastest. *)
Fixpoint sweep (inames : list string) (step : gmap string nat -> memory -> option memory)
    (env : gmap string nat) (m : memory) : option memory :=
  match inames with
  | [] => step env m
  | i :: rest =>
      (fix over (ks : list nat) (m : memory) : option memory :=
         match ks with
         | [] => Some m
         | k :: ks' =>
             match sweep rest step (<[ i := k ]> env) m with
             | Some m' => over ks' m'
             | None => None
             end
         end) (values i) m
  end.

Definition assign (env : gmap string nat) (v : string) (i : option string)
    (rhs : expr) (m : memory) : option memory :=
  let free :=
    filter (fun j => env !! j = None)
      (remove_dups (option_list i ++ inames_of rhs)) in
  sweep free
    (fun env m =>
       match eval env m rhs with
       | Some x =>
           match i with
           | None => store v None x m
           | Some i => env !! i ≫= fun k => store v (Some k) x m
           end
       | None => None
       end) env m.

(** A list of statements, up to the first [break]. *)
Definition exec_list (exec : stmt -> machine -> option (machine * bool))
  : list stmt -> machine -> option (machine * bool) :=
  fix run (l : list stmt) (st : machine) : option (machine * bool) :=
    match l with
    | [] => Some (st, false)
    | s :: l' =>
        match exec s st with
        | Some (st', false) => run l' st'
        | r => r
        end
    end.

(** A loop: one run of the body for every value, up to the first [break],
    which leaves the loop. *)
Definition exec_loop (body : nat -> machine -> option (machine * bool))
  : list nat -> machine -> option machine :=
  fix iterate (ks : list nat) (st : machine) : option machine :=
    match ks with
    | [] => Some st
    | k :: ks' =>
        match body k {| mem := mem st; entries := entries st ++ [mem st];
                        checks := checks st |} with
        | Some (st', true) => Some st'
        | Some (st', false) => iterate ks' st'
        | None => None
        end
    end.

Fixpoint exec (env : gmap string nat) (s : stmt) (st : machine)
  : option (machine * bool) :=
  match s with
  | Assign v i rhs =>
      (fun m => (set_mem m st, false)) <$> assign env v i rhs (mem st)
  | CallAssign v callee matrix vector =>
      match callables callee, matrices !! matrix, mem st !! vector with
      | Some f, Some A, Some x => Some (set_mem (<[ v := f A x ]> (mem st)) st, false)
      | _, _, _ => None
      end
  | Loop i body =>
      (fun st' => (st', false)) <$>
        exec_loop (fun k => exec_list (exec (<[ i := k ]> env)) body) (values i) st
  | BreakIf v bound =>
      match mem st !! v ≫= fun arr => arr !! 0 with
      | Some x =>
          let b := PrimFloat.ltb x bound in
          Some ({| mem := mem st; entries := entries st;
                   checks := checks st ++ [(mem st, b)] |}, b)
      | None => None
      end
  end.

End Exec.

(** A run of a kernel on a memory. *)
Definition run (callables : string -> option (list (list float) -> list float -> list float))
    (matrices : gmap string (list (list float))) (knl : lp.kernel) (m : memory)
  : option machine :=
  match program knl with
  | Some prog =>
      fst <$> exec_list (exec (lp.iname_values knl) callables matrices ∅) prog
                {| mem := m; entries := []; checks := [] |}
  | None => None
  end.

End ll.

(** What [generate] returns: a kernel, or a program when an auxiliary kernel
    was inlined. *)
Inductive generated : Type :=
| a_kernel (knl : lp.kernel)
| a_program (prg : lp.program).

(** ** pytools' [UniqueNameGenerator] *)

(** The [k]-th name of [generate_unique_names(prefix)]. *)
Definition generate_unique_names (prefix : string) (k : nat) : string :=
  match k with
  | 0 => prefix
  | S n => prefix +:+ "_" +:+ pretty n
  end.

(** The first name from the [k]-th on that does not conflict.  The search
    gives up testing after [fuel] conflicts. *)
Fixpoint first_free (existing_names : gset string) (prefix : string)
    (k fuel : nat) : string :=
  let var_name := generate_unique_names prefix k in
  match fuel with
  | 0 => var_name
  | S fuel' =>
      if bool_decide (var_name ∈ existing_names)
      then first_free existing_names prefix (S k) fuel'
      else var_name
  end.

(** [UniqueNameGenerator.__call__(based_on)]: among the first
    [size existing_names + 1] candidates one is free. *)
Definition unique_name (existing_names : gset string) (based_on : string)
  : string * gset string :=
  let var_name := first_free existing_names based_on 0 (size existing_names) in
  (var_name, {[ var_name ]} ∪ existing_names).

(** ** The code generation context *)

(** The attributes of [LoopyContext] and those [generate] adds to it.  A
    dictionary keyed by GEM nodes holds the key of the node, one keyed by GEM
    indices the handle of the index; [index_names] is looked up with indices
    (left) and with integer extents (right).  A pymbolic variable is held by
    its name, the ordered dictionary [index_extent] as the list of its items,
    the name generator as the set of the names it has issued. *)
Record LoopyContext : Type := {
  indices : gmap nat (list gem.index);
  active_indices : gmap nat string;
  index_extent : list (string * nat);
  gem_to_pymbolic : gmap nat string;
  name_gen : gset string;
  index_names : gmap (nat + nat) string;
  epsilon : float;
  scalar_type : dtype;
  return_increments : bool
}.

(** [LoopyContext()] *)
Definition LoopyContext_init : LoopyContext :=
  {| indices := ∅; active_indices := ∅; index_extent := [];
     gem_to_pymbolic := ∅; name_gen := ∅; index_names := ∅;
     epsilon := 0%float; scalar_type := float64; return_increments := true |}.

Definition set_active_indices (f : gmap nat string -> gmap nat string)
    (c : LoopyContext) : LoopyContext :=
  {| indices := indices c; active_indices := f (active_indices c);
     index_extent := index_extent c; gem_to_pymbolic := gem_to_pymbolic c;
     name_gen := name_gen c; index_names := index_names c;
     epsilon := epsilon c; scalar_type := scalar_type c;
     return_increments := return_increments c |}.

Definition set_index_extent (f : list (string * nat) -> list (string * nat))
    (c : LoopyContext) : LoopyContext :=
  {| indices := indices c; active_indices := active_indices c;
     index_extent := f (index_extent c); gem_to_pymbolic := gem_to_pymbolic c;
     name_gen := name_gen c; index_names := index_names c;
     epsilon := epsilon c; scalar_type := scalar_type c;
     return_increments := return_increments c |}.

Definition set_gem_to_pymbolic (f : gmap nat string -> gmap nat string)
    (c : LoopyContext) : LoopyContext :=
  {| indices := indices c; active_indices := active_indices c;
     index_extent := index_extent c; gem_to_pymbolic := f (gem_to_pymbolic c);
     name_gen := name_gen c; index_names := index_names c;
     epsilon := epsilon c; scalar_type := scalar_type c;
     return_increments := return_increments c |}.

Definition set_name_gen (g : gset string) (c : LoopyContext) : LoopyContext :=
  {| indices := indices c; active_indices := active_indices c;
     index_extent := index_extent c; gem_to_pymbolic := gem_to_pymbolic c;
     name_gen := g; index_names := index_names c;
     epsilon := epsilon c; scalar_type := scalar_type c;
     return_increments := return_increments c |}.

Definition set_index_names
    (f : gmap (nat + nat) string -> gmap (nat + nat) string)
    (c : LoopyContext) : LoopyContext :=
  {| indices := indices c; active_indices := active_indices c;
     index_extent := index_extent c; gem_to_pymbolic := gem_to_pymbolic c;
     name_gen := name_gen c; index_names := f (index_names c);
     epsilon := epsilon c; scalar_type := scalar_type c;
     return_increments := return_increments c |}.

(** Assignment to a key of an [OrderedDict]: a key already present keeps its
    place. *)
Fixpoint od_set {V} (k : string) (v : V) (d : list (string * V))
  : list (string * V) :=
  match d with
  | [] => [(k, v)]
  | (k', v') :: d' =>
      if bool_decide (k' = k) then (k, v) :: d' else (k', v') :: od_set k v d'
  end.

(** [dict(pairs)]: a later pair with the same key replaces the value. *)
Fixpoint dict_of_pairs {V} (pairs : list (nat * V)) (acc : list (nat * V))
  : list (nat * V) :=
  match pairs with
  | [] => acc
  | (k, v) :: rest =>
      dict_of_pairs rest
        (if bool_decide (k ∈ acc.*1)
         then List.map (fun kv => if bool_decide (kv.1 = k) then (k, v) else kv) acc
         else acc ++ [(k, v)])
  end.

(** [ctx.name_gen(based_on)] *)
Definition name_gen_call (based_on : string) : M LoopyContext string :=
  fun c => let '(v, g) := unique_name (name_gen c) based_on in
           (Ok v, set_name_gen g c).

(** [ctx.index_names[key]]: a [defaultdict] whose default is ["i"]; the
    lookup of a missing key stores the default under the key. *)
Definition index_names_get (key : nat + nat) : M LoopyContext string :=
  c <- get ;;
  match index_names c !! key with
  | Some name => ret name
  | None => modify (set_index_names <[ key := "i" ]>) ;;; ret "i"
  end.

(** [LoopyContext.active_inames] *)
Definition active_inames : M LoopyContext (gset string) :=
  c <- get ;; ret (list_to_set (map_to_list (active_indices c)).*2).

(** [LoopyContext.gem_to_pym_multiindex]; the result lists the names of the
    pymbolic variables. *)
Definition gem_to_pym_multiindex (multiindex : list gem.Index)
  : M LoopyContext (list string) :=
  mapM (fun index =>
    match gem.extent index with
    | None | Some 0 => raise (AssertionError "index.extent")
    | Some extent =>
        name <- match gem.index_name index with
                | None | Some "" =>
                    based_on <- index_names_get (inl (gem.iid index)) ;;
                    name_gen_call based_on
                | Some name => ret name
                end ;;
        modify (set_index_extent (od_set name extent)) ;;;
        ret name
    end) multiindex.

(** [LoopyContext.pymbolic_multiindex]; the result lists the names of the
    pymbolic variables. *)
Definition pymbolic_multiindex (shape : list nat) : M LoopyContext (list string) :=
  mapM (fun extent =>
    based_on <- index_names_get (inr extent) ;;
    name <- name_gen_call based_on ;;
    modify (set_index_extent (od_set name extent)) ;;;
    ret name) shape.

(** ** numpy on float64 scalars *)

Definition two52 : float := 4503599627370496%float.

(** [numpy.rint]: round to the nearest integer, ties to even.  Below [2^52]
    in magnitude, adding and subtracting [2^52] rounds at the unit place;
    from there on every float is an integer. *)
Definition rint (x : float) : float :=
  if PrimFloat.ltb (PrimFloat.abs x) two52 then
    if PrimFloat.ltb x 0 then ((x - two52) + two52)%float
    else ((x + two52) - two52)%float
  else x.

(** [numpy.round(v, 1)]: scale by ten, round, scale back. *)
Definition numpy_round1 (v : float) : float := (rint (v * 10) / 10)%float.

(** Truth value of a float: false for both zeros. *)
Definition float_truth (r : float) : bool := negb (PrimFloat.eqb r 0).

(** ** Lowering of GEM expressions *)

Section Loopy.

(** GEM nodes are dictionary keys and are compared with [==]; their hashing
    and equality are declared in the [gem] package.  [node_key] is the class
    of a node under that equality, [key_Zero] the class of the node
    [gem.Zero()] builds and [key_one] the class of the constant [gem.one]. *)
Variable node_key : gem.node -> nat.
Variables key_Zero key_one : nat.

(** pymbolic's overloaded [+] on expressions. *)
Variable pym_add : p.expr -> p.expr -> p.expr.

(** [LoopyContext._gem_to_pym_var] *)
Definition _gem_to_pym_var (node : gem.node) : M LoopyContext p.expr :=
  c <- get ;;
  match gem_to_pymbolic c !! node_key node with
  | Some pym => ret (p.Variable_ pym)
  | None =>
      match gem.name node with
      | None => raise AttributeError
      | Some based_on =>
          name <- name_gen_call based_on ;;
          modify (set_gem_to_pymbolic <[ node_key node := name ]>) ;;;
          ret (p.Variable_ name)
      end
  end.

Section Expression.

(** The recursive calls [expression(e, ctx)] made while lowering one node. *)
Variable expression : gem.node -> M LoopyContext p.expr.

(** [LoopyContext.fetch_multiindex] *)
Definition fetch_multiindex (multiindex : list gem.index)
  : M LoopyContext (list p.expr) :=
  mapM (fun index =>
    match index with
    | gem.an_Index i =>
        c <- get ;;
        match active_indices c !! gem.iid i with
        | Some v => ret (p.Variable_ v)
        | None => raise KeyError
        end
    | gem.a_VariableIndex e => expression e
    | gem.an_int z => ret (p.IntLit z)
    end) multiindex.

(** [LoopyContext.pymbolic_variable] *)
Definition pymbolic_variable (node : gem.node) : M LoopyContext p.expr :=
  pym <- _gem_to_pym_var node ;;
  c <- get ;;
  match indices c !! node_key node with
  | Some multiindex =>
      idx <- fetch_multiindex multiindex ;;
      match idx with
      | [] => ret pym
      | _ => ret (p.Subscript pym idx)
      end
  | None => ret pym
  end.

(** [LoopyContext.pymbolic_variable_and_destruct] *)
Definition pymbolic_variable_and_destruct (node : gem.node)
  : M LoopyContext (p.expr * list p.expr) :=
  pym <- pymbolic_variable node ;;
  match pym with
  | p.Subscript aggregate index => ret (aggregate, index)
  | _ => ret (pym, [])
  end.

(** The last character of a name, [name[-1:]]. *)
Fixpoint last_char (s : string) : string :=
  match s with
  | EmptyString => EmptyString
  | String c EmptyString => String c EmptyString
  | String _ s' => last_char s'
  end.

Definition _expression_mathfunction (name : string) (children : list gem.node)
  : M LoopyContext p.expr :=
  if String.prefix "cyl_bessel_" name then
    c <- get ;;
    if is_complex (scalar_type c) then
      raise (NotImplementedError
               "Bessel functions for complex numbers: missing implementation")
    else
      match children with
      | [nu; arg] =>
          nu_ <- expression nu ;;
          arg_ <- expression arg ;;
          if bool_decide (name ∈ ["cyl_bessel_i"; "cyl_bessel_k"]) then
            ret (p.Call (p.Variable_ ("boost::math::" +:+ name)) [nu_; arg_])
          else
            let name := last_char name in
            if bool_decide (node_key nu = key_Zero) then
              ret (p.Call (p.Variable_ (name +:+ "0")) [arg_])
            else if bool_decide (node_key nu = key_one) then
              ret (p.Call (p.Variable_ (name +:+ "1")) [arg_])
            else
              ret (p.Call (p.Variable_ (name +:+ "n")) [nu_; arg_])
      | _ => raise ValueError
      end
  else
    let name := if bool_decide (name = "ln") then "log" else name in
    args <- mapM expression children ;;
    ret (p.Call (p.Variable_ name) args).

(** The scalar value of a constant node of empty shape. *)
Definition value (expr : gem.node) : result float :=
  match expr with
  | gem.Zero _ _ => Ok 0%float
  | gem.Literal _ arr =>
      match gem.array_flat arr with
      | [v] => Ok v
      | _ => Raise ValueError
      end
  | _ => Raise AttributeError
  end.

Definition _expression_scalar (expr : gem.node) : M LoopyContext p.expr :=
  match gem.shape expr with
  | _ :: _ => raise (AssertionError "not expr.shape")
  | [] =>
      v <- lift_result (value expr) ;;
      if PrimFloat.is_nan v then ret (p.Variable_ "NAN")
      else
        let r := numpy_round1 v in
        c <- get ;;
        if float_truth r && PrimFloat.ltb (PrimFloat.abs (v - r)) (epsilon c)
        then ret (p.FloatLit r)
        else ret (p.FloatLit v)
  end.

Definition _expression_indexed (aggregate : gem.node)
    (multiindex : list gem.index) : M LoopyContext p.expr :=
  rank <- fetch_multiindex multiindex ;;
  var <- expression aggregate ;;
  match var with
  | p.Subscript aggregate' index => ret (p.Subscript aggregate' (index ++ rank))
  | _ => ret (p.Subscript var rank)
  end.

Definition is_Index (index : gem.index) : bool :=
  match index with gem.an_Index _ => true | _ => false end.

(** The product [active_indices[index] * stride] of one (index, stride) pair. *)
Definition flexible_product (pair : gem.index * Z) : M LoopyContext p.expr :=
  match pair.1 with
  | gem.an_Index i =>
      c <- get ;;
      match active_indices c !! gem.iid i with
      | Some v => ret (p.Product [p.Variable_ v; p.IntLit pair.2])
      | None => raise KeyError
      end
  | _ => raise KeyError
  end.

(** One dimension of a [FlexiblyIndexed] node: the offset followed by one
    product per (index, stride) pair. *)
Definition flexible_dimension (off : Z) (idxs : list (gem.index * Z))
  : M LoopyContext p.expr :=
  if forallb (fun pair => is_Index pair.1) idxs then
    products <- mapM flexible_product idxs ;;
    ret (p.Sum (p.IntLit off :: products))
  else raise (AssertionError "isinstance(index, gem.Index)").

Definition _expression_flexiblyindexed (variable : gem.node)
    (dim2idxs : list (Z * list (gem.index * Z))) : M LoopyContext p.expr :=
  var <- expression variable ;;
  rank <- mapM (fun '(off, idxs) => flexible_dimension off idxs) dim2idxs ;;
  ret (p.Subscript var rank).

(** [_expression] with its registered cases. *)
Definition _expression (expr : gem.node) : M LoopyContext p.expr :=
  match expr with
  | gem.Failure _ _ exception => raise (GemFailure exception)
  | gem.Product _ a b => args <- mapM expression [a; b] ;; ret (p.Product args)
  | gem.Sum _ a b => args <- mapM expression [a; b] ;; ret (p.Sum args)
  | gem.Division _ a b =>
      a' <- expression a ;; b' <- expression b ;; ret (p.Quotient a' b')
  | gem.Power _ a b =>
      args <- mapM expression [a; b] ;; ret (p.Call (p.Variable_ "pow") args)
  | gem.MathFunction _ name children => _expression_mathfunction name children
  | gem.MinValue _ a b =>
      args <- mapM expression [a; b] ;; ret (p.Call (p.Variable_ "min") args)
  | gem.MaxValue _ a b =>
      args <- mapM expression [a; b] ;; ret (p.Call (p.Variable_ "max") args)
  | gem.Comparison _ operator a b =>
      left <- expression a ;; right <- expression b ;;
      ret (p.Comparison left operator right)
  | gem.LogicalNot _ a => args <- mapM expression [a] ;; ret (p.LogicalNot args)
  | gem.LogicalAnd _ a b => args <- mapM expression [a; b] ;; ret (p.LogicalAnd args)
  | gem.LogicalOr _ a b => args <- mapM expression [a; b] ;; ret (p.LogicalOr args)
  | gem.Conditional _ c t e =>
      c' <- expression c ;; t' <- expression t ;; e' <- expression e ;;
      ret (p.If c' t' e')
  | gem.Zero _ _ | gem.Identity _ _ | gem.Literal _ _ => _expression_scalar expr
  | gem.Variable_ _ _ _ => pymbolic_variable expr
  | gem.Indexed _ aggregate multiindex => _expression_indexed aggregate multiindex
  | gem.FlexiblyIndexed _ variable dim2idxs =>
      _expression_flexiblyindexed variable dim2idxs
  | _ => raise (AssertionError "cannot generate expression")
  end.

End Expression.

(** [expression(expr, ctx, top)].  [fuel] bounds the depth of the recursion,
    as Python's recursion limit does. *)
Fixpoint expression (fuel : nat) (top : bool) (expr : gem.node)
  : M LoopyContext p.expr :=
  match fuel with
  | 0 => raise RecursionError
  | S fuel' =>
      let rec := expression fuel' false in
      c <- get ;;
      if negb top && bool_decide (is_Some (gem_to_pymbolic c !! node_key expr))
      then pymbolic_variable rec expr
      else _expression rec expr
  end.

(** ** The module state and the scoped activation of indices *)

(** The context of the running compilation and the module level variable
    [matfree_solve_knl]. *)
Record World : Type := {
  ctx : LoopyContext;
  matfree_solve_knl : option lp.kernel
}.

Definition in_ctx {A} (m : M LoopyContext A) : M World A :=
  fun w => let '(r, c) := m (ctx w) in
           (r, {| ctx := c; matfree_solve_knl := matfree_solve_knl w |}).

(** [ctx.active_indices.update(mapping)] *)
Definition update_mapping (mapping : list (nat * string))
    (m : gmap nat string) : gmap nat string :=
  foldl (fun m kv => <[ kv.1 := kv.2 ]> m) m mapping.

(** [for key in mapping: ctx.active_indices.pop(key)] *)
Fixpoint pop_keys (keys : list nat) : M LoopyContext unit :=
  match keys with
  | [] => ret tt
  | key :: rest =>
      c <- get ;;
      match active_indices c !! key with
      | Some _ => modify (set_active_indices (delete key)) ;;; pop_keys rest
      | None => raise KeyError
      end
  end.

(** The context manager [active_indices(mapping, ctx)] around [body].  The
    generator has no [try] around its [yield]: an exception of the body is
    raised at the [yield] and leaves the generator, the loop after it does
    not run. *)
Definition with_active_indices {A} (mapping : list (nat * string))
    (body : M World A) : M World A :=
  fun w =>
    match (in_ctx (modify (set_active_indices (update_mapping mapping))) ;;; body) w with
    | (Ok a, w') =>
        match in_ctx (pop_keys mapping.*1) w' with
        | (Ok _, w'') => (Ok a, w'')
        | (Raise e, w'') => (Raise e, w'')
        end
    | (Raise e, w') => (Raise e, w')
    end.

(** ** The matrix-free conjugate-gradient kernel *)

Definition below_n (i : string) : lp.iname_range :=
  {| lp.iname := i; lp.upper := lp.aff_param 1 "n"; lp.inclusive := false |}.

(** The domain of the kernel: every iname ranges over [0 <= i < n], except
    [i_6], which is constrained by [0 <= i_6 <= 3*n]. *)
Definition matfree_cg_domain : lp.BasicSet :=
  [ below_n "i_0"; below_n "i_1"; below_n "j_1"; below_n "i_2"; below_n "j_2";
    below_n "i_3"; below_n "i_4"; below_n "i_5";
    {| lp.iname := "i_6"; lp.upper := lp.aff_param 3 "n"; lp.inclusive := true |};
    below_n "i_7"; below_n "j_7"; below_n "i_8"; below_n "j_8"; below_n "i_9";
    below_n "i_10"; below_n "i_11"; below_n "i_12"; below_n "i_13";
    below_n "i_14"; below_n "i_15"; below_n "i_16"; below_n "i_17" ].

Definition stop_criterion (prefix_after_inlining : string) : lp.instruction :=
  lp.CInstruction ""
    ("if (" +:+ prefix_after_inlining +:+ "rkp1_norm < 0.000001) break;")
    ["rkp1_norm"] "rkp1_normk" "cond".

Definition matfree_cg_instructions (name : string) : list lp.instruction :=
  [ lp.Text
      [ "x[i_0] = 1.0 {id=x0}";
        "A_on_x[:] = action_A(A[:,:], x[:]) {dep=x0, id=Aonx}";
        "<> r[i_3] = A_on_x[i_3]-b[i_3] {dep=Aonx, id=residual0}";
        "p[i_4] = -r[i_4] {dep=residual0, id=projector0}";
        "<> rk_norm = 0 {dep=projector0, id=rk_norm0}";
        "rk_norm = rk_norm + r[i_5]*r[i_5] {dep=projector0, id=rk_norm1}";
        "for i_6";
        "A_on_p[:] = action_A_on_p(A[:,:], p[:]) {dep=rk_norm1, id=Aonp, inames=i_6}";
        "<> p_on_Ap = 0 {dep=Aonp, id=ponAp0}";
        "p_on_Ap = p_on_Ap + p[j_2]*A_on_p[j_2] {dep=ponAp0, id=ponAp}";
        "<> alpha = rk_norm / p_on_Ap {dep=ponAp, id=alpha}";
        "x[i_10] = x[i_10] + alpha*p[i_10] {dep=ponAp, id=xk}";
        "r[i_11] = r[i_11] + alpha*A_on_p[i_11] {dep=xk,id=rk}";
        "<> rkp1_norm = 0 {dep=rk, id=rkp1_norm0}";
        "rkp1_norm = rkp1_norm + r[i_12]*r[i_12] {dep=rkp1_norm0, id=rkp1_normk}" ];
    stop_criterion (String.substring 0 4 name +:+ "_");
    lp.Text
      [ "<> beta = rkp1_norm / rk_norm {dep=cond, id=beta}";
        "rk_norm = rkp1_norm {dep=beta, id=rk_normk}";
        "p[i_15] = beta * p[i_15] - r[i_15] {dep=rk_normk, id=projectork}";
        "A_on_p[i_17] = 0. {dep=rk_normk, id=Aonp0, inames=i_6}";
        "end";
        "output[i_16] = x[i_16] {dep=projectork, id=out}" ] ].

Definition matfree_cg_data (shape : list nat) (n : nat) : list lp.decl :=
  let shape' := Some <$> shape in
  [ lp.GlobalArg "A" (Some float64) [Some n; Some n] false;
    lp.GlobalArg "b" (Some float64) shape' false;
    lp.TemporaryVariable "x" shape' (Some float64) None lp.LOCAL false;
    lp.GlobalArg "output" (Some float64) shape' true;
    lp.TemporaryVariable "A_on_x" shape' (Some float64) None lp.LOCAL false;
    lp.TemporaryVariable "A_on_p" shape' (Some float64) None lp.LOCAL false;
    lp.TemporaryVariable "p" shape' (Some float64) None lp.LOCAL false ].

(** [loopy_matfree_solve(lhs, reads, ctx, shape)]: builds the kernel and
    stores it in [matfree_solve_knl]. *)
Definition loopy_matfree_solve (lhs reads : list p.expr) (shape : list nat)
  : M World unit :=
  let name := "matfree_cg_kernel" in
  match shape with
  | [] => raise IndexError
  | n :: _ =>
      let knl :=
        {| lp.name := name;
           lp.domains := [matfree_cg_domain];
           lp.instructions := matfree_cg_instructions name;
           lp.kernel_data := matfree_cg_data shape n;
           lp.loop_priority := None |} in
      let knl := lp.fix_parameters knl "n" n in
      fun w => (Ok tt, {| ctx := ctx w; matfree_solve_knl := Some knl |})
  end.

(** ** Lowering of Impero statements *)

(** The sub-array reference built for the output and for each operand of a
    call: fresh inames for the shape, swept over the subscripted variable. *)
Definition sub_array_ref (fuel : nat) (node : gem.node) : M LoopyContext p.expr :=
  idx <- pymbolic_multiindex (gem.shape node) ;;
  var <- pymbolic_variable (expression fuel false) node ;;
  ret (p.SubArrayRef (p.Variable_ <$> idx) (p.Subscript var (p.Variable_ <$> idx))).

(** [numpy.ndenumerate]: the multi-indices of a shape in row-major order. *)
Fixpoint ndindex (shape : list nat) : list (list nat) :=
  match shape with
  | [] => [[]]
  | n :: rest => i ← seq 0 n; (cons i) <$> ndindex rest
  end.

Definition statement_initialise (fuel : nat) (indexsum : gem.node)
  : M LoopyContext (list lp.instruction) :=
  lhs <- expression fuel false indexsum ;;
  inames <- active_inames ;;
  ret [lp.Assignment lhs (p.FloatLit 0) inames 0].

Definition statement_accumulate (fuel : nat) (indexsum : gem.node)
  : M LoopyContext (list lp.instruction) :=
  lhs <- expression fuel false indexsum ;;
  match gem.children indexsum with
  | [] => raise IndexError
  | summand :: _ =>
      rhs <- expression fuel false summand ;;
      inames <- active_inames ;;
      ret [lp.Assignment lhs (pym_add lhs rhs) inames 0]
  end.

Definition statement_return (fuel : nat) (variable expr : gem.node)
  : M LoopyContext (list lp.instruction) :=
  lhs <- expression fuel false variable ;;
  rhs <- expression fuel false expr ;;
  c <- get ;;
  let rhs := if return_increments c then pym_add lhs rhs else rhs in
  inames <- active_inames ;;
  ret [lp.Assignment lhs rhs inames 0].

Definition statement_returnaccumulate (fuel : nat) (variable indexsum : gem.node)
  : M LoopyContext (list lp.instruction) :=
  lhs <- expression fuel false variable ;;
  match gem.children indexsum with
  | [] => raise IndexError
  | summand :: _ =>
      rhs <- expression fuel false summand ;;
      inames <- active_inames ;;
      ret [lp.Assignment lhs (pym_add lhs rhs) inames 0]
  end.

(** The call instruction of [Inverse], [Action] and [Solve]: the output and
    every operand are passed as sub-array references. *)
Definition call_operands (fuel : nat) (expr : gem.node) (operands : list gem.node)
  : M LoopyContext (p.expr * list p.expr) :=
  lhs <- sub_array_ref fuel expr ;;
  reads <- mapM (sub_array_ref fuel) operands ;;
  ret (lhs, reads).

Definition statement_evaluate (fuel : nat) (expr : gem.node)
  : M World (list lp.instruction) :=
  match expr with
  | gem.ListTensor _ arr_shape array =>
      var_index <- in_ctx (pymbolic_variable_and_destruct
                                 (expression fuel false) expr) ;; let '(var, index) := var_index in
      in_ctx (mapM (fun '(multiindex, value) =>
        rhs <- expression fuel false value ;;
        inames <- active_inames ;;
        ret (lp.Assignment
               (p.Subscript var (index ++ ((p.IntLit ∘ Z.of_nat) <$> multiindex)))
               rhs inames 0))
        (zip (ndindex arr_shape) array))
  | gem.Zero _ _ | gem.Identity _ _ | gem.Literal _ _ => ret []
  | gem.ComponentTensor _ _ body multiindex =>
      idx <- in_ctx (gem_to_pym_multiindex multiindex) ;;
      var_sub_idx <- in_ctx (pymbolic_variable_and_destruct
                                   (expression fuel false) expr) ;; let '(var, sub_idx) := var_sub_idx in
      let lhs := p.Subscript var ((p.Variable_ <$> idx) ++ sub_idx) in
      with_active_indices (dict_of_pairs (zip (gem.iid <$> multiindex) idx) [])
        (in_ctx (rhs <- expression fuel false body ;;
                 inames <- active_inames ;;
                 ret [lp.Assignment lhs rhs inames 0]))
  | gem.Inverse _ tensor =>
      lhs_reads <- in_ctx (call_operands fuel expr [tensor]) ;; let '(lhs, reads) := lhs_reads in
      inames <- in_ctx active_inames ;;
      ret [lp.CallInstruction [lhs] (p.Call (p.Variable_ "inverse") reads) inames 0]
  | gem.Action _ _ children =>
      lhs_reads <- in_ctx (call_operands fuel expr children) ;; let '(lhs, reads) := lhs_reads in
      inames <- in_ctx active_inames ;;
      ret [lp.CallInstruction [lhs] (p.Call (p.Variable_ "action") reads) inames 0]
  | gem.Solve _ shape children matfree =>
      if matfree then
        lhs_reads <- in_ctx (call_operands fuel expr children) ;; let '(lhs, reads) := lhs_reads in
        loopy_matfree_solve [lhs] reads shape ;;;
        w <- get ;;
        match matfree_solve_knl w with
        | None => raise AttributeError
        | Some knl =>
            inames <- in_ctx active_inames ;;
            ret [lp.CallInstruction [lhs]
                   (p.Call (p.Variable_ (lp.name knl)) reads) inames 0]
        end
      else
        lhs_reads <- in_ctx (call_operands fuel expr children) ;; let '(lhs, reads) := lhs_reads in
        inames <- in_ctx active_inames ;;
        ret [lp.CallInstruction [lhs] (p.Call (p.Variable_ "solve") reads) inames 0]
  | _ =>
      in_ctx (lhs <- pymbolic_variable (expression fuel false) expr ;;
              rhs <- expression fuel true expr ;;
              inames <- active_inames ;;
              ret [lp.Assignment lhs rhs inames 0])
  end.

(** [statement(tree, ctx)] with its registered cases. *)
Fixpoint statement (fuel : nat) (tree : imp.tree) : M World (list lp.instruction) :=
  match tree with
  | imp.Block children =>
      (fix chain (l : list imp.tree) : M World (list lp.instruction) :=
         match l with
         | [] => ret []
         | child :: l' =>
             insns <- statement fuel child ;;
             rest <- chain l' ;;
             ret (insns ++ rest)
         end) children
  | imp.For index body =>
      match gem.extent index with
      | None | Some 0 => raise (AssertionError "extent")
      | Some extent =>
          idx <- in_ctx (based_on <- index_names_get (inl (gem.iid index)) ;;
                         name_gen_call based_on) ;;
          in_ctx (modify (set_index_extent (od_set idx extent))) ;;;
          with_active_indices [(gem.iid index, idx)] (statement fuel body)
      end
  | imp.Initialise indexsum => in_ctx (statement_initialise fuel indexsum)
  | imp.Accumulate indexsum => in_ctx (statement_accumulate fuel indexsum)
  | imp.Return variable expr => in_ctx (statement_return fuel variable expr)
  | imp.ReturnAccumulate variable indexsum =>
      in_ctx (statement_returnaccumulate fuel variable indexsum)
  | imp.Evaluate expr => statement_evaluate fuel expr
  | imp.Noop => raise (AssertionError "cannot generate loopy")
  end.

(** ** The kernel assembler *)

(** [create_domains(indices)] *)
Definition create_domains (indices : list (string * nat)) : list lp.BasicSet :=
  let domains :=
    (fun '(idx, extent) =>
       [ {| lp.iname := idx; lp.upper := lp.aff_const extent;
            lp.inclusive := false |} ]) <$> indices in
  match domains with
  | [] => [ [] ]
  | _ => domains
  end.

(** The ImperoC tuple: the tree, the temporaries and, for every node, the
    indices it is declared and referenced with. *)
Record ImperoC : Type := {
  tree : imp.tree;
  temporaries : list gem.node;
  impero_indices : list (gem.node * list gem.index)
}.

Definition dict_by_key {V} (pairs : list (gem.node * V)) : gmap nat V :=
  foldl (fun m kv => <[ node_key kv.1 := kv.2 ]> m) ∅ pairs.

(** [",".join(names)] *)
Fixpoint join (sep : string) (names : list string) : string :=
  match names with
  | [] => ""
  | [s] => s
  | s :: rest => s +:+ sep +:+ join sep rest
  end.

(** The declaration of the [i]-th temporary and its registration under the
    name [t<i>]. *)
Definition declare_temporary (i : nat) (temp : gem.node) (dtype : option dtype)
  : M LoopyContext lp.decl :=
  let name := "t" +:+ pretty i in
  decl <-
    (if gem.is_Constant temp then
       ret (lp.TemporaryVariable name (Some <$> gem.shape temp) dtype (Some temp)
              lp.LOCAL true)
     else
       c <- get ;;
       match indices c !! node_key temp with
       | None => raise KeyError
       | Some multiindex =>
           extents <- mapM (fun i =>
             match i with
             | gem.an_Index i => ret (gem.extent i)
             | _ => raise AttributeError
             end) multiindex ;;
           ret (lp.TemporaryVariable name (extents ++ (Some <$> gem.shape temp))
                  dtype None lp.LOCAL false)
       end) ;;
  modify (set_gem_to_pymbolic <[ node_key temp := name ]>) ;;;
  ret decl.

Fixpoint declare_temporaries (i : nat) (temps : list (gem.node * option dtype))
  : M LoopyContext (list lp.decl) :=
  match temps with
  | [] => ret []
  | (temp, dtype) :: rest =>
      d <- declare_temporary i temp dtype ;;
      ds <- declare_temporaries (S i) rest ;;
      ret (d :: ds)
  end.

(** [insn.copy(priority=len(knl.instructions) - i)] for the [i]-th instruction. *)
Fixpoint assign_priorities (len i : nat) (insns : list lp.instruction)
  : list lp.instruction :=
  match insns with
  | [] => []
  | insn :: rest =>
      lp.set_priority (len - i) insn :: assign_priorities len (S i) rest
  end.

(** The first two steps of [generate]: the temporaries are declared after
    the arguments, then the tree is lowered. *)
Definition lower_tree (fuel : nat) (impero_c : ImperoC) (args : list lp.decl)
    (typed : list (gem.node * option dtype))
  : M World (list lp.decl * list lp.instruction) :=
  temps <- in_ctx (declare_temporaries 0 typed) ;;
  instructions <- statement fuel (tree impero_c) ;;
  ret (args ++ temps, instructions).

(** [generate(impero_c, args, scalar_type, kernel_name, index_names,
    return_increments)], run on the module variable [matfree_solve_knl]. *)
Definition generate (fuel : nat) (impero_c : ImperoC) (args : list lp.decl)
    (scalar_type : dtype) (kernel_name : string)
    (index_names : list ((nat + nat) * string)) (return_increments : bool)
  : M (option lp.kernel) generated :=
  fun pending =>
    match finfo_resolution scalar_type, assign_dtypes (temporaries impero_c) scalar_type with
    | Raise e, _ | _, Raise e => (Raise e, pending)
    | Ok epsilon, Ok typed =>
        let ctx0 :=
          {| indices := dict_by_key (impero_indices impero_c);
             active_indices := ∅; index_extent := [];
             gem_to_pymbolic := ∅; name_gen := ∅;
             index_names := foldl (fun m kv => <[ kv.1 := kv.2 ]> m) ∅ index_names;
             epsilon := epsilon; scalar_type := scalar_type;
             return_increments := return_increments |} in
        match lower_tree fuel impero_c args typed
                {| ctx := ctx0; matfree_solve_knl := pending |} with
        | (Raise e, w) => (Raise e, matfree_solve_knl w)
        | (Ok (data, instructions), w) =>
            let domains := create_domains (index_extent (ctx w)) in
            let knl :=
              {| lp.name := kernel_name; lp.domains := domains;
                 lp.instructions := instructions; lp.kernel_data := data;
                 lp.loop_priority := None |} in
            let knl := lp.prioritize_loops knl (join "," (index_extent (ctx w)).*1) in
            let knl :=
              lp.copy_instructions knl
                (assign_priorities (length (lp.instructions knl)) 0
                   (lp.instructions knl)) in
            match matfree_solve_knl w with
            | Some aux =>
                let prg := lp.make_program knl in
                let prg := lp.register_callable_kernel prg aux in
                let prg := lp._match_caller_callee_argument_dimension_ prg (lp.name aux) in
                let prg := lp.inline_callable_kernel prg (lp.name aux) in
                (Ok (a_program prg), None)
            | None => (Ok (a_kernel knl), None)
            end
        end
    end.

(** ** What the conjugate-gradient kernel computes *)

(** The kernel [loopy_matfree_solve] leaves pending for a shape. *)
Definition matfree_cg_kernel_for (shape : list nat) : option lp.kernel :=
  matfree_solve_knl
    (loopy_matfree_solve [] [] shape
       {| ctx := LoopyContext_init; matfree_solve_knl := None |}).2.





(** ** Runs that return *)

(** The number of elements a variable holds. *)
Definition len (m : ll.memory) (v : string) : nat := length (default [] (m !! v)).







(** ** Values of index expressions *)

(** The integer an index expression denotes when the inames take the values
    [env]. *)
Fixpoint eval_index (env : string -> Z) (e : p.expr) : option Z :=
  let all := fix all (l : list p.expr) : option (list Z) :=
    match l with
    | [] => Some []
    | x :: l' =>
        match eval_index env x, all l' with
        | Some z, Some zs => Some (z :: zs)
        | _, _ => None
        end
    end in
  match e with
  | p.IntLit z => Some z
  | p.Variable_ v => Some (env v)
  | p.Sum children => (fun zs => foldr Z.add 0%Z zs) <$> all children
  | p.Product children => (fun zs => foldr Z.mul 1%Z zs) <$> all children
  | _ => None
  end.

(** The pymbolic variable a bound fixed index resolves to. *)
Definition index_variable (active : gmap nat string) (index : gem.index) : string :=
  match index with
  | gem.an_Index i => default "" (active !! gem.iid i)
  | _ => ""
  end.

(** The value of a bound fixed index. *)
Definition index_value (active : gmap nat string) (env : string -> Z)
    (index : gem.index) : Z :=
  env (index_variable active index).

(** [offset + sum of index_value * stride]. *)
Definition affine_value (value_of : gem.index -> Z) (off : Z)
    (idxs : list (gem.index * Z)) : Z :=
  (off + foldr (fun '(index, stride) acc => value_of index * stride + acc) 0 idxs)%Z.

(** The expression [Sum((off, Product((index, stride)), ...))]. *)
Definition affine_expression (active : gmap nat string) (off : Z)
    (idxs : list (gem.index * Z)) : p.expr :=
  p.Sum (p.IntLit off ::
         ((fun pair => p.Product [p.Variable_ (index_variable active pair.1);
                                  p.IntLit pair.2]) <$> idxs)).

Definition bound_Index (active : gmap nat string) (index : gem.index) : Prop :=
  exists i, index = gem.an_Index i /\ is_Some (active !! gem.iid i).

(** ** Trees that lower a matrix-free solve *)

Definition is_matfree_solve (expr : gem.node) : bool :=
  match expr with
  | gem.Solve _ _ _ matfree => matfree
  | _ => false
  end.

(** The shape of the last matrix-free [Solve] a tree evaluates, in the order
    of lowering. *)
Fixpoint last_matfree (tree : imp.tree) : option (list nat) :=
  match tree with
  | imp.Block children =>
      (fix last (l : list imp.tree) : option (list nat) :=
         match l with
         | [] => None
         | child :: l' =>
             match last l' with
             | Some shape => Some shape
             | None => last_matfree child
             end
         end) children
  | imp.For _ body => last_matfree body
  | imp.Evaluate (gem.Solve _ shape _ true) => Some shape
  | _ => None
  end.

(** The kernel pending once a tree is lowered, given the one pending before. *)
Definition pending_after (tree : imp.tree) (before : option lp.kernel)
  : option lp.kernel :=
  match last_matfree tree with
  | Some shape => matfree_cg_kernel_for shape
  | None => before
  end.

(** ** The names of a context *)

(** Every name recorded for a node came from the name generator, and no two
    keys share a name.  The context [LoopyContext()] satisfies both. *)
Definition names_reserved (c : LoopyContext) : Prop :=
  (forall k v, gem_to_pymbolic c !! k = Some v -> v ∈ name_gen c) /\
  (forall k1 k2 v, gem_to_pymbolic c !! k1 = Some v ->
                   gem_to_pymbolic c !! k2 = Some v -> k1 = k2).

(** The world in which the body of [with_active_indices] starts. *)
Definition activated (mapping : list (nat * string)) (w : World) : World :=
  {| ctx := set_active_indices (update_mapping mapping) (ctx w);
     matfree_solve_knl := matfree_solve_knl w |}.

(** ** The pending auxiliary kernel *)

(** A computation that leaves [matfree_solve_knl] as it found it. *)
Definition keeps_pending {A} (m : M World A) : Prop :=
  forall w r w', m w = (r, w') -> matfree_solve_knl w' = matfree_solve_knl w.

(** ** Fuel *)

(** [m'] returns whatever [m] returns: the results of [m] do not depend on
    the fuel [m'] has in addition. *)
Definition refines {S A} (m m' : M S A) : Prop :=
  forall s a s', m s = (Ok a, s') -> m' s = (Ok a, s').

(** ** Sample inputs *)

(** Modelled from the spec: the hashing and equality of [gem.Node], which
    decide the key a node has in a dictionary and are declared in the [gem]
    package.  The data model memoises names by node identity: the key of a
    node is its instance handle. *)
Definition identity_key : gem.node -> nat := gem.nid.

(** The handles of the constants [gem.Zero()] and [gem.one]. *)
Definition Zero_handle : nat := 100.
Definition one_handle : nat := 101.
Definition gem_Zero : gem.node := gem.Zero Zero_handle [].

(** A plain sum, standing for pymbolic's [+]. *)
Definition plain_add (a b : p.expr) : p.expr := p.Sum [a; b].

Definition sample_i : gem.Index :=
  {| gem.iid := 7; gem.index_name := None; gem.extent := Some 3 |}.
Definition sample_j : gem.Index :=
  {| gem.iid := 8; gem.index_name := None; gem.extent := Some 4 |}.

Definition sample_A : gem.node := gem.Variable_ 1 "A" [4; 4].
Definition sample_b : gem.node := gem.Variable_ 2 "b" [4].
(** A second instance of the variable [A], equal to the first in structure. *)
Definition sample_A' : gem.node := gem.Variable_ 3 "A" [4; 4].
Definition sample_y : gem.node := gem.Variable_ 4 "y" [3].

(** [Solve(A, b, matfree=True)] with shape (4,), evaluated into a temporary. *)
Definition sample_solve : gem.node := gem.Solve 5 [4] [sample_A; sample_b] true.
Definition sample_solve_c : ImperoC :=
  {| tree := imp.Evaluate sample_solve; temporaries := [sample_solve];
     impero_indices := [(sample_solve, [])] |}.

(** [For(i, Return(y[i], b[i] + b[i]))], without any solve. *)
Definition sample_sum_c : ImperoC :=
  {| tree :=
       imp.For sample_i
         (imp.Return (gem.Indexed 10 sample_y [gem.an_Index sample_i])
            (gem.Sum 11 (gem.Indexed 12 sample_b [gem.an_Index sample_i])
                        (gem.Indexed 13 sample_b [gem.an_Index sample_i])));
     temporaries := []; impero_indices := [] |}.

(** A loop whose body reaches a [Failure] node. *)
Definition sample_failing_tree : imp.tree :=
  imp.For sample_i (imp.Return sample_y (gem.Failure 14 [] "degenerate")).

Definition sample_world : World :=
  {| ctx := LoopyContext_init; matfree_solve_knl := None |}.

(** A context in which [i] and [j] are active, with resolution 1e-3. *)
Definition sample_ctx (scalar_type : dtype) : LoopyContext :=
  {| indices := ∅; active_indices := {[ 7 := "i"; 8 := "j" ]};
     index_extent := [("i", 3); ("j", 4)];
     gem_to_pymbolic := ∅; name_gen := {[ "i"; "j" ]}; index_names := ∅;
     epsilon := 0.001%float; scalar_type := scalar_type;
     return_increments := true |}.

Definition scalar_literal (nid : nat) (v : float) : gem.node :=
  gem.Literal nid {| gem.array_dtype := float64; gem.array_shape := [];
                     gem.array_flat := [v] |}.

(** The subscript [2 + 4*i + j + ...] of a flattened array. *)
Definition sample_dim2idxs : list (Z * list (gem.index * Z)) :=
  [ (2%Z, [(gem.an_Index sample_i, 4%Z); (gem.an_Index sample_j, 1%Z)]) ].

Definition sample_env (v : string) : Z :=
  if bool_decide (v = "i") then 2%Z else if bool_decide (v = "j") then 3%Z else 0%Z.



(** ** Relations between the states before and after a computation *)

(** Every run of [m], returning or raising, relates the state it starts in to
    the state it leaves. *)
Definition maintains {S A} (R : S -> S -> Prop) (m : M S A) : Prop :=
  forall s r s', m s = (r, s') -> R s s'.

(** A relation on contexts, read on the contexts of two worlds. *)
Definition on_ctx (R : LoopyContext -> LoopyContext -> Prop) (w w' : World) : Prop :=
  R (ctx w) (ctx w').

(** The inputs of the compilation are as they were. *)
Definition same_config (c c' : LoopyContext) : Prop :=
  indices c' = indices c /\ index_names c' = index_names c /\
  epsilon c' = epsilon c /\ scalar_type c' = scalar_type c /\
  return_increments c' = return_increments c.

(** The inputs of the compilation are as they were, but for the index
    names: that dictionary gained the keys that were looked up without
    being there, each with the default name, so that every lookup gives the
    name it gave before. *)
Definition same_inputs (c c' : LoopyContext) : Prop :=
  indices c' = indices c /\ epsilon c' = epsilon c /\
  scalar_type c' = scalar_type c /\ return_increments c' = return_increments c /\
  index_names c ⊆ index_names c' /\
  forall key, default "i" (index_names c' !! key) = default "i" (index_names c !! key).

(** No index scope was opened or closed and no domain declared. *)
Definition same_scope (c c' : LoopyContext) : Prop :=
  same_config c c' /\
  active_indices c' = active_indices c /\ index_extent c' = index_extent c.

(** Names recorded for nodes and names issued are still there. *)
Definition names_grow (c c' : LoopyContext) : Prop :=
  gem_to_pymbolic c ⊆ gem_to_pymbolic c' /\ name_gen c ⊆ name_gen c'.

(** The names with a declared extent are still declared, and none is declared
    twice unless one was before. *)
Definition domains_grow (c c' : LoopyContext) : Prop :=
  (index_extent c).*1 ⊆ (index_extent c').*1 /\
  (NoDup (index_extent c).*1 -> NoDup (index_extent c').*1).

(** The kernel [generate] assembled, be it wrapped in a program or not. *)
Fixpoint root_kernel (prg : lp.program) : lp.kernel :=
  match prg with
  | lp.make_program knl => knl
  | lp.register_callable_kernel prg _
  | lp._match_caller_callee_argument_dimension_ prg _
  | lp.inline_callable_kernel prg _ => root_kernel prg
  end.

Definition primary_kernel (res : generated) : lp.kernel :=
  match res with
  | a_kernel knl => knl
  | a_program prg => root_kernel prg
  end.

(** The priority of an instruction that has one. *)
Definition priority_of (insn : lp.instruction) : option nat :=
  match insn with
  | lp.Assignment _ _ _ prio | lp.CallInstruction _ _ _ prio => Some prio
  | _ => None
  end.

(** Lookup in an ordered dictionary. *)
Definition od_get {V} (k : string) (d : list (string * V)) : option V :=
  snd <$> List.find (fun kv => bool_decide (kv.1 = k)) d.

(** ** Results and states of the runs that return *)

(** Every result [m] returns satisfies [good]. *)
Definition returns {S A} (good : A -> Prop) (m : M S A) : Prop :=
  forall s a s', m s = (Ok a, s') -> good a.

(** From a state in [P], every run of [m] that returns ends with a result and
    a state in [Q]. *)
Definition hoare {S A} (P : S -> Prop) (m : M S A) (Q : A -> S -> Prop) : Prop :=
  forall s a s', P s -> m s = (Ok a, s') -> Q a s'.

(** The inames [active_inames] returns for a mapping of active indices. *)
Definition inames_of (m : gmap nat string) : gset string :=
  list_to_set (map_to_list m).*2.

(** The inames an instruction is nested in. *)
Definition within_inames_of (insn : lp.instruction) : gset string :=
  match insn with
  | lp.Assignment _ _ inames _ | lp.CallInstruction _ _ inames _ => inames
  | _ => ∅
  end.

(** The active indices are as they were. *)
Definition same_active (c c' : LoopyContext) : Prop :=
  active_indices c' = active_indices c.

(** No loop and no component tensor of the tree binds an index that is
    active where it is lowered, [active] being the indices active around the
    tree. *)
Fixpoint scopes_fresh (active : gset nat) (tree : imp.tree) : Prop :=
  match tree with
  | imp.Block children =>
      (fix all (l : list imp.tree) : Prop :=
         match l with
         | [] => True
         | child :: l' => scopes_fresh active child /\ all l'
         end) children
  | imp.For index body =>
      (gem.iid index ∉ active) /\ scopes_fresh ({[ gem.iid index ]} ∪ active) body
  | imp.Evaluate (gem.ComponentTensor _ _ _ multiindex) =>
      Forall (fun index => gem.iid index ∉ active) multiindex
  | _ => True
  end.

(** An instruction as [statement] builds it: an assignment or a call, with
    the priority loopy gives by default. *)
Definition unprioritised (insn : lp.instruction) : Prop := priority_of insn = Some 0.

(** The active indices are the mapping [m0]. *)
Definition active_is (m0 : gmap nat string) (c : LoopyContext) : Prop :=
  active_indices c = m0.

(** An instruction nested in the inames of all the indices of [m0]. *)
Definition tagged (m0 : gmap nat string) (insn : lp.instruction) : Prop :=
  inames_of m0 ⊆ within_inames_of insn.

(** What a statement lowered under the active indices [m0] leaves when it
    returns: the same active indices, and instructions nested in their
    inames. *)
Definition scoped (m0 : gmap nat string) (insns : list lp.instruction)
    (c : LoopyContext) : Prop :=
  active_is m0 c /\ Forall (tagged m0) insns.

(** The pending kernel is as it was, or it is the kernel of a matrix-free
    solve. *)
Definition pending_kept_or_built (w w' : World) : Prop :=
  matfree_solve_knl w' = matfree_solve_knl w \/
  exists shape aux,
    matfree_cg_kernel_for shape = Some aux /\ matfree_solve_knl w' = Some aux.

(** ** Further sample inputs *)

Definition sample_k : gem.Index :=
  {| gem.iid := 9; gem.index_name := None; gem.extent := Some 2 |}.

(** [b[i] + b[i]] under the active index [i]. *)
Definition sample_sum : gem.node :=
  gem.Sum 11 (gem.Indexed 12 sample_b [gem.an_Index sample_i])
             (gem.Indexed 13 sample_b [gem.an_Index sample_i]).

(** A loop over [k] lowered inside the loops over [i] and [j]. *)
Definition sample_inner_body : imp.tree :=
  imp.Return (gem.Indexed 15 sample_y [gem.an_Index sample_k])
             (gem.Indexed 16 sample_b [gem.an_Index sample_i]).
Definition sample_inner_tree : imp.tree := imp.For sample_k sample_inner_body.

Definition sample_inner_world : World :=
  {| ctx := sample_ctx float64; matfree_solve_knl := None |}.

(** A matrix-free solve followed by a statement that fails. *)
Definition sample_failing_c : ImperoC :=
  {| tree := imp.Block [imp.Evaluate sample_solve; sample_failing_tree];
     temporaries := [sample_solve];
     impero_indices := [(sample_solve, [])] |}.

(** A kernel left pending by an earlier compilation. *)
Definition sample_stale_kernel : lp.kernel :=
  {| lp.name := "matfree_cg_kernel"; lp.domains := [ [] ]; lp.instructions := [];
     lp.kernel_data := []; lp.loop_priority := None |}.

(** Two temporaries: the solve, declared without free indices, and a
    constant. *)
Definition sample_temporaries : list (gem.node * option dtype) :=
  [ (sample_solve, Some float64); (scalar_literal 30 1%float, Some float64) ].

Definition sample_temporaries_ctx : LoopyContext :=
  {| indices := {[ 5 := [] ]}; active_indices := ∅; index_extent := [];
     gem_to_pymbolic := ∅; name_gen := ∅; index_names := ∅;
     epsilon := 0.001%float; scalar_type := float64; return_increments := true |}.

(** A context in which the node 14 is the temporary [t0], declared with the
    free index [i]. *)
Definition sample_recorded_ctx : LoopyContext :=
  {| indices := {[ 14 := [gem.an_Index sample_i] ]};
     active_indices := {[ 7 := "i" ]}; index_extent := [("i", 3)];
     gem_to_pymbolic := {[ 14 := "t0" ]}; name_gen := {[ "i"; "t0" ]};
     index_names := ∅; epsilon := 0.001%float; scalar_type := float64;
     return_increments := true |}.

(** A world in which the node 40 is recorded as the temporary [t0]. *)
Definition sample_listtensor_world : World :=
  {| ctx :=
       {| indices := ∅; active_indices := ∅; index_extent := [];
          gem_to_pymbolic := {[ 40 := "t0" ]}; name_gen := {[ "t0" ]};
          index_names := ∅; epsilon := 0.001%float; scalar_type := float64;
          return_increments := true |};
     matfree_solve_knl := None |}.

(** ** The pieces of [generate] *)

(** The context [generate] builds and the module variable it runs on. *)
Definition initial_world (impero_c : ImperoC) (scalar_type : dtype)
    (epsilon : float) (index_names : list ((nat + nat) * string))
    (return_increments : bool) (pending : option lp.kernel) : World :=
  {| ctx :=
       {| indices := dict_by_key (impero_indices impero_c);
          active_indices := ∅; index_extent := [];
          gem_to_pymbolic := ∅; name_gen := ∅;
          index_names := foldl (fun m kv => <[ kv.1 := kv.2 ]> m) ∅ index_names;
          epsilon := epsilon; scalar_type := scalar_type;
          return_increments := return_increments |};
     matfree_solve_knl := pending |}.

(** The kernel [generate] assembles from the data and the instructions of
    the lowered tree and from the world the lowering leaves. *)
Definition assembled_kernel (kernel_name : string) (data : list lp.decl)
    (insns : list lp.instruction) (w : World) : lp.kernel :=
  {| lp.name := kernel_name;
     lp.domains := create_domains (index_extent (ctx w));
     lp.instructions := assign_priorities (length insns) 0 insns;
     lp.kernel_data := data;
     lp.loop_priority := Some (join "," (index_extent (ctx w)).*1) |}.

(** The program [generate] returns when a kernel is pending. *)
Definition inlined (knl aux : lp.kernel) : lp.program :=
  lp.inline_callable_kernel
    (lp._match_caller_callee_argument_dimension_
       (lp.register_callable_kernel (lp.make_program knl) aux) (lp.name aux))
    (lp.name aux).

(** Two matrix-free solves of the shapes (4,) and (5,) in one tree. *)
Definition sample_A5 : gem.node := gem.Variable_ 50 "A5" [5; 5].
Definition sample_b5 : gem.node := gem.Variable_ 51 "b5" [5].
Definition sample_solve5 : gem.node := gem.Solve 52 [5] [sample_A5; sample_b5] true.
Definition sample_two_solves_c : ImperoC :=
  {| tree := imp.Block [imp.Evaluate sample_solve; imp.Evaluate sample_solve5];
     temporaries := [sample_solve; sample_solve5];
     impero_indices := [(sample_solve, []); (sample_solve5, [])] |}.

(** * Properties *)

(** ** The dtype inferencer *)

(** C8: the dtype set of a [Conditional] is the union of the dtype sets of its
    two branches, [children[1:]]; the condition is not visited and contributes
    nothing, whatever it is. *)
Theorem conditional_dtype_excludes_condition
    (scalar_type real_type : dtype) (nid : nat) (c t e : gem.node)
    (st se : gset dtype) :
  _assign_dtype scalar_type real_type t = Ok st ->
  _assign_dtype scalar_type real_type e = Ok se ->
  drop 1 (gem.children (gem.Conditional nid c t e)) = [t; e] /\
  _assign_dtype scalar_type real_type (gem.Conditional nid c t e) = Ok (st ∪ se).
Proof.
  intros Ht He. split; [reflexivity|].
  cbn [_assign_dtype]. rewrite Ht, He. reflexivity.
Qed.

(** ** The auxiliary kernel *)

(** C9: whatever the context (and so the declared scalar type) and the
    operands, [loopy_matfree_solve] succeeds on a non-empty shape and leaves
    pending a kernel named [matfree_cg_kernel] whose declared arguments and
    temporaries are A, b, x, output, A_on_x, A_on_p and p, all of dtype
    float64; the kernel is determined by the shape alone: A is [n] by [n] for
    [n = shape[0]], the other arrays have the shape itself, and the inames
    range below [n]. *)
Theorem matfree_cg_kernel_fixed_name_float64
    (lhs reads : list p.expr) (n : nat) (rest : list nat) (w : World) :
  exists knl,
    loopy_matfree_solve lhs reads (n :: rest) w
      = (Ok tt, {| ctx := ctx w; matfree_solve_knl := Some knl |}) /\
    matfree_cg_kernel_for (n :: rest) = Some knl /\
    lp.name knl = "matfree_cg_kernel" /\
    lp.decl_name <$> lp.kernel_data knl
      = ["A"; "b"; "x"; "output"; "A_on_x"; "A_on_p"; "p"] /\
    Forall (fun d => lp.decl_dtype d = Some float64) (lp.kernel_data knl) /\
    (let shape := Some <$> n :: rest in
     lp.decl_shape <$> lp.kernel_data knl
       = [[Some n; Some n]; shape; shape; shape; shape; shape; shape]) /\
    lp.iname_values knl "i_0" = seq 0 n.
Proof.
  eexists. split; [reflexivity|]. split; [reflexivity|].
  split; [reflexivity|]. split; [reflexivity|].
  split_and!.
  - cbn. unfold matfree_cg_data. by repeat constructor.
  - reflexivity.
  - change (seq 0 (1 * n) = seq 0 n). by rewrite Nat.mul_1_l.
Qed.

(** ** Scalar constants *)

Lemma _expression_scalar_eq (expr : gem.node) (v : float) (c : LoopyContext) :
  gem.shape expr = [] -> value expr = Ok v ->
  _expression_scalar expr c =
    (Ok (if PrimFloat.is_nan v then p.Variable_ "NAN"
         else if float_truth (numpy_round1 v)
                 && PrimFloat.ltb (PrimFloat.abs (v - numpy_round1 v)) (epsilon c)
              then p.FloatLit (numpy_round1 v)
              else p.FloatLit v), c).
Proof.
  intros Hs Hv. unfold _expression_scalar. rewrite Hs.
  unfold bind, lift_result. rewrite Hv.
  destruct (PrimFloat.is_nan v); [reflexivity|].
  unfold get, ret.
  destruct (float_truth _ && _); reflexivity.
Qed.

(** C4, amended: a NaN is emitted as the variable [NAN]; a value whose
    one-decimal rounding is not zero and lies within the resolution of the
    value is emitted as that rounding; every other value is emitted verbatim.
    With resolution 1e-3, 0.29999999 is emitted as 0.3 and 0.24 verbatim. *)
Theorem scalar_constant_snaps_to_nonzero_rounding
    (expr : gem.node) (v : float) (c : LoopyContext) :
  gem.shape expr = [] -> value expr = Ok v ->
  let r := numpy_round1 v in
  let near := PrimFloat.ltb (PrimFloat.abs (v - r)) (epsilon c) in
  (PrimFloat.is_nan v = true ->
     _expression_scalar expr c = (Ok (p.Variable_ "NAN"), c)) /\
  (PrimFloat.is_nan v = false -> float_truth r = true -> near = true ->
     _expression_scalar expr c = (Ok (p.FloatLit r), c)) /\
  (PrimFloat.is_nan v = false -> float_truth r = false \/ near = false ->
     _expression_scalar expr c = (Ok (p.FloatLit v), c)) /\
  (epsilon c = 0.001%float ->
     (v = 0.29999999%float ->
        _expression_scalar expr c = (Ok (p.FloatLit 0.3%float), c)) /\
     (v = 0.24%float ->
        _expression_scalar expr c = (Ok (p.FloatLit 0.24%float), c))).
Proof.
  intros Hs Hv r near.
  pose proof (_expression_scalar_eq expr v c Hs Hv) as E.
  fold r in E. fold near in E.
  repeat split.
  - intros Hn. rewrite E, Hn. reflexivity.
  - intros Hn Hr Hnear. rewrite E, Hn, Hr, Hnear. reflexivity.
  - intros Hn [Hr | Hnear]; rewrite E, Hn.
    + rewrite Hr. reflexivity.
    + rewrite Hnear, andb_false_r. reflexivity.
  - intros ->. rewrite E. subst near r. rewrite H. reflexivity.
  - intros ->. rewrite E. subst near r. rewrite H. reflexivity.
Qed.

(** C10: a constant that is not NaN and whose one-decimal rounding is zero
    is emitted verbatim, however close to zero it is. *)
Theorem scalar_constant_rounding_to_zero_is_verbatim
    (expr : gem.node) (v : float) (c : LoopyContext) :
  gem.shape expr = [] -> value expr = Ok v ->
  PrimFloat.is_nan v = false ->
  PrimFloat.eqb (numpy_round1 v) 0 = true ->
  _expression_scalar expr c = (Ok (p.FloatLit v), c).
Proof.
  intros Hs Hv Hn Hz.
  rewrite (_expression_scalar_eq expr v c Hs Hv), Hn.
  unfold float_truth. rewrite Hz. reflexivity.
Qed.

(** ** Bessel functions *)

(** C6, amended: lowering a [cyl_bessel_] function raises the
    unsupported-operation error exactly when the declared scalar type is
    complex, for the ordinary functions j and y as for the modified ones.
    Under a real scalar type, once the two operands are lowered, i and k
    become calls of [boost::math::cyl_bessel_i/k], and j and y become the
    order-0 or order-1 function when the order compares equal to
    [gem.Zero()] or [gem.one], and the order-n function otherwise. *)
Theorem bessel_unsupported_iff_complex
    (rec : gem.node -> M LoopyContext p.expr) (name : string)
    (nu arg : gem.node) (c : LoopyContext) :
  String.prefix "cyl_bessel_" name = true ->
  (is_complex (scalar_type c) = true ->
     forall children,
       _expression_mathfunction rec name children c =
         (Raise (NotImplementedError
            "Bessel functions for complex numbers: missing implementation"), c)) /\
  (is_complex (scalar_type c) = false ->
     forall nu_ arg_ c1 c2,
       rec nu c = (Ok nu_, c1) -> rec arg c1 = (Ok arg_, c2) ->
       _expression_mathfunction rec name [nu; arg] c =
         (Ok (if bool_decide (name ∈ ["cyl_bessel_i"; "cyl_bessel_k"])
              then p.Call (p.Variable_ ("boost::math::" +:+ name)) [nu_; arg_]
              else if bool_decide (node_key nu = key_Zero)
              then p.Call (p.Variable_ (last_char name +:+ "0")) [arg_]
              else if bool_decide (node_key nu = key_one)
              then p.Call (p.Variable_ (last_char name +:+ "1")) [arg_]
              else p.Call (p.Variable_ (last_char name +:+ "n")) [nu_; arg_]),
          c2)).
Proof.
  intros Hp. split.
  - intros Hc children. unfold _expression_mathfunction. rewrite Hp.
    unfold bind, get. rewrite Hc. reflexivity.
  - intros Hc nu_ arg_ c1 c2 Hnu Harg.
    unfold _expression_mathfunction. rewrite Hp.
    unfold bind, get. rewrite Hc, Hnu, Harg.
    repeat case_bool_decide; reflexivity.
Qed.

(** ** Scoped activation of indices *)

Lemma pop_keys_ok (keys : list nat) (c c' : LoopyContext) :
  pop_keys keys c = (Ok tt, c') ->
  c' = set_active_indices (fun m => foldl (fun m k => delete k m) m keys) c.
Proof.
  revert c. induction keys as [|k keys IH]; intros c H.
  - injection H as <-. by destruct c.
  - cbn in H. unfold bind, get in H.
    destruct (active_indices c !! k); [|discriminate].
    cbn in H. apply IH in H. subst c'. by destruct c.
Qed.

Lemma lookup_foldl_delete (keys : list nat) (m : gmap nat string) (k : nat) :
  k ∈ keys -> foldl (fun m k => delete k m) m keys !! k = None.
Proof.
  revert m. induction keys as [|k' keys IH]; intros m Hin.
  - by apply elem_of_nil in Hin.
  - cbn. destruct (decide (k ∈ keys)) as [Hk|Hk]; [by apply IH|].
    apply elem_of_cons in Hin as [->|Hin]; [|done].
    clear IH Hk. generalize (lookup_delete_eq m k').
    generalize (delete k' m). induction keys as [|j keys IH]; intros m' Hm'; [done|].
    cbn. apply IH. rewrite lookup_delete. by case_decide.
Qed.

(** C2, amended: when the body returns, the construct pops every key of the
    mapping from the active indices the body left, so none of the pushed
    bindings is active afterwards; when the body raises, the exception
    propagates with the state exactly as the body left it, and nothing is
    popped. *)
Theorem active_indices_popped_on_normal_exit
    {A : Type} (mapping : list (nat * string)) (body : M World A) (w : World) :
  (forall a w', with_active_indices mapping body w = (Ok a, w') ->
     exists w1, body (activated mapping w) = (Ok a, w1) /\
       active_indices (ctx w')
         = foldl (fun m k => delete k m) (active_indices (ctx w1)) mapping.*1 /\
       forall k, k ∈ mapping.*1 -> active_indices (ctx w') !! k = None) /\
  (forall e w1, body (activated mapping w) = (Raise e, w1) ->
     with_active_indices mapping body w = (Raise e, w1)).
Proof.
  split.
  - intros a w' H. unfold with_active_indices in H.
    change ((in_ctx (modify (set_active_indices (update_mapping mapping))) ;;; body) w)
      with (body (activated mapping w)) in H.
    destruct (body (activated mapping w)) as [[a1|e] w1] eqn:Hb; [|discriminate].
    unfold in_ctx in H.
    destruct (pop_keys mapping.*1 (ctx w1)) as [[[]|e] c'] eqn:Hp; [|discriminate].
    injection H as <- <-. apply pop_keys_ok in Hp. subst c'.
    exists w1. split; [done|]. split; [done|].
    intros k Hk. cbn. by apply lookup_foldl_delete.
  - intros e w1 Hb. unfold with_active_indices.
    change ((in_ctx (modify (set_active_indices (update_mapping mapping))) ;;; body) w)
      with (body (activated mapping w)).
    by rewrite Hb.
Qed.

(** ** Memoised names *)

Lemma generate_unique_names_0_S (prefix : string) (k : nat) :
  generate_unique_names prefix 0 <> generate_unique_names prefix (S k).
Proof.
  cbn. generalize (pretty k). intros s.
  induction prefix as [|a prefix IH]; cbn; [discriminate|].
  intros H. injection H as H. by apply IH.
Qed.

#[local] Instance generate_unique_names_inj (prefix : string) :
  Inj (=) (=) (generate_unique_names prefix).
Proof.
  intros [|a] [|b] H; [done| | |].
  - by apply generate_unique_names_0_S in H.
  - symmetry in H. by apply generate_unique_names_0_S in H.
  - cbn in H. apply (inj (String.app prefix)) in H.
    apply (inj (String.app "_")) in H. f_equal. by apply (inj pretty).
Qed.

Lemma first_free_spec (g : gset string) (prefix : string) (fuel k : nat) :
  exists j, k <= j <= k + fuel /\
    first_free g prefix k fuel = generate_unique_names prefix j /\
    (forall i, k <= i < j -> generate_unique_names prefix i ∈ g) /\
    (j < k + fuel -> generate_unique_names prefix j ∉ g).
Proof.
  revert k. induction fuel as [|fuel IH]; intros k.
  - exists k. cbn. split_and!; try done; lia.
  - cbn. case_bool_decide as Hin.
    + destruct (IH (S k)) as (j & Hj & Heq & Hall & Hfree).
      exists j. split_and!; try done; try lia.
      * intros i Hi. destruct (decide (i = k)) as [->|]; [done|]. apply Hall. lia.
      * intros Hlt. apply Hfree. lia.
    + exists k. split_and!; try done; lia.
Qed.

(** The generated name is new. *)
Lemma unique_name_fresh (g : gset string) (based_on : string) :
  (unique_name g based_on).1 ∉ g.
Proof.
  cbn. destruct (first_free_spec g based_on (size g) 0) as (j & Hj & -> & Hall & Hfree).
  destruct (decide (j < size g)) as [Hlt|Hge]; [by apply Hfree|].
  assert (j = size g) as -> by lia. clear Hj Hfree Hge.
  intros Hin.
  assert (list_to_set (generate_unique_names based_on <$> seq 0 (S (size g))) ⊆ g) as Hsub.
  { intros x Hx. apply elem_of_list_to_set, list_elem_of_fmap in Hx as (i & -> & Hi).
    apply elem_of_seq in Hi. destruct (decide (i = size g)) as [->|]; [done|].
    apply Hall. lia. }
  apply subseteq_size in Hsub. rewrite size_list_to_set in Hsub.
  - rewrite length_fmap, length_seq in Hsub. lia.
  - apply NoDup_fmap_2; [apply _|apply NoDup_seq].
Qed.

Lemma _gem_to_pym_var_hit (node : gem.node) (c : LoopyContext) (v : string) :
  gem_to_pymbolic c !! node_key node = Some v ->
  _gem_to_pym_var node c = (Ok (p.Variable_ v), c).
Proof. intros H. unfold _gem_to_pym_var, bind, get. by rewrite H. Qed.

(** A lookup returns a variable, records it under the key of the node and
    keeps the names recorded before. *)
Lemma _gem_to_pym_var_inv (node : gem.node) (c c' : LoopyContext) (pym : p.expr) :
  _gem_to_pym_var node c = (Ok pym, c') ->
  exists v, pym = p.Variable_ v /\
    gem_to_pymbolic c' !! node_key node = Some v /\
    (forall k u, gem_to_pymbolic c !! k = Some u -> gem_to_pymbolic c' !! k = Some u).
Proof.
  intros H. unfold _gem_to_pym_var, bind, get in H.
  destruct (gem_to_pymbolic c !! node_key node) as [v|] eqn:Hl.
  - injection H as <- <-. by exists v.
  - destruct (gem.name node) as [based_on|]; [|discriminate].
    unfold name_gen_call in H.
    destruct (unique_name (name_gen c) based_on) as [v g].
    cbn in H. injection H as <- <-. exists v. cbn.
    split; [done|]. split; [by rewrite lookup_insert_eq|].
    intros k u Hk. rewrite lookup_insert_ne; [done|congruence].
Qed.

(** A lookup keeps the names reserved. *)
Lemma _gem_to_pym_var_reserved (node : gem.node) (c c' : LoopyContext) (pym : p.expr) :
  names_reserved c ->
  _gem_to_pym_var node c = (Ok pym, c') ->
  names_reserved c'.
Proof.
  intros [Hres Hinj] H. unfold _gem_to_pym_var, bind, get in H.
  destruct (gem_to_pymbolic c !! node_key node) as [v|] eqn:Hl.
  - by injection H as <- <-.
  - destruct (gem.name node) as [based_on|]; [|discriminate].
    unfold name_gen_call in H.
    pose proof (unique_name_fresh (name_gen c) based_on) as Hfresh.
    destruct (unique_name (name_gen c) based_on) as [v g] eqn:Hu.
    assert (g = {[ v ]} ∪ name_gen c) as Hg.
    { unfold unique_name in Hu. by injection Hu as <- <-. }
    cbn in H, Hfresh. injection H as <- <-. split.
    + intros k u Hk. cbn in Hk |- *. rewrite lookup_insert in Hk. case_decide.
      * injection Hk as <-. set_solver.
      * apply Hres in Hk. set_solver.
    + intros k1 k2 u H1 H2. cbn in H1, H2. rewrite lookup_insert in H1, H2.
      destruct (decide (node_key node = k1)) as [E1|E1],
               (decide (node_key node = k2)) as [E2|E2].
      * congruence.
      * injection H1 as <-. by apply Hres in H2.
      * injection H2 as <-. by apply Hres in H1.
      * by eapply Hinj.
Qed.

(** The name given to a node that had none is new to the name generator, and
    known to it afterwards. *)
Lemma _gem_to_pym_var_miss (node : gem.node) (c c' : LoopyContext) (pym : p.expr) :
  gem_to_pymbolic c !! node_key node = None ->
  _gem_to_pym_var node c = (Ok pym, c') ->
  exists v, pym = p.Variable_ v /\ (v ∉ name_gen c) /\ (v ∈ name_gen c').
Proof.
  intros Hl H. unfold _gem_to_pym_var, bind, get in H. rewrite Hl in H.
  destruct (gem.name node) as [based_on|]; [|discriminate].
  unfold name_gen_call in H.
  pose proof (unique_name_fresh (name_gen c) based_on) as Hfresh.
  destruct (unique_name (name_gen c) based_on) as [v g] eqn:Hu.
  assert (g = {[ v ]} ∪ name_gen c) as Hg.
  { unfold unique_name in Hu. by injection Hu as <- <-. }
  cbn in H, Hfresh. injection H as <- <-. exists v. cbn.
  split_and!; [done..|]. set_solver.
Qed.

(** Looking a node up again returns the name of the first lookup, also after
    other nodes were looked up.  Two nodes with the same key share their
    name; two nodes that had no name yet receive different names; and in a
    context whose names are reserved, any two nodes with different keys have
    different names. *)
Lemma names_by_key
    (x y : gem.node) (c c1 c2 : LoopyContext) (nx ny : p.expr) :
  _gem_to_pym_var x c = (Ok nx, c1) ->
  _gem_to_pym_var y c1 = (Ok ny, c2) ->
  _gem_to_pym_var x c1 = (Ok nx, c1) /\
  _gem_to_pym_var x c2 = (Ok nx, c2) /\
  (node_key x = node_key y -> nx = ny) /\
  (gem_to_pymbolic c !! node_key x = None ->
   gem_to_pymbolic c1 !! node_key y = None -> nx <> ny) /\
  (names_reserved c -> node_key x <> node_key y -> nx <> ny).
Proof.
  intros Hx Hy.
  destruct (_gem_to_pym_var_inv x c c1 nx Hx) as (vx & -> & Hlx & _).
  destruct (_gem_to_pym_var_inv y c1 c2 ny Hy) as (vy & -> & Hly & Hmono).
  split; [by apply _gem_to_pym_var_hit|].
  split; [by apply _gem_to_pym_var_hit, Hmono|]. split_and!.
  - intros Heq. rewrite Heq in Hlx. apply Hmono in Hlx. congruence.
  - intros Hmx Hmy Heq.
    destruct (_gem_to_pym_var_miss x c c1 _ Hmx Hx) as (v1 & [= <-] & _ & Hin).
    destruct (_gem_to_pym_var_miss y c1 c2 _ Hmy Hy) as (v2 & [= <-] & Hnotin & _).
    injection Heq as <-. done.
  - intros Hc Hne Heq. injection Heq as <-. apply Hne.
    pose proof (_gem_to_pym_var_reserved x c c1 _ Hc Hx) as Hc1.
    destruct (_gem_to_pym_var_reserved y c1 c2 _ Hc1 Hy) as [_ Hinj].
    eapply Hinj; [by apply Hmono|done].
Qed.

Lemma names_reserved_init : names_reserved LoopyContext_init.
Proof. split; intros *; cbn; by rewrite lookup_empty. Qed.

(** ** Flexible indexing *)

(** The affine expression denotes the affine value. *)
Lemma eval_affine_expression (active : gmap nat string) (env : string -> Z)
    (off : Z) (idxs : list (gem.index * Z)) :
  eval_index env (affine_expression active off idxs)
    = Some (affine_value (index_value active env) off idxs).
Proof.
  unfold affine_expression, affine_value.
  enough (eval_index env
            (p.Sum ((fun pair => p.Product [p.Variable_ (index_variable active pair.1);
                                            p.IntLit pair.2]) <$> idxs))
          = Some (foldr (fun '(index, stride) acc =>
                           index_value active env index * stride + acc)%Z 0%Z idxs)) as H.
  { cbn in H |- *. apply fmap_Some in H as (vs & -> & ->). reflexivity. }
  induction idxs as [|[index stride] idxs IH]; [reflexivity|].
  cbn in IH |- *. apply fmap_Some in IH as (vs & -> & ->).
  cbn. unfold index_value. by rewrite Z.mul_1_r.
Qed.

Lemma flexible_products_ok (idxs : list (gem.index * Z)) (c c' : LoopyContext)
    (products : list p.expr) :
  mapM flexible_product idxs c = (Ok products, c') ->
  c' = c /\ Forall (bound_Index (active_indices c)) idxs.*1 /\
  products = (fun pair => p.Product [p.Variable_ (index_variable (active_indices c) pair.1);
                                     p.IntLit pair.2]) <$> idxs.
Proof.
  revert products. induction idxs as [|[index stride] idxs IH]; intros products H.
  - injection H as <- <-. split_and!; [done|constructor|done].
  - cbn [mapM] in H. unfold bind at 1 in H. unfold flexible_product at 1 in H.
    cbn [fst snd] in H.
    destruct index as [i|e|z]; try discriminate.
    unfold bind at 1 in H. cbn [get] in H.
    destruct (active_indices c !! gem.iid i) as [v|] eqn:Hv; [|discriminate].
    cbn [ret] in H. unfold bind at 1 in H.
    destruct (mapM _ idxs c) as [[ps|e] c1] eqn:Hm; [|discriminate].
    injection H as <- <-.
    destruct (IH ps eq_refl) as (-> & Hall & ->). split_and!; [done| |].
    + constructor; [|done]. exists i. by rewrite Hv.
    + cbn. by rewrite Hv.
Qed.

Lemma flexible_dimension_ok (off : Z) (idxs : list (gem.index * Z))
    (c c' : LoopyContext) (e : p.expr) :
  flexible_dimension off idxs c = (Ok e, c') ->
  c' = c /\ Forall (bound_Index (active_indices c)) idxs.*1 /\
  e = affine_expression (active_indices c) off idxs.
Proof.
  unfold flexible_dimension. destruct (forallb _ idxs); [|discriminate].
  unfold bind. intros H.
  destruct (mapM _ idxs c) as [[ps|x] c1] eqn:Hm; [|discriminate].
  injection H as <- <-. by apply flexible_products_ok in Hm as (-> & Hall & ->).
Qed.

Lemma flexible_dimension_total (off : Z) (idxs : list (gem.index * Z))
    (c : LoopyContext) :
  Forall (bound_Index (active_indices c)) idxs.*1 ->
  exists e, flexible_dimension off idxs c = (Ok e, c).
Proof.
  intros Hall. unfold flexible_dimension.
  assert (forallb (fun pair => is_Index pair.1) idxs = true) as ->.
  { apply forallb_forall. intros [index stride] Hin.
    rewrite Forall_forall in Hall. destruct (Hall index) as (i & -> & _); [|done].
    apply list_elem_of_In in Hin. apply list_elem_of_fmap. by exists (index, stride). }
  unfold bind.
  enough (exists ps, mapM flexible_product idxs c = (Ok ps, c)) as [ps ->] by eauto.
  induction idxs as [|[index stride] idxs IH]; [by exists []|].
  rewrite fmap_cons in Hall. cbn [fst] in Hall.
  apply Forall_cons in Hall as [(i & -> & [v Hv]) Hall].
  destruct (IH Hall) as [ps Hps]. exists (p.Product [p.Variable_ v; p.IntLit stride] :: ps).
  cbn [mapM]. unfold bind at 1. unfold flexible_product at 1. cbn [fst snd].
  unfold bind at 1. cbn [get]. rewrite Hv. cbn [ret].
  unfold bind. by rewrite Hps.
Qed.

Lemma flexible_rank_ok (dim2idxs : list (Z * list (gem.index * Z)))
    (c c' : LoopyContext) (rank : list p.expr) :
  mapM (fun '(off, idxs) => flexible_dimension off idxs) dim2idxs c = (Ok rank, c') ->
  c' = c /\
  rank = (fun '(off, idxs) => affine_expression (active_indices c) off idxs) <$> dim2idxs /\
  Forall (fun '(off, idxs) => Forall (bound_Index (active_indices c)) idxs.*1) dim2idxs.
Proof.
  revert rank. induction dim2idxs as [|[off idxs] dims IH]; intros rank H.
  - injection H as <- <-. by split_and!.
  - cbn [mapM] in H. unfold bind at 1 in H.
    destruct (flexible_dimension off idxs c) as [[e|x] c1] eqn:Hd; [|discriminate].
    apply flexible_dimension_ok in Hd as (-> & Hall & ->).
    unfold bind at 1 in H.
    destruct (mapM _ dims c) as [[es|x] c1] eqn:Hm; [|discriminate].
    injection H as <- <-. destruct (IH es eq_refl) as (-> & -> & Hdims).
    split_and!; [done|done|by constructor].
Qed.

Lemma flexible_rank_total (dim2idxs : list (Z * list (gem.index * Z)))
    (c : LoopyContext) :
  Forall (fun '(off, idxs) => Forall (bound_Index (active_indices c)) idxs.*1)
    dim2idxs ->
  exists rank,
    mapM (fun '(off, idxs) => flexible_dimension off idxs) dim2idxs c = (Ok rank, c).
Proof.
  induction dim2idxs as [|[off idxs] dims IH]; intros Hall; [by exists []|].
  apply Forall_cons in Hall as [Hd Hall].
  destruct (flexible_dimension_total off idxs c Hd) as [e He].
  destruct (IH Hall) as [es Hes]. exists (e :: es).
  cbn [mapM]. unfold bind at 1. rewrite He. unfold bind. by rewrite Hes.
Qed.

(** C7: when a [FlexiblyIndexed] node is lowered, the result subscripts the
    lowered base with, for each dimension, exactly the sum of the offset and
    of one product of index and stride per pair; every index is a fixed
    [Index] bound in the active indices, and for all values of the inames the
    expression of a dimension denotes the offset plus the sum of the index
    values times their strides.  A [VariableIndex] among the indices fails
    the assertion.  Lowering succeeds whenever the base lowers and all
    indices are bound fixed indices. *)
Theorem flexiblyindexed_subscript_is_affine
    (rec : gem.node -> M LoopyContext p.expr) (variable : gem.node)
    (dim2idxs : list (Z * list (gem.index * Z))) (c : LoopyContext) :
  (forall res c',
     _expression_flexiblyindexed rec variable dim2idxs c = (Ok res, c') ->
     exists var,
       rec variable c = (Ok var, c') /\
       res = p.Subscript var
               ((fun '(off, idxs) => affine_expression (active_indices c') off idxs)
                  <$> dim2idxs) /\
       forall off idxs, (off, idxs) ∈ dim2idxs ->
         Forall (bound_Index (active_indices c')) idxs.*1 /\
         forall env,
           eval_index env (affine_expression (active_indices c') off idxs)
             = Some (affine_value (index_value (active_indices c') env) off idxs)) /\
  (forall off idxs e stride c1,
     (gem.a_VariableIndex e, stride) ∈ idxs ->
     flexible_dimension off idxs c1
       = (Raise (AssertionError "isinstance(index, gem.Index)"), c1)) /\
  (forall var c1,
     rec variable c = (Ok var, c1) ->
     Forall (fun '(off, idxs) => Forall (bound_Index (active_indices c1)) idxs.*1)
       dim2idxs ->
     exists rank,
       _expression_flexiblyindexed rec variable dim2idxs c
         = (Ok (p.Subscript var rank), c1)).
Proof.
  split_and!.
  - intros res c' H. unfold _expression_flexiblyindexed in H. unfold bind at 1 in H.
    destruct (rec variable c) as [[var|x] c1] eqn:Hvar; [|discriminate].
    unfold bind at 1 in H.
    destruct (mapM _ dim2idxs c1) as [[rank|x] c2] eqn:Hm; [|discriminate].
    injection H as <- <-. apply flexible_rank_ok in Hm as (-> & -> & Hall).
    exists var. split_and!; [done..|].
    intros off idxs Hin. rewrite Forall_forall in Hall.
    split; [exact (Hall _ Hin)|]. intros env. apply eval_affine_expression.
  - intros off idxs e stride c1 Hin. unfold flexible_dimension.
    assert (forallb (fun pair => is_Index pair.1) idxs = false) as ->; [|done].
    apply not_true_iff_false. intros Hall. rewrite forallb_forall in Hall.
    apply list_elem_of_In, Hall in Hin. discriminate.
  - intros var c1 Hvar Hall. destruct (flexible_rank_total dim2idxs c1 Hall) as [rank Hr].
    exists rank. unfold _expression_flexiblyindexed, bind. by rewrite Hvar, Hr.
Qed.

(** ** The conjugate-gradient iteration *)


(** ** Runs of the instruction language *)

Section Runs.

Variable values : string -> list nat.
Variable callables : string -> option (list (list float) -> list float -> list float).
Variable matrices : gmap string (list (list float)).









(** ** The initial iterate *)






End Runs.

(** ** Runs that return *)

Section RunsReturn.

Variable n : nat.
Variable values : string -> list nat.
Variable callables : string -> option (list (list float) -> list float -> list float).
Variable matrices : gmap string (list (list float)).
Variable full : list string.
Variable known : list (string * string).

Hypothesis n_positive : 0 < n.
Hypothesis full_range : Forall (fun j => values j = seq 0 n) full.
Hypothesis known_callables :
  Forall (fun fA => exists f A,
            callables fA.1 = Some f /\ matrices !! fA.2 = Some A /\
            forall x, n <= length (f A x)) known.
















End RunsReturn.




(** ** Registration and inlining of the auxiliary kernel *)

Lemma tree_induction (P : imp.tree -> Prop) :
  (forall children, Forall P children -> P (imp.Block children)) ->
  (forall index body, P body -> P (imp.For index body)) ->
  (forall indexsum, P (imp.Initialise indexsum)) ->
  (forall indexsum, P (imp.Accumulate indexsum)) ->
  (forall variable expr, P (imp.Return variable expr)) ->
  (forall variable indexsum, P (imp.ReturnAccumulate variable indexsum)) ->
  (forall expr, P (imp.Evaluate expr)) ->
  P imp.Noop ->
  forall t, P t.
Proof.
  intros HB HF HI HA HR HRA HE HN. fix IH 1.
  intros [children|index body| | | | | |];
    [|apply HF, IH|apply HI|apply HA|apply HR|apply HRA|apply HE|apply HN].
  apply HB. induction children as [|c cs IHcs]; constructor; [apply IH|apply IHcs].
Qed.

Lemma keeps_pending_ret {A} (a : A) : keeps_pending (ret a).
Proof. intros w r w' H. by injection H as <- <-. Qed.

Lemma keeps_pending_raise {A} (e : exn) : keeps_pending (@raise World A e).
Proof. intros w r w' H. by injection H as <- <-. Qed.

Lemma keeps_pending_get : keeps_pending (@get World).
Proof. intros w r w' H. by injection H as <- <-. Qed.

Lemma keeps_pending_in_ctx {A} (m : M LoopyContext A) : keeps_pending (in_ctx m).
Proof.
  intros w r w' H. unfold in_ctx in H. destruct (m (ctx w)) as [r1 c1].
  by injection H as <- <-.
Qed.

Lemma keeps_pending_bind {A B} (m : M World A) (k : A -> M World B) :
  keeps_pending m -> (forall a, keeps_pending (k a)) -> keeps_pending (bind m k).
Proof.
  intros Hm Hk w r w' H. unfold bind in H.
  destruct (m w) as [[a|e] w1] eqn:E; apply Hm in E.
  - apply Hk in H. congruence.
  - injection H as <- <-. done.
Qed.

Lemma keeps_pending_with_active_indices {A} (mapping : list (nat * string))
    (body : M World A) :
  keeps_pending body -> keeps_pending (with_active_indices mapping body).
Proof.
  intros Hb w r w' H. unfold with_active_indices in H.
  change ((in_ctx (modify (set_active_indices (update_mapping mapping))) ;;; body) w)
    with (body (activated mapping w)) in H.
  destruct (body (activated mapping w)) as [[a|e] w1] eqn:E; apply Hb in E; cbn in E.
  - destruct (in_ctx (pop_keys mapping.*1) w1) as [[u|e] w2] eqn:E2;
      apply keeps_pending_in_ctx in E2; injection H as <- <-; congruence.
  - injection H as <- <-. done.
Qed.

Ltac keeps :=
  repeat first
    [ apply keeps_pending_ret | apply keeps_pending_raise | apply keeps_pending_get
    | apply keeps_pending_in_ctx
    | apply keeps_pending_with_active_indices
    | apply keeps_pending_bind; [|intros ?]
    | match goal with
      | |- keeps_pending (let '(_, _) := ?x in _) => destruct x
      | |- keeps_pending (match ?x with _ => _ end) => destruct x
      end ].

Lemma statement_evaluate_keeps (fuel : nat) (expr : gem.node) :
  is_matfree_solve expr = false -> keeps_pending (statement_evaluate fuel expr).
Proof.
  intros H. destruct expr; cbn in H; try subst matfree;
    unfold statement_evaluate; keeps.
Qed.

(** What lowering a matrix-free [Solve] returns and leaves pending. *)
Lemma statement_evaluate_matfree (fuel nid : nat) (shape : list nat)
    (children : list gem.node) (w w' : World) (insns : list lp.instruction) :
  statement_evaluate fuel (gem.Solve nid shape children true) w = (Ok insns, w') ->
  exists aux lhs reads inames,
    matfree_solve_knl w' = Some aux /\
    matfree_cg_kernel_for shape = Some aux /\
    lp.name aux = "matfree_cg_kernel" /\
    insns = [lp.CallInstruction [lhs]
               (p.Call (p.Variable_ (lp.name aux)) reads) inames 0].
Proof.
  unfold statement_evaluate. unfold bind at 1.
  destruct (in_ctx _ w) as [[[lhs reads]|e] w1]; [|discriminate].
  destruct shape as [|n rest]; [discriminate|].
  cbn. intros H. injection H as <- <-. cbn. by eexists _, lhs, reads, _.
Qed.

Lemma matfree_cg_kernel_for_name (shape : list nat) (aux : lp.kernel) :
  matfree_cg_kernel_for shape = Some aux -> lp.name aux = "matfree_cg_kernel".
Proof. destruct shape; [discriminate|]. intros H. by injection H as <-. Qed.

Lemma statement_evaluate_pending (fuel : nat) (expr : gem.node) (w w' : World)
    (insns : list lp.instruction) :
  statement_evaluate fuel expr w = (Ok insns, w') ->
  matfree_solve_knl w' = pending_after (imp.Evaluate expr) (matfree_solve_knl w) /\
  forall shape, last_matfree (imp.Evaluate expr) = Some shape ->
    is_Some (matfree_cg_kernel_for shape).
Proof.
  intros H. destruct (is_matfree_solve expr) eqn:Hm.
  - destruct expr; try discriminate. cbn in Hm. subst matfree.
    apply statement_evaluate_matfree in H as (aux & _ & _ & _ & H1 & H2 & _).
    unfold pending_after. cbn. split; [by rewrite H1, H2|].
    intros ? [= <-]. by rewrite H2.
  - apply statement_evaluate_keeps in H; [|done]. rewrite H. unfold pending_after.
    destruct expr; try (by split); cbn in Hm; subst matfree; by split.
Qed.

(** The kernel pending after a tree was lowered is the kernel of the last
    matrix-free [Solve] it evaluates, or the one pending before. *)
Lemma statement_pending (fuel : nat) (t : imp.tree) (w w' : World)
    (insns : list lp.instruction) :
  statement fuel t w = (Ok insns, w') ->
  matfree_solve_knl w' = pending_after t (matfree_solve_knl w) /\
  forall shape, last_matfree t = Some shape -> is_Some (matfree_cg_kernel_for shape).
Proof.
  revert w w' insns.
  induction t as [children IH| index body IH| | | | | expr |] using tree_induction;
    intros w w' insns H; cbn [statement] in H;
    try (apply keeps_pending_in_ctx in H; rewrite H; by split).
  - revert w w' insns H. induction IH as [|c cs Hc _ IHcs]; intros w w' insns H.
    + injection H as <- <-. by split.
    + unfold bind at 1 in H.
      destruct (statement fuel c w) as [[i1|e] w1] eqn:E1; [|discriminate].
      unfold bind at 1 in H.
      match type of H with
      | match ?chain w1 with _ => _ end = _ =>
          destruct (chain w1) as [[r1|e] w2] eqn:E2; [|discriminate]
      end.
      injection H as <- <-.
      apply Hc in E1 as [E1 S1]. apply IHcs in E2 as [E2 S2].
      unfold pending_after in *. cbn [last_matfree] in *.
      match goal with
      | |- context [match ?last cs with _ => _ end] => destruct (last cs) as [sh|]
      end.
      * split; [done|]. intros ? [= <-]. by apply S2.
      * split; [by rewrite E2|]. done.
  - destruct (gem.extent index) as [[|extent]|]; try discriminate.
    unfold bind at 1 in H.
    destruct (in_ctx _ w) as [[idx|e] w1] eqn:E1; [|discriminate].
    apply keeps_pending_in_ctx in E1.
    unfold bind at 1 in H.
    destruct (in_ctx _ w1) as [[u|e] w2] eqn:E2; [|discriminate].
    apply keeps_pending_in_ctx in E2.
    unfold with_active_indices in H.
    match type of H with
    | match ?b with _ => _ end = _ => destruct b as [[a1|e] w3] eqn:E3; [|discriminate]
    end.
    unfold bind in E3. cbn in E3. apply IH in E3 as [E3 S3]. cbn in E3.
    destruct (in_ctx (pop_keys _) w3) as [[u'|e] w4] eqn:E4; [|discriminate].
    apply keeps_pending_in_ctx in E4. injection H as <- <-.
    split; [|done]. unfold pending_after in *. cbn [last_matfree].
    rewrite E4, E3. by rewrite E2, E1.
  - by apply statement_evaluate_pending in H.
  - discriminate.
Qed.

Lemma lower_tree_pending (fuel : nat) (impero_c : ImperoC) (args : list lp.decl)
    (typed : list (gem.node * option dtype)) (w w' : World)
    (lowered : list lp.decl * list lp.instruction) :
  lower_tree fuel impero_c args typed w = (Ok lowered, w') ->
  matfree_solve_knl w' = pending_after (tree impero_c) (matfree_solve_knl w) /\
  forall shape, last_matfree (tree impero_c) = Some shape ->
    is_Some (matfree_cg_kernel_for shape).
Proof.
  intros H. unfold lower_tree in H. unfold bind at 1 in H.
  destruct (in_ctx _ w) as [[temps|e] w1] eqn:E1; [|discriminate].
  apply keeps_pending_in_ctx in E1. unfold bind at 1 in H.
  destruct (statement fuel (tree impero_c) w1) as [[insns|e] w2] eqn:E; [|discriminate].
  injection H as <- <-. apply statement_pending in E as [E S]. by rewrite E, E1.
Qed.

(** What [generate] returns, by the kernel pending after the lowering. *)
Lemma generate_returns (fuel : nat) (impero_c : ImperoC) (args : list lp.decl)
    (scalar_type : dtype) (kernel_name : string)
    (index_names : list ((nat + nat) * string)) (return_increments : bool)
    (before pending : option lp.kernel) (res : generated) :
  generate fuel impero_c args scalar_type kernel_name index_names
    return_increments before = (Ok res, pending) ->
  pending = None /\
  (forall shape, last_matfree (tree impero_c) = Some shape ->
     is_Some (matfree_cg_kernel_for shape)) /\
  exists knl,
    lp.name knl = kernel_name /\
    res = match pending_after (tree impero_c) before with
          | Some aux =>
              a_program
                (lp.inline_callable_kernel
                   (lp._match_caller_callee_argument_dimension_
                      (lp.register_callable_kernel (lp.make_program knl) aux)
                      (lp.name aux))
                   (lp.name aux))
          | None => a_kernel knl
          end.
Proof.
  intros H. unfold generate in H.
  destruct (finfo_resolution scalar_type) as [eps|e]; [|discriminate].
  destruct (assign_dtypes _ _) as [typed|e]; [|discriminate].
  match type of H with
  | match ?l with _ => _ end = _ => destruct l as [[[data insns]|e] w] eqn:E
  end; [|discriminate].
  apply lower_tree_pending in E as [E S]. cbn in E. rewrite E in H.
  destruct (pending_after (tree impero_c) before) as [k|];
    injection H as <- <-;
    (split_and!; [done|done|eexists; split; [|reflexivity]; reflexivity]).
Qed.

Lemma statement_evaluate_matfree_inv (fuel nid : nat) (shape : list nat)
    (children : list gem.node) (w w' : World) (insns : list lp.instruction) :
  statement_evaluate fuel (gem.Solve nid shape children true) w = (Ok insns, w') ->
  exists aux lhs reads w1,
    in_ctx (call_operands fuel (gem.Solve nid shape children true) children) w
      = (Ok (lhs, reads), w1) /\
    ctx w' = ctx w1 /\
    matfree_cg_kernel_for shape = Some aux /\
    matfree_solve_knl w' = Some aux /\
    insns = [lp.CallInstruction [lhs]
               (p.Call (p.Variable_ "matfree_cg_kernel") reads)
               (inames_of (active_indices (ctx w1))) 0].
Proof.
  unfold statement_evaluate. unfold bind at 1.
  destruct (in_ctx _ w) as [[[lhs reads]|e] w1] eqn:E; [|discriminate].
  destruct shape as [|n rest]; [discriminate|].
  cbn. intros H. injection H as <- <-. cbn. by eexists _, lhs, reads, w1.
Qed.

(** What [generate] returns, by the run of the lowering. *)
Lemma generate_ok_inv (fuel : nat) (impero_c : ImperoC) (args : list lp.decl)
    (scalar_type : dtype) (kernel_name : string)
    (index_names : list ((nat + nat) * string)) (return_increments : bool)
    (before pending : option lp.kernel) (res : generated) :
  generate fuel impero_c args scalar_type kernel_name index_names
    return_increments before = (Ok res, pending) ->
  pending = None /\
  exists epsilon typed data insns w,
    finfo_resolution scalar_type = Ok epsilon /\
    assign_dtypes (temporaries impero_c) scalar_type = Ok typed /\
    lower_tree fuel impero_c args typed
      (initial_world impero_c scalar_type epsilon index_names return_increments
         before) = (Ok (data, insns), w) /\
    res = match matfree_solve_knl w with
          | Some aux => a_program (inlined (assembled_kernel kernel_name data insns w) aux)
          | None => a_kernel (assembled_kernel kernel_name data insns w)
          end.
Proof.
  intros H. unfold generate in H.
  destruct (finfo_resolution scalar_type) as [eps|e]; [|discriminate].
  destruct (assign_dtypes _ _) as [typed|e]; [|discriminate].
  change {| ctx := _; matfree_solve_knl := before |}
    with (initial_world impero_c scalar_type eps index_names return_increments before)
    in H.
  destruct (lower_tree fuel impero_c args typed _) as [[[data insns]|e] w] eqn:E;
    [|discriminate].
  assert (pending = None) as -> by (by destruct (matfree_solve_knl w); injection H as _ <-).
  split; [done|]. exists eps, typed, data, insns, w. split_and!; [done..|].
  by destruct (matfree_solve_knl w); injection H as <-.
Qed.

(** C1, amended: lowering a matrix-free [Solve] stores the
    conjugate-gradient kernel of its shape in the module variable, whatever
    was pending, and emits one call instruction whose target is the name of
    that kernel, [matfree_cg_kernel], not [solve].  One kernel is pending at
    a time: after a tree is lowered it is the kernel of the matrix-free
    [Solve] lowered last.  When [generate] returns for a tree with such a
    node, it returns the kernel assembled from the lowered tree, wrapped in
    a program in which that last kernel, and no other, is registered, matched
    in its argument dimensions and inlined, and nothing is pending
    afterwards; the next [generate] that returns for a tree without
    matrix-free solve returns the plain assembled kernel. *)
Theorem matfree_solve_registered_then_inlined :
  (forall fuel nid shape children w w' insns,
     statement_evaluate fuel (gem.Solve nid shape children true) w = (Ok insns, w') ->
     exists aux lhs reads w1,
       in_ctx (call_operands fuel (gem.Solve nid shape children true) children) w
         = (Ok (lhs, reads), w1) /\
       ctx w' = ctx w1 /\
       matfree_cg_kernel_for shape = Some aux /\
       matfree_solve_knl w' = Some aux /\
       lp.name aux = "matfree_cg_kernel" /\ lp.name aux <> "solve" /\
       insns = [lp.CallInstruction [lhs]
                  (p.Call (p.Variable_ (lp.name aux)) reads)
                  (inames_of (active_indices (ctx w1))) 0]) /\
  (forall fuel t w w' insns shape,
     statement fuel t w = (Ok insns, w') ->
     last_matfree t = Some shape ->
     is_Some (matfree_cg_kernel_for shape) /\
     matfree_solve_knl w' = matfree_cg_kernel_for shape) /\
  (forall fuel impero_c args scalar_type kernel_name index_names
          return_increments before res pending shape,
     last_matfree (tree impero_c) = Some shape ->
     generate fuel impero_c args scalar_type kernel_name index_names
       return_increments before = (Ok res, pending) ->
     pending = None /\
     (exists epsilon typed data insns w aux,
        finfo_resolution scalar_type = Ok epsilon /\
        assign_dtypes (temporaries impero_c) scalar_type = Ok typed /\
        lower_tree fuel impero_c args typed
          (initial_world impero_c scalar_type epsilon index_names
             return_increments before) = (Ok (data, insns), w) /\
        matfree_cg_kernel_for shape = Some aux /\
        matfree_solve_knl w = Some aux /\
        lp.name aux = "matfree_cg_kernel" /\
        res = a_program (inlined (assembled_kernel kernel_name data insns w) aux)) /\
     forall fuel' impero_c' args' scalar_type' kernel_name' index_names'
            return_increments' res' pending',
       last_matfree (tree impero_c') = None ->
       generate fuel' impero_c' args' scalar_type' kernel_name' index_names'
         return_increments' pending = (Ok res', pending') ->
       pending' = None /\
       exists epsilon' typed' data' insns' w',
         finfo_resolution scalar_type' = Ok epsilon' /\
         assign_dtypes (temporaries impero_c') scalar_type' = Ok typed' /\
         lower_tree fuel' impero_c' args' typed'
           (initial_world impero_c' scalar_type' epsilon' index_names'
              return_increments' None) = (Ok (data', insns'), w') /\
         res' = a_kernel (assembled_kernel kernel_name' data' insns' w')).
Proof.
  split_and!.
  - intros fuel nid shape children w w' insns H.
    apply statement_evaluate_matfree_inv in H
      as (aux & lhs & reads & w1 & H1 & H2 & H3 & H4 & H5).
    pose proof (matfree_cg_kernel_for_name _ _ H3) as Hn.
    exists aux, lhs, reads, w1. rewrite Hn. by split_and!.
  - intros fuel t w w' insns shape H Ht.
    apply statement_pending in H as [H S]. split; [by apply S|].
    unfold pending_after in H. by rewrite Ht in H.
  - intros fuel impero_c args scalar_type kernel_name index_names
      return_increments before res pending shape Ht H.
    apply generate_ok_inv in H
      as (-> & eps & typed & data & insns & w & He & Hty & Hl & ->).
    pose proof (lower_tree_pending _ _ _ _ _ _ _ Hl) as [Hp S].
    unfold pending_after in Hp. rewrite Ht in Hp. cbn in Hp.
    destruct (S shape Ht) as [aux Haux]. rewrite Haux in Hp. rewrite Hp.
    split_and!; [done| |].
    + exists eps, typed, data, insns, w, aux. split_and!; try done.
      by eapply matfree_cg_kernel_for_name.
    + intros fuel' impero_c' args' scalar_type' kernel_name' index_names'
        return_increments' res' pending' Ht' H'.
      apply generate_ok_inv in H'
        as (-> & eps' & typed' & data' & insns' & w' & He' & Hty' & Hl' & ->).
      pose proof (lower_tree_pending _ _ _ _ _ _ _ Hl') as [Hp' _].
      unfold pending_after in Hp'. rewrite Ht' in Hp'. cbn in Hp'. rewrite Hp'.
      split; [done|]. by exists eps', typed', data', insns', w'.
Qed.

(** ** More fuel returns the same result *)

Lemma refines_refl {S A} (m : M S A) : refines m m.
Proof. by intros s a s' H. Qed.

Lemma refines_bind {S A B} (m m' : M S A) (k k' : A -> M S B) :
  refines m m' -> (forall a, refines (k a) (k' a)) ->
  refines (bind m k) (bind m' k').
Proof.
  intros Hm Hk s b s' H. unfold bind in *.
  destruct (m s) as [[a|e] s1] eqn:E; [|discriminate].
  rewrite (Hm _ _ _ E). by apply Hk.
Qed.

Lemma refines_mapM {S A B} (f f' : A -> M S B) (l : list A) :
  (forall a, refines (f a) (f' a)) -> refines (mapM f l) (mapM f' l).
Proof.
  intros Hf. induction l as [|a l IH]; [apply refines_refl|].
  cbn [mapM]. apply refines_bind; [done|intros b].
  apply refines_bind; [done|intros bs]. apply refines_refl.
Qed.

Lemma refines_in_ctx {A} (m m' : M LoopyContext A) :
  refines m m' -> refines (in_ctx m) (in_ctx m').
Proof.
  intros Hm w a w' H. unfold in_ctx in *.
  destruct (m (ctx w)) as [[a1|e] c1] eqn:E; [|by injection H].
  by rewrite (Hm _ _ _ E).
Qed.

Lemma refines_with_active_indices {A} (mapping : list (nat * string))
    (body body' : M World A) :
  refines body body' ->
  refines (with_active_indices mapping body) (with_active_indices mapping body').
Proof.
  intros Hb w a w' H. unfold with_active_indices in *.
  change ((in_ctx (modify (set_active_indices (update_mapping mapping))) ;;; body) w)
    with (body (activated mapping w)) in H.
  change ((in_ctx (modify (set_active_indices (update_mapping mapping))) ;;; body') w)
    with (body' (activated mapping w)).
  destruct (body (activated mapping w)) as [[a1|e] w1] eqn:E; [|discriminate].
  by rewrite (Hb _ _ _ E).
Qed.

Ltac refining H :=
  repeat first
    [ apply refines_refl
    | apply H
    | apply refines_in_ctx
    | apply refines_with_active_indices
    | apply refines_mapM; intros ?
    | apply refines_bind; [|intros ?]
    | match goal with
      | |- refines (match ?x with _ => _ end) _ => destruct x
      end ].

Section MoreFuel.

Variables rec rec' : gem.node -> M LoopyContext p.expr.
Hypothesis Hrec : forall e, refines (rec e) (rec' e).

Lemma pymbolic_variable_refines (node : gem.node) :
  refines (pymbolic_variable rec node) (pymbolic_variable rec' node).
Proof. unfold pymbolic_variable, fetch_multiindex. refining Hrec. Qed.

Lemma _expression_refines (expr : gem.node) :
  refines (_expression rec expr) (_expression rec' expr).
Proof.
  destruct expr; cbn [_expression];
    unfold _expression_mathfunction, _expression_indexed,
      _expression_flexiblyindexed, pymbolic_variable, fetch_multiindex;
    refining Hrec.
Qed.

End MoreFuel.

Lemma expression_fuel_S (fuel : nat) (top : bool) (expr : gem.node) :
  refines (expression fuel top expr) (expression (S fuel) top expr).
Proof.
  revert top expr. induction fuel as [|fuel IH]; intros top expr.
  - intros s a s' H. discriminate.
  - change (refines
      (c <- get ;;
       if negb top && bool_decide (is_Some (gem_to_pymbolic c !! node_key expr))
       then pymbolic_variable (expression fuel false) expr
       else _expression (expression fuel false) expr)
      (c <- get ;;
       if negb top && bool_decide (is_Some (gem_to_pymbolic c !! node_key expr))
       then pymbolic_variable (expression (S fuel) false) expr
       else _expression (expression (S fuel) false) expr)).
    apply refines_bind; [apply refines_refl|intros c].
    destruct (negb top && _).
    + apply pymbolic_variable_refines. intros e. apply IH.
    + apply _expression_refines. intros e. apply IH.
Qed.

Lemma expression_fuel_le (fuel fuel' : nat) (top : bool) (expr : gem.node) :
  fuel <= fuel' -> refines (expression fuel top expr) (expression fuel' top expr).
Proof.
  induction 1 as [|fuel' _ IH]; [apply refines_refl|].
  intros s a s' H. by apply expression_fuel_S, IH.
Qed.

Lemma statement_evaluate_fuel_le (fuel fuel' : nat) (expr : gem.node) :
  fuel <= fuel' ->
  refines (statement_evaluate fuel expr) (statement_evaluate fuel' expr).
Proof.
  intros Hle.
  assert (forall e, refines (expression fuel false e) (expression fuel' false e)) as Hf
    by (intros e; by apply expression_fuel_le).
  assert (forall e, refines (expression fuel true e) (expression fuel' true e)) as Ht
    by (intros e; by apply expression_fuel_le).
  assert (forall node, refines (sub_array_ref fuel node) (sub_array_ref fuel' node)) as Hs.
  { intros node. unfold sub_array_ref.
    apply refines_bind; [apply refines_refl|intros idx].
    apply refines_bind; [by apply pymbolic_variable_refines|intros var].
    apply refines_refl. }
  assert (forall node, refines (pymbolic_variable (expression fuel false) node)
                               (pymbolic_variable (expression fuel' false) node)) as Hp
    by (intros node; by apply pymbolic_variable_refines).
  destruct expr; unfold statement_evaluate, call_operands, pymbolic_variable_and_destruct;
    repeat first
      [ apply refines_refl | apply Hf | apply Ht | apply Hs | apply Hp
      | apply refines_in_ctx | apply refines_with_active_indices
      | apply refines_mapM; intros ?
      | apply refines_bind; [|intros ?]
      | match goal with
        | |- refines (match ?x with _ => _ end) _ => destruct x
        end ].
Qed.

Lemma statement_fuel_le (fuel fuel' : nat) (t : imp.tree) :
  fuel <= fuel' -> refines (statement fuel t) (statement fuel' t).
Proof.
  intros Hle.
  assert (forall e, refines (expression fuel false e) (expression fuel' false e)) as Hf
    by (intros e; by apply expression_fuel_le).
  induction t as [children IH| index body IH| | | | | expr |] using tree_induction;
    cbn [statement];
    try (unfold statement_initialise, statement_accumulate, statement_return,
           statement_returnaccumulate; by refining Hf).
  - induction IH as [|c cs Hc _ IHcs]; [apply refines_refl|].
    apply refines_bind; [done|intros ?].
    apply refines_bind; [done|intros ?]. apply refines_refl.
  - by apply statement_evaluate_fuel_le.
Qed.

(** A result of [generate] is its result with any larger fuel. *)
Lemma generate_fuel_le (fuel fuel' : nat) (impero_c : ImperoC) (args : list lp.decl)
    (scalar_type : dtype) (kernel_name : string)
    (index_names : list ((nat + nat) * string)) (return_increments : bool) :
  fuel <= fuel' ->
  refines (generate fuel impero_c args scalar_type kernel_name index_names
             return_increments)
          (generate fuel' impero_c args scalar_type kernel_name index_names
             return_increments).
Proof.
  intros Hle before res pending H. unfold generate in *.
  destruct (finfo_resolution scalar_type) as [eps|e]; [|discriminate].
  destruct (assign_dtypes _ _) as [typed|e]; [|discriminate].
  match type of H with
  | match lower_tree fuel impero_c args typed ?w0 with _ => _ end = _ =>
      destruct (lower_tree fuel impero_c args typed w0) as [[lowered|e] w] eqn:E;
        [|discriminate];
      assert (lower_tree fuel' impero_c args typed w0 = (Ok lowered, w)) as ->; [|done]
  end.
  revert E. apply refines_bind; [apply refines_refl|intros temps].
  apply refines_bind; [by apply statement_fuel_le|intros insns]. apply refines_refl.
Qed.

(** * Further properties of the backend *)

(** ** Relations maintained by the monadic operations *)

Section Maintains.

Context {S : Type} (R : S -> S -> Prop).
Hypothesis R_refl : forall s, R s s.
Hypothesis R_trans : forall s1 s2 s3, R s1 s2 -> R s2 s3 -> R s1 s3.

Lemma maintains_ret {A} (a : A) : maintains R (ret a).
Proof using R_refl. intros s r s' H. injection H as <- <-. apply R_refl. Qed.

Lemma maintains_raise {A} (e : exn) : maintains R (@raise S A e).
Proof using R_refl. intros s r s' H. injection H as <- <-. apply R_refl. Qed.

Lemma maintains_get : maintains R (@get S).
Proof using R_refl. intros s r s' H. injection H as <- <-. apply R_refl. Qed.

Lemma maintains_lift_result {A} (x : result A) : maintains R (@lift_result S A x).
Proof using R_refl. intros s r s' H. injection H as <- <-. apply R_refl. Qed.

Lemma maintains_modify (f : S -> S) : (forall s, R s (f s)) -> maintains R (modify f).
Proof. intros Hf s r s' H. injection H as <- <-. apply Hf. Qed.

Lemma maintains_bind {A B} (m : M S A) (k : A -> M S B) :
  maintains R m -> (forall a, maintains R (k a)) -> maintains R (bind m k).
Proof using R_trans.
  intros Hm Hk s r s' H. unfold bind in H.
  destruct (m s) as [[a|e] s1] eqn:E; apply Hm in E.
  - apply Hk in H. by eapply R_trans.
  - by injection H as <- <-.
Qed.

Lemma maintains_mapM {A B} (f : A -> M S B) (l : list A) :
  (forall a, maintains R (f a)) -> maintains R (mapM f l).
Proof using R_refl R_trans.
  intros Hf. induction l as [|a l IH]; [apply maintains_ret|].
  cbn [mapM]. apply maintains_bind; [done|intros b].
  apply maintains_bind; [done|intros bs]. apply maintains_ret.
Qed.

End Maintains.

Ltac maintaining :=
  repeat first
    [ apply maintains_ret; solve [auto]
    | apply maintains_raise; solve [auto]
    | apply maintains_get; solve [auto]
    | apply maintains_lift_result; solve [auto]
    | progress auto
    | apply maintains_mapM; [solve [auto]|solve [auto]|intros ?]
    | apply maintains_bind; [solve [auto]| |intros ?]
    | match goal with
      | |- maintains _ (match ?x with _ => _ end) => destruct x
      end ].

(** ** Relations maintained by the lowering of expressions *)

Section MaintainedByExpressions.

Variable R : LoopyContext -> LoopyContext -> Prop.
Hypothesis R_refl : forall c, R c c.
Hypothesis R_trans : forall c1 c2 c3, R c1 c2 -> R c2 c3 -> R c1 c3.
Hypothesis R_name_gen : forall based_on, maintains R (name_gen_call based_on).
Hypothesis R_gem_to_pym_var : forall node, maintains R (_gem_to_pym_var node).

Section OneNode.

Variable rec : gem.node -> M LoopyContext p.expr.
Hypothesis Hrec : forall e, maintains R (rec e).

Lemma fetch_multiindex_maintains (multiindex : list gem.index) :
  maintains R (fetch_multiindex rec multiindex).
Proof using R_refl R_trans Hrec. unfold fetch_multiindex. maintaining. Qed.

Lemma pymbolic_variable_maintains (node : gem.node) :
  maintains R (pymbolic_variable rec node).
Proof using R_refl R_trans R_gem_to_pym_var Hrec.
  pose proof fetch_multiindex_maintains. unfold pymbolic_variable. maintaining.
Qed.

Lemma _expression_maintains (expr : gem.node) :
  maintains R (_expression rec expr).
Proof using R_refl R_trans R_gem_to_pym_var Hrec.
  pose proof fetch_multiindex_maintains. pose proof pymbolic_variable_maintains.
  destruct expr; cbn [_expression];
    unfold _expression_mathfunction, _expression_indexed, _expression_scalar,
      _expression_flexiblyindexed, flexible_dimension, flexible_product;
    maintaining.
Qed.

End OneNode.

Lemma expression_maintains (fuel : nat) (top : bool) (expr : gem.node) :
  maintains R (expression fuel top expr).
Proof using R_refl R_trans R_gem_to_pym_var.
  revert top expr. induction fuel as [|fuel IH]; intros top expr.
  - by apply maintains_raise.
  - change (maintains R
      (c <- get ;;
       if negb top && bool_decide (is_Some (gem_to_pymbolic c !! node_key expr))
       then pymbolic_variable (expression fuel false) expr
       else _expression (expression fuel false) expr)).
    apply maintains_bind; [done|by apply maintains_get|intros c].
    destruct (negb top && _).
    + apply pymbolic_variable_maintains. intros e. apply IH.
    + apply _expression_maintains. intros e. apply IH.
Qed.

End MaintainedByExpressions.

(** ** Relations maintained by the lowering of statements *)

Section MaintainedByStatements.

Variable R : LoopyContext -> LoopyContext -> Prop.
Hypothesis R_refl : forall c, R c c.
Hypothesis R_trans : forall c1 c2 c3, R c1 c2 -> R c2 c3 -> R c1 c3.
Hypothesis R_name_gen : forall based_on, maintains R (name_gen_call based_on).
Hypothesis R_gem_to_pym_var : forall node, maintains R (_gem_to_pym_var node).
Hypothesis R_index_extent :
  forall name extent c, R c (set_index_extent (od_set name extent) c).
Hypothesis R_active_indices : forall f c, R c (set_active_indices f c).
Hypothesis R_index_names :
  forall key c, index_names c !! key = None ->
    R c (set_index_names <[ key := "i" ]> c).

Lemma on_ctx_refl (w : World) : on_ctx R w w.
Proof using R_refl. apply R_refl. Qed.

Lemma on_ctx_trans (w1 w2 w3 : World) :
  on_ctx R w1 w2 -> on_ctx R w2 w3 -> on_ctx R w1 w3.
Proof using R_trans. apply R_trans. Qed.

Lemma in_ctx_maintains {A} (m : M LoopyContext A) :
  maintains R m -> maintains (on_ctx R) (in_ctx m).
Proof.
  intros Hm w r w' H. unfold in_ctx in H.
  destruct (m (ctx w)) as [r1 c1] eqn:E. injection H as <- <-. by apply Hm in E.
Qed.

Lemma pop_keys_maintains (keys : list nat) : maintains R (pop_keys keys).
Proof using R_refl R_trans R_active_indices.
  induction keys as [|k keys IH]; cbn [pop_keys]; [by apply maintains_ret|].
  apply maintains_bind; [done|by apply maintains_get|intros c].
  destruct (active_indices c !! k); [|by apply maintains_raise].
  apply maintains_bind; [done|by apply maintains_modify|done].
Qed.

Lemma with_active_indices_maintains {A} (mapping : list (nat * string))
    (body : M World A) :
  maintains (on_ctx R) body ->
  maintains (on_ctx R) (with_active_indices mapping body).
Proof using R_refl R_trans R_active_indices.
  intros Hb w r w' H. unfold with_active_indices in H.
  change ((in_ctx (modify (set_active_indices (update_mapping mapping))) ;;; body) w)
    with (body (activated mapping w)) in H.
  assert (on_ctx R w (activated mapping w)) as H0 by apply R_active_indices.
  destruct (body (activated mapping w)) as [[a|e] w1] eqn:E; apply Hb in E.
  - pose proof (in_ctx_maintains _ (pop_keys_maintains mapping.*1) w1) as Hp.
    destruct (in_ctx (pop_keys mapping.*1) w1) as [[u|e] w2];
      specialize (Hp _ _ eq_refl); injection H as <- <-;
      eapply on_ctx_trans; [| exact Hp | | exact Hp]; by eapply on_ctx_trans.
  - injection H as <- <-. by eapply on_ctx_trans.
Qed.

Lemma index_names_get_maintains (key : nat + nat) :
  maintains R (index_names_get key).
Proof using R_refl R_index_names.
  intros c r c' H. unfold index_names_get, bind, get in H.
  destruct (index_names c !! key) eqn:Hkey; injection H as <- <-;
    [apply R_refl|by apply R_index_names].
Qed.

Lemma gem_to_pym_multiindex_maintains (multiindex : list gem.Index) :
  maintains R (gem_to_pym_multiindex multiindex).
Proof using R_refl R_trans R_name_gen R_index_extent R_index_names.
  pose proof index_names_get_maintains as Hget.
  unfold gem_to_pym_multiindex.
  apply maintains_mapM; [done..|intros index].
  destruct (gem.extent index) as [[|extent]|]; try by apply maintains_raise.
  apply maintains_bind; [done| |intros name].
  - destruct (gem.index_name index) as [[|a s]|]; maintaining.
  - apply maintains_bind; [done|by apply maintains_modify|intros ?].
    by apply maintains_ret.
Qed.

Lemma pymbolic_multiindex_maintains (shape : list nat) :
  maintains R (pymbolic_multiindex shape).
Proof using R_refl R_trans R_name_gen R_index_extent R_index_names.
  unfold pymbolic_multiindex.
  apply maintains_mapM; [done..|intros extent].
  apply maintains_bind; [done|apply index_names_get_maintains|intros based_on].
  apply maintains_bind; [done|done|intros name].
  apply maintains_bind; [done|by apply maintains_modify|intros ?].
  by apply maintains_ret.
Qed.

Lemma loopy_matfree_solve_maintains (lhs reads : list p.expr) (shape : list nat) :
  maintains (on_ctx R) (loopy_matfree_solve lhs reads shape).
Proof using R_refl.
  intros w r w' H. destruct shape; injection H as <- <-; apply R_refl.
Qed.

Ltac maintaining_world :=
  repeat first
    [ apply maintains_ret; exact on_ctx_refl
    | apply maintains_raise; exact on_ctx_refl
    | apply maintains_get; exact on_ctx_refl
    | apply loopy_matfree_solve_maintains
    | apply with_active_indices_maintains
    | apply in_ctx_maintains
    | apply maintains_bind; [exact on_ctx_trans| |intros ?]
    | match goal with
      | |- maintains _ (match ?x with _ => _ end) => destruct x
      end ].

Lemma sub_array_ref_maintains (fuel : nat) (node : gem.node) :
  maintains R (sub_array_ref fuel node).
Proof using R_refl R_trans R_name_gen R_gem_to_pym_var R_index_extent R_index_names.
  unfold sub_array_ref.
  apply maintains_bind; [done|apply pymbolic_multiindex_maintains|intros idx].
  apply maintains_bind; [done| |intros var; by apply maintains_ret].
  apply pymbolic_variable_maintains; try done.
  intros e. by apply expression_maintains.
Qed.

Lemma statement_leaf_maintains (fuel : nat) :
  (forall s, maintains R (statement_initialise fuel s)) /\
  (forall s, maintains R (statement_accumulate fuel s)) /\
  (forall v e, maintains R (statement_return fuel v e)) /\
  (forall v s, maintains R (statement_returnaccumulate fuel v s)).
Proof using R_refl R_trans R_gem_to_pym_var.
  pose proof (fun top e => expression_maintains R R_refl R_trans R_gem_to_pym_var
                             fuel top e) as He.
  split_and!; intros; unfold statement_initialise, statement_accumulate,
    statement_return, statement_returnaccumulate, active_inames; maintaining.
Qed.

Lemma statement_evaluate_maintains (fuel : nat) (expr : gem.node) :
  maintains (on_ctx R) (statement_evaluate fuel expr).
Proof using R_refl R_trans R_name_gen R_gem_to_pym_var R_index_extent R_active_indices
  R_index_names.
  pose proof (fun top e => expression_maintains R R_refl R_trans R_gem_to_pym_var
                             fuel top e) as He.
  pose proof (sub_array_ref_maintains fuel) as Hs.
  assert (forall node, maintains R (pymbolic_variable (expression fuel false) node)) as Hp.
  { intros node. by apply pymbolic_variable_maintains. }
  pose proof gem_to_pym_multiindex_maintains as Hg.
  destruct expr; unfold statement_evaluate, call_operands,
    pymbolic_variable_and_destruct, active_inames;
    maintaining_world; maintaining.
Qed.

Lemma statement_maintains (fuel : nat) (t : imp.tree) :
  maintains (on_ctx R) (statement fuel t).
Proof using R_refl R_trans R_name_gen R_gem_to_pym_var R_index_extent R_active_indices
  R_index_names.
  destruct (statement_leaf_maintains fuel) as (Hi & Ha & Hr & Hra).
  induction t as [children IH| index body IH| | | | | expr |] using tree_induction;
    cbn [statement].
  - induction IH as [|c cs Hc _ IHcs]; [by apply maintains_ret, on_ctx_refl|].
    apply maintains_bind; [apply on_ctx_trans|done|intros ?].
    apply maintains_bind; [apply on_ctx_trans|done|intros ?].
    by apply maintains_ret, on_ctx_refl.
  - destruct (gem.extent index) as [[|extent]|];
      try by apply maintains_raise, on_ctx_refl.
    apply maintains_bind; [apply on_ctx_trans| |intros idx].
    { apply in_ctx_maintains. pose proof index_names_get_maintains. maintaining. }
    apply maintains_bind; [apply on_ctx_trans| |intros ?].
    { apply in_ctx_maintains. by apply maintains_modify. }
    by apply with_active_indices_maintains.
  - by apply in_ctx_maintains.
  - by apply in_ctx_maintains.
  - by apply in_ctx_maintains.
  - by apply in_ctx_maintains.
  - apply statement_evaluate_maintains.
  - by apply maintains_raise, on_ctx_refl.
Qed.

End MaintainedByStatements.

(** ** The relations are preorders, kept by the primitive steps *)

Lemma same_config_refl (c : LoopyContext) : same_config c c.
Proof. by repeat split. Qed.

Lemma same_config_trans (c1 c2 c3 : LoopyContext) :
  same_config c1 c2 -> same_config c2 c3 -> same_config c1 c3.
Proof. intros (?&?&?&?&?) (?&?&?&?&?). repeat split; congruence. Qed.

Lemma same_scope_refl (c : LoopyContext) : same_scope c c.
Proof. by repeat split. Qed.

Lemma same_scope_trans (c1 c2 c3 : LoopyContext) :
  same_scope c1 c2 -> same_scope c2 c3 -> same_scope c1 c3.
Proof.
  intros (H1 & ? & ?) (H2 & ? & ?).
  split; [by eapply same_config_trans|split; congruence].
Qed.

Lemma names_grow_refl (c : LoopyContext) : names_grow c c.
Proof. by split. Qed.

Lemma names_grow_trans (c1 c2 c3 : LoopyContext) :
  names_grow c1 c2 -> names_grow c2 c3 -> names_grow c1 c3.
Proof. intros [? ?] [? ?]. split; by etrans. Qed.

Lemma domains_grow_refl (c : LoopyContext) : domains_grow c c.
Proof. by split. Qed.

Lemma domains_grow_trans (c1 c2 c3 : LoopyContext) :
  domains_grow c1 c2 -> domains_grow c2 c3 -> domains_grow c1 c3.
Proof. intros [? ?] [? ?]. split; [by etrans|auto]. Qed.

(** What a call of the name generator does to the context. *)
Lemma name_gen_call_inv (based_on : string) (c c' : LoopyContext) (r : result string) :
  name_gen_call based_on c = (r, c') ->
  exists v, r = Ok v /\ (v ∉ name_gen c) /\
    c' = set_name_gen ({[ v ]} ∪ name_gen c) c.
Proof.
  unfold name_gen_call. intros H.
  pose proof (unique_name_fresh (name_gen c) based_on) as Hfresh.
  destruct (unique_name (name_gen c) based_on) as [v g] eqn:Hu.
  assert (g = {[ v ]} ∪ name_gen c) as ->.
  { unfold unique_name in Hu. by injection Hu as <- <-. }
  injection H as <- <-. by exists v.
Qed.

(** What a lookup of a node does to the context: nothing, or one new name
    recorded under the key of the node. *)
Lemma _gem_to_pym_var_step (node : gem.node) (c c' : LoopyContext) (r : result p.expr) :
  _gem_to_pym_var node c = (r, c') ->
  c' = c \/
  exists v, gem_to_pymbolic c !! node_key node = None /\ (v ∉ name_gen c) /\
    c' = set_gem_to_pymbolic <[ node_key node := v ]>
           (set_name_gen ({[ v ]} ∪ name_gen c) c).
Proof.
  unfold _gem_to_pym_var, bind, get. intros H.
  destruct (gem_to_pymbolic c !! node_key node) as [v|] eqn:Hl.
  - injection H as <- <-. by left.
  - destruct (gem.name node) as [based_on|]; [|injection H as <- <-; by left].
    destruct (name_gen_call based_on c) as [r1 c1] eqn:E.
    apply name_gen_call_inv in E as (v & -> & Hv & ->).
    cbn in H. injection H as <- <-. right. by exists v.
Qed.

Lemma od_set_keys {V} (k : string) (v : V) (d : list (string * V)) :
  (od_set k v d).*1 = if bool_decide (k ∈ d.*1) then d.*1 else d.*1 ++ [k].
Proof.
  induction d as [|[k' v'] d IH]; [done|]. cbn [od_set].
  destruct (decide (k' = k)) as [->|Hne].
  - rewrite bool_decide_eq_true_2 by done. cbn.
    rewrite bool_decide_eq_true_2; [done|]. apply list_elem_of_here.
  - rewrite bool_decide_eq_false_2 by done. cbn. rewrite IH.
    destruct (decide (k ∈ d.*1)) as [Hin|Hin].
    + rewrite !bool_decide_eq_true_2; [done| |done]. by apply list_elem_of_further.
    + rewrite !bool_decide_eq_false_2; [done| |done].
      intros [?|?]%elem_of_cons; congruence.
Qed.

Lemma od_set_domains_grow (name : string) (extent : nat) (c : LoopyContext) :
  domains_grow c (set_index_extent (od_set name extent) c).
Proof.
  unfold domains_grow. cbn. rewrite od_set_keys. case_bool_decide as Hin; [done|].
  split; [intros x Hx; apply elem_of_app; by left|]. intros Hnd. apply NoDup_app. split_and!; [done| |apply NoDup_singleton].
  intros x Hx Hx'. apply list_elem_of_singleton in Hx'. by subst.
Qed.

Lemma names_reserved_name_gen (v : string) (c : LoopyContext) :
  names_reserved c -> names_reserved (set_name_gen ({[ v ]} ∪ name_gen c) c).
Proof.
  intros [Hres Hinj]. split; [|done]. intros k u Hk. cbn in *.
  apply Hres in Hk. set_solver.
Qed.

Lemma names_reserved_record (k : nat) (v : string) (c : LoopyContext) :
  names_reserved c -> gem_to_pymbolic c !! k = None -> v ∉ name_gen c ->
  names_reserved (set_gem_to_pymbolic <[ k := v ]>
                    (set_name_gen ({[ v ]} ∪ name_gen c) c)).
Proof.
  intros [Hres Hinj] Hk Hv. split.
  - intros k' u Hk'. cbn in *. rewrite lookup_insert in Hk'. case_decide.
    + injection Hk' as <-. set_solver.
    + apply Hres in Hk'. set_solver.
  - intros k1 k2 u H1 H2. cbn in H1, H2. rewrite lookup_insert in H1, H2.
    destruct (decide (k = k1)) as [E1|E1], (decide (k = k2)) as [E2|E2].
    + congruence.
    + injection H1 as <-. by apply Hres in H2.
    + injection H2 as <-. by apply Hres in H1.
    + by eapply Hinj.
Qed.

(** ** Invariants of the lowering *)

(** X1: lowering an expression, whether it returns or raises, leaves the
    active indices, the declared extents and the inputs of the compilation as
    they were: it only records names. *)
Theorem expression_keeps_scope
    (fuel : nat) (top : bool) (expr : gem.node) (c c' : LoopyContext)
    (r : result p.expr) :
  expression fuel top expr c = (r, c') -> same_scope c c'.
Proof.
  revert c r c'. apply (expression_maintains same_scope).
  - apply same_scope_refl.
  - apply same_scope_trans.
  - intros node c r c' H. apply _gem_to_pym_var_step in H as [->|(v & _ & _ & ->)];
      by repeat split.
Qed.

Lemma same_inputs_refl (c : LoopyContext) : same_inputs c c.
Proof. by repeat split. Qed.

Lemma same_inputs_trans (c1 c2 c3 : LoopyContext) :
  same_inputs c1 c2 -> same_inputs c2 c3 -> same_inputs c1 c3.
Proof.
  intros (?&?&?&?&?&H12) (?&?&?&?&?&H23).
  split_and!; [congruence..|by etrans|]. intros key. by rewrite H23, H12.
Qed.

(** X2: lowering a statement tree, on every exit path, leaves the index
    assignment of the nodes, the resolution, the scalar type and the mode of
    [Return] as they were.  The dictionary of pre-assigned index names is a
    [defaultdict] and does change: it keeps every entry and gains the keys
    looked up for the first time, with the default name, so that every
    lookup still gives the name it gave before. *)
Theorem statement_keeps_config
    (fuel : nat) (t : imp.tree) (w w' : World) (r : result (list lp.instruction)) :
  statement fuel t w = (r, w') -> same_inputs (ctx w) (ctx w').
Proof.
  revert w r w'. apply (statement_maintains same_inputs).
  - apply same_inputs_refl.
  - apply same_inputs_trans.
  - intros based_on c r c' H. apply name_gen_call_inv in H as (v & _ & _ & ->).
    by repeat split.
  - intros node c r c' H. apply _gem_to_pym_var_step in H as [->|(v & _ & _ & ->)];
      by repeat split.
  - intros; by repeat split.
  - intros; by repeat split.
  - intros key c Hkey. split_and!; try done.
    + cbn. by apply insert_subseteq.
    + intros key'. cbn. destruct (decide (key = key')) as [<-|Hne].
      * by rewrite lookup_insert_eq, Hkey.
      * by rewrite lookup_insert_ne.
Qed.

Lemma statement_names_grow
    (fuel : nat) (t : imp.tree) (w w' : World) (r : result (list lp.instruction)) :
  statement fuel t w = (r, w') -> names_grow (ctx w) (ctx w').
Proof.
  revert w r w'. apply (statement_maintains names_grow).
  - apply names_grow_refl.
  - apply names_grow_trans.
  - intros based_on c r c' H. apply name_gen_call_inv in H as (v & _ & _ & ->).
    split; [done|]. cbn. apply union_subseteq_r.
  - intros node c r c' H.
    apply _gem_to_pym_var_step in H as [->|(v & Hk & _ & ->)]; [by split|].
    split; cbn; [by apply insert_subseteq|apply union_subseteq_r].
  - intros; by split.
  - intros; by split.
  - intros; by split.
Qed.

(** X3: lowering a statement tree, whether it returns or raises, never
    renames a node and never forgets an issued name: every name recorded for
    a node before is recorded for it afterwards, and the names the generator
    has issued only grow. *)
Theorem statement_keeps_names
    (fuel : nat) (t : imp.tree) (w w' : World) (r : result (list lp.instruction)) :
  statement fuel t w = (r, w') ->
  (forall k v, gem_to_pymbolic (ctx w) !! k = Some v ->
               gem_to_pymbolic (ctx w') !! k = Some v) /\
  name_gen (ctx w) ⊆ name_gen (ctx w').
Proof.
  intros H. apply statement_names_grow in H as [Hm Hg].
  split; [|done]. intros k v Hk. by eapply lookup_weaken.
Qed.

(** X4: lowering a statement tree keeps the names reserved: when every
    recorded name was issued by the name generator and no two nodes share a
    name before, the same holds afterwards, on every exit path. *)
Theorem statement_keeps_names_reserved
    (fuel : nat) (t : imp.tree) (w w' : World) (r : result (list lp.instruction)) :
  names_reserved (ctx w) ->
  statement fuel t w = (r, w') ->
  names_reserved (ctx w').
Proof.
  intros Hw H. revert Hw.
  revert w r w' H.
  apply (statement_maintains (fun c c' => names_reserved c -> names_reserved c')).
  - done.
  - auto.
  - intros based_on c r c' H Hc. apply name_gen_call_inv in H as (v & _ & _ & ->).
    by apply names_reserved_name_gen.
  - intros node c r c' H Hc.
    apply _gem_to_pym_var_step in H as [->|(v & Hk & Hv & ->)]; [done|].
    by apply names_reserved_record.
  - intros name extent c [Hres Hinj]. by split.
  - intros f c [Hres Hinj]. by split.
  - intros key c _ [Hres Hinj]. by split.
Qed.

Lemma statement_domains_grow
    (fuel : nat) (t : imp.tree) (w w' : World) (r : result (list lp.instruction)) :
  statement fuel t w = (r, w') -> domains_grow (ctx w) (ctx w').
Proof.
  revert w r w'. apply (statement_maintains domains_grow).
  - apply domains_grow_refl.
  - apply domains_grow_trans.
  - intros based_on c r c' H. apply name_gen_call_inv in H as (v & _ & _ & ->).
    by split.
  - intros node c r c' H. apply _gem_to_pym_var_step in H as [->|(v & _ & _ & ->)];
      by split.
  - apply od_set_domains_grow.
  - intros; by split.
  - intros; by split.
Qed.

(** ** Iteration domains *)

Lemma create_domains_cons (idx : string) (extent : nat) (indices : list (string * nat)) :
  create_domains ((idx, extent) :: indices)
    = (fun '(idx, extent) =>
         [ {| lp.iname := idx; lp.upper := lp.aff_const extent;
              lp.inclusive := false |} ]) <$> (idx, extent) :: indices.
Proof. reflexivity. Qed.

Lemma create_domains_inames (indices : list (string * nat)) :
  lp.iname <$> concat (create_domains indices) = indices.*1.
Proof.
  destruct indices as [|[idx extent] indices]; [done|].
  rewrite create_domains_cons. generalize ((idx, extent) :: indices). clear.
  intros l. induction l as [|[i e] l IH]; [done|]. cbn in *. by rewrite IH.
Qed.

Lemma create_domains_find (indices : list (string * nat)) (i : string) (e : nat) :
  NoDup indices.*1 -> (i, e) ∈ indices ->
  List.find (fun r => bool_decide (lp.iname r = i)) (concat (create_domains indices))
    = Some {| lp.iname := i; lp.upper := lp.aff_const e; lp.inclusive := false |}.
Proof.
  intros Hnd Hin. destruct indices as [|[idx extent] indices]; [by apply elem_of_nil in Hin|].
  rewrite create_domains_cons. revert Hnd Hin. generalize ((idx, extent) :: indices). clear.
  intros l. induction l as [|[j x] l IH]; intros Hnd Hin; [by apply elem_of_nil in Hin|].
  cbn in *. apply NoDup_cons in Hnd as [Hj Hnd].
  apply elem_of_cons in Hin as [[= <- <-]|Hin].
  - by rewrite bool_decide_eq_true_2.
  - rewrite bool_decide_eq_false_2; [by apply IH|].
    intros ->. apply Hj. apply list_elem_of_fmap. by exists (i, e).
Qed.

(** X5: [create_domains] never returns an empty list: without indices it
    returns the one domain without inames, otherwise one domain per index, in
    order.  When no name occurs twice, the domain of an index of extent [E]
    makes its iname range over exactly 0, 1, ..., E-1. *)
Theorem create_domains_one_range_per_index (indices : list (string * nat)) :
  create_domains indices <> [] /\
  length (create_domains indices) = Nat.max 1 (length indices) /\
  (indices = [] -> create_domains indices = [ [] ]) /\
  lp.iname <$> concat (create_domains indices) = indices.*1 /\
  (forall knl i e,
     lp.domains knl = create_domains indices ->
     NoDup indices.*1 -> (i, e) ∈ indices ->
     lp.iname_values knl i = seq 0 e).
Proof.
  split_and!.
  - by destruct indices as [|[]].
  - destruct indices as [|[i e] indices]; [done|].
    rewrite create_domains_cons, length_fmap. done.
  - by intros ->.
  - apply create_domains_inames.
  - intros knl i e Hd Hnd Hin. unfold lp.iname_values, lp.find_range.
    rewrite Hd, (create_domains_find indices i e Hnd Hin). done.
Qed.

(** ** What [generate] assembles *)

Lemma declare_temporaries_index_extent (i : nat)
    (temps : list (gem.node * option dtype)) :
  maintains (fun c c' => index_extent c' = index_extent c) (declare_temporaries i temps).
Proof.
  revert i. induction temps as [|[temp dtype] temps IH]; intros i; cbn [declare_temporaries].
  - by apply maintains_ret.
  - apply maintains_bind; [congruence| |intros d].
    + unfold declare_temporary.
      apply maintains_bind; [congruence| |intros ?].
      * destruct (gem.is_Constant temp); [by apply maintains_ret|].
        apply maintains_bind; [congruence|by apply maintains_get|intros c].
        destruct (indices c !! node_key temp); [|by apply maintains_raise].
        apply maintains_bind; [congruence| |intros ?; by apply maintains_ret].
        apply maintains_mapM; [done|congruence|intros [?|?|?]];
          by first [apply maintains_ret|apply maintains_raise].
      * apply maintains_bind; [congruence|by apply maintains_modify|intros ?].
        by apply maintains_ret.
    + apply maintains_bind; [congruence|done|intros ?]. by apply maintains_ret.
Qed.

(** What [generate] returns, by the world the lowering leaves. *)
Lemma generate_inv (fuel : nat) (impero_c : ImperoC) (args : list lp.decl)
    (scalar_type : dtype) (kernel_name : string)
    (index_names : list ((nat + nat) * string)) (return_increments : bool)
    (before pending : option lp.kernel) (res : generated) :
  generate fuel impero_c args scalar_type kernel_name index_names
    return_increments before = (Ok res, pending) ->
  exists eps typed temps insns w0 w1 w,
    finfo_resolution scalar_type = Ok eps /\
    assign_dtypes (temporaries impero_c) scalar_type = Ok typed /\
    index_extent (ctx w0) = [] /\ matfree_solve_knl w0 = before /\
    in_ctx (declare_temporaries 0 typed) w0 = (Ok temps, w1) /\
    statement fuel (tree impero_c) w1 = (Ok insns, w) /\
    primary_kernel res =
      {| lp.name := kernel_name;
         lp.domains := create_domains (index_extent (ctx w));
         lp.instructions := assign_priorities (length insns) 0 insns;
         lp.kernel_data := args ++ temps;
         lp.loop_priority := Some (join "," (index_extent (ctx w)).*1) |}.
Proof.
  intros H. unfold generate in H.
  destruct (finfo_resolution scalar_type) as [eps|e]; [|discriminate].
  destruct (assign_dtypes _ _) as [typed|e]; [|discriminate].
  match type of H with
  | match lower_tree _ _ _ _ ?w0 with _ => _ end = _ =>
      destruct (lower_tree fuel impero_c args typed w0) as [[[data insns]|e] w] eqn:E;
        [|discriminate];
      exists eps, typed; assert (exists temps w1,
        in_ctx (declare_temporaries 0 typed) w0 = (Ok temps, w1) /\
        statement fuel (tree impero_c) w1 = (Ok insns, w) /\ data = args ++ temps)
        as (temps & w1 & E1 & E2 & ->);
        [|exists temps, insns, w0, w1, w]
  end.
  - unfold lower_tree in E. unfold bind at 1 in E.
    destruct (in_ctx _ _) as [[temps|e] w1] eqn:E1; [|discriminate].
    unfold bind at 1 in E.
    destruct (statement fuel (tree impero_c) w1) as [[i1|e] w2] eqn:E2; [|discriminate].
    injection E as <- <- <-. by exists temps, w1.
  - split_and!; try done.
    destruct (matfree_solve_knl w); injection H as <- <-; reflexivity.
Qed.

(** X6: in the kernel [generate] assembles, no iname has two domains: the
    domains are those of the extents declared during the lowering, one per
    name, and the loop priority lists the same names in the same order. *)
Theorem generate_domains_distinct
    (fuel : nat) (impero_c : ImperoC) (args : list lp.decl)
    (scalar_type : dtype) (kernel_name : string)
    (index_names : list ((nat + nat) * string)) (return_increments : bool)
    (before pending : option lp.kernel) (res : generated) :
  generate fuel impero_c args scalar_type kernel_name index_names
    return_increments before = (Ok res, pending) ->
  let knl := primary_kernel res in
  NoDup (lp.iname <$> concat (lp.domains knl)) /\
  lp.loop_priority knl = Some (join "," (lp.iname <$> concat (lp.domains knl))) /\
  forall r, r ∈ concat (lp.domains knl) ->
    exists extent, lp.upper r = lp.aff_const extent /\ lp.inclusive r = false /\
      lp.iname_values knl (lp.iname r) = seq 0 extent.
Proof.
  intros H knl. subst knl.
  apply generate_inv in H
    as (eps & typed & temps & insns & w0 & w1 & w & _ & _ & H0 & _ & E1 & E2 & ->).
  cbn [lp.domains lp.loop_priority].
  assert (NoDup (index_extent (ctx w)).*1) as Hnd.
  { apply statement_domains_grow in E2 as [_ Hnd]. apply Hnd.
    unfold in_ctx in E1.
    destruct (declare_temporaries 0 typed (ctx w0)) as [r1 c1] eqn:E.
    apply declare_temporaries_index_extent in E. injection E1 as _ <-. cbn.
    rewrite E, H0. constructor. }
  rewrite create_domains_inames. split_and!; [done..|].
  intros r Hr.
  assert (exists e, (lp.iname r, e) ∈ index_extent (ctx w) /\
            r = {| lp.iname := lp.iname r; lp.upper := lp.aff_const e;
                   lp.inclusive := false |}) as (e & Hin & Hr').
  { revert Hr. destruct (index_extent (ctx w)) as [|[i0 e0] l] eqn:El.
    - intros Hr. by apply elem_of_nil in Hr.
    - rewrite create_domains_cons. generalize ((i0, e0) :: l). clear.
      intros l. induction l as [|[i e] l IH]; intros Hr; [by apply elem_of_nil in Hr|].
      cbn in Hr. apply elem_of_cons in Hr as [->|Hr].
      + exists e. split; [apply list_elem_of_here|done].
      + destruct (IH Hr) as (e' & ? & ?). exists e'. split; [by apply list_elem_of_further|done]. }
  exists e. rewrite Hr' at 1 2. split_and!; [done..|].
  unfold lp.iname_values, lp.find_range. cbn [lp.domains].
  by rewrite (create_domains_find _ _ e Hnd Hin).
Qed.

(** ** Results of the runs that return *)

Section Returns.

Context {S : Type}.

Lemma returns_ret {A} (good : A -> Prop) (a : A) : good a -> returns good (@ret S A a).
Proof. intros Ha s a' s' H. by injection H as <- <-. Qed.

Lemma returns_raise {A} (good : A -> Prop) (e : exn) : returns good (@raise S A e).
Proof. intros s a s' H. discriminate. Qed.

Lemma returns_bind {A B} (good : B -> Prop) (m : M S A) (k : A -> M S B) :
  (forall a, returns good (k a)) -> returns good (bind m k).
Proof.
  intros Hk s b s' H. unfold bind in H.
  destruct (m s) as [[a|e] s1]; [by eapply Hk|discriminate].
Qed.

Lemma returns_mapM {A B} (good : B -> Prop) (f : A -> M S B) (l : list A) :
  (forall a, returns good (f a)) -> returns (Forall good) (mapM f l).
Proof.
  intros Hf. induction l as [|a l IH]; cbn [mapM].
  - by apply returns_ret.
  - intros s bs s' H. unfold bind at 1 in H.
    destruct (f a s) as [[b|e] s1] eqn:E; [|discriminate]. apply Hf in E.
    unfold bind at 1 in H.
    destruct (mapM f l s1) as [[bs'|e] s2] eqn:E'; [|discriminate]. apply IH in E'.
    injection H as <- <-. by constructor.
Qed.

Lemma mapM_length {A B} (f : A -> M S B) (l : list A) :
  returns (fun bs => length bs = length l) (mapM f l).
Proof.
  induction l as [|a l IH]; cbn [mapM].
  - by apply returns_ret.
  - apply returns_bind. intros b s bs s' H. unfold bind at 1 in H.
    destruct (mapM f l s) as [[bs'|e] s2] eqn:E'; [|discriminate]. apply IH in E'.
    injection H as <- <-. cbn. by rewrite E'.
Qed.

End Returns.

Lemma returns_in_ctx {A} (good : A -> Prop) (m : M LoopyContext A) :
  returns good m -> returns good (in_ctx m).
Proof.
  intros Hm w a w' H. unfold in_ctx in H.
  destruct (m (ctx w)) as [r c] eqn:E. injection H as -> <-. by eapply Hm.
Qed.

(** A scope that returns: the body returned in the activated world, and the
    keys were popped from what it left. *)
Lemma with_active_indices_ok {A} (mapping : list (nat * string)) (body : M World A)
    (w w' : World) (a : A) :
  with_active_indices mapping body w = (Ok a, w') ->
  exists w1, body (activated mapping w) = (Ok a, w1) /\
    w' = {| ctx := set_active_indices
                     (fun m => foldl (fun m k => delete k m) m mapping.*1) (ctx w1);
            matfree_solve_knl := matfree_solve_knl w1 |}.
Proof.
  intros H. unfold with_active_indices in H.
  change ((in_ctx (modify (set_active_indices (update_mapping mapping))) ;;; body) w)
    with (body (activated mapping w)) in H.
  destruct (body (activated mapping w)) as [[a1|e] w1] eqn:Hb; [|discriminate].
  unfold in_ctx in H.
  destruct (pop_keys mapping.*1 (ctx w1)) as [[[]|e] c'] eqn:Hp; [|discriminate].
  injection H as <- <-. apply pop_keys_ok in Hp. subst c'. by exists w1.
Qed.

Lemma returns_with_active_indices {A} (good : A -> Prop)
    (mapping : list (nat * string)) (body : M World A) :
  returns good body -> returns good (with_active_indices mapping body).
Proof.
  intros Hb w a w' H. apply with_active_indices_ok in H as (w1 & H & _). by eapply Hb.
Qed.

Ltac returning :=
  repeat first
    [ apply returns_raise
    | apply returns_ret; solve [repeat constructor]
    | apply returns_in_ctx
    | apply returns_with_active_indices
    | apply returns_bind; intros ?
    | match goal with
      | |- returns _ (match ?x with _ => _ end) => destruct x
      end ].

(** ** The instructions a tree is lowered to *)

Lemma statement_evaluate_unprioritised (fuel : nat) (expr : gem.node) :
  returns (Forall unprioritised) (statement_evaluate fuel expr).
Proof.
  destruct expr; unfold statement_evaluate; returning.
  apply returns_mapM. intros [multiindex value]. returning.
Qed.

Lemma statement_unprioritised (fuel : nat) (t : imp.tree) :
  returns (Forall unprioritised) (statement fuel t).
Proof.
  induction t as [children IH| index body IH| | | | | expr |] using tree_induction;
    cbn [statement].
  - induction IH as [|c cs Hc _ IHcs]; [by apply returns_ret|].
    intros w insns w' H. unfold bind at 1 in H.
    destruct (statement fuel c w) as [[i1|e] w1] eqn:E1; [|discriminate]. apply Hc in E1.
    unfold bind at 1 in H.
    match type of H with
    | match ?m w1 with _ => _ end = _ => destruct (m w1) as [[i2|e] w2] eqn:E2; [|discriminate]
    end.
    apply IHcs in E2. injection H as <- <-. by apply Forall_app.
  - returning. done.
  - unfold statement_initialise. returning.
  - unfold statement_accumulate. returning.
  - unfold statement_return. returning.
  - unfold statement_returnaccumulate. returning.
  - apply statement_evaluate_unprioritised.
  - apply returns_raise.
Qed.

Lemma assign_priorities_lookup (len i : nat) (insns : list lp.instruction)
    (j : nat) (insn : lp.instruction) :
  assign_priorities len i insns !! j = Some insn <->
  exists insn0, insns !! j = Some insn0 /\ insn = lp.set_priority (len - (i + j)) insn0.
Proof.
  revert i j. induction insns as [|x insns IH]; intros i j; cbn [assign_priorities].
  - split; [done|]. by intros (? & ? & _).
  - destruct j as [|j]; cbn.
    + rewrite Nat.add_0_r. split.
      * intros [= <-]. by exists x.
      * by intros (? & [= <-] & ->).
    + rewrite IH. by replace (i + S j) with (S i + j) by lia.
Qed.

Lemma assign_priorities_length (len i : nat) (insns : list lp.instruction) :
  length (assign_priorities len i insns) = length insns.
Proof. revert i. induction insns as [|x insns IH]; intros i; cbn; [done|]. by rewrite IH. Qed.

(** X7: the kernel [generate] returns has one instruction per lowered
    statement instruction, each an assignment or a call, and the instruction
    at position [j] of [n] has priority [n - j]: priorities fall strictly in
    emission order, from [n] for the first to 1 for the last. *)
Theorem generate_priorities_fall
    (fuel : nat) (impero_c : ImperoC) (args : list lp.decl)
    (scalar_type : dtype) (kernel_name : string)
    (index_names : list ((nat + nat) * string)) (return_increments : bool)
    (before pending : option lp.kernel) (res : generated) :
  generate fuel impero_c args scalar_type kernel_name index_names
    return_increments before = (Ok res, pending) ->
  let insns := lp.instructions (primary_kernel res) in
  forall j insn, insns !! j = Some insn ->
    priority_of insn = Some (length insns - j) /\ 1 <= length insns - j.
Proof.
  intros H insns j insn Hj. subst insns.
  apply generate_inv in H
    as (eps & typed & temps & insns & w0 & w1 & w & _ & _ & _ & _ & _ & E2 & Hk).
  rewrite Hk in Hj |- *. cbn [lp.instructions] in *.
  rewrite assign_priorities_length.
  apply assign_priorities_lookup in Hj as (insn0 & Hj & ->).
  apply statement_unprioritised in E2.
  pose proof (proj1 (Forall_lookup _ _) E2 _ _ Hj) as H0.
  apply lookup_lt_Some in Hj. split; [|lia].
  unfold unprioritised in H0. by destruct insn0.
Qed.

(** ** States of the runs that return *)

Section Hoare.

Context {S : Type}.

Lemma hoare_ret {A} (P : S -> Prop) (Q : A -> S -> Prop) (a : A) :
  (forall s, P s -> Q a s) -> hoare P (ret a) Q.
Proof. intros HQ s a' s' Hs H. injection H as <- <-. by apply HQ. Qed.

Lemma hoare_raise {A} (P : S -> Prop) (Q : A -> S -> Prop) (e : exn) :
  hoare P (raise e) Q.
Proof. intros s a s' _ H. discriminate. Qed.

Lemma hoare_bind {A B} (P : S -> Prop) (Q1 : A -> S -> Prop) (Q : B -> S -> Prop)
    (m : M S A) (k : A -> M S B) :
  hoare P m Q1 -> (forall a, hoare (Q1 a) (k a) Q) -> hoare P (bind m k) Q.
Proof.
  intros Hm Hk s b s' Hs H. unfold bind in H.
  destruct (m s) as [[a|e] s1] eqn:E; [|discriminate].
  eapply Hk; [|exact H]. by eapply Hm.
Qed.

Lemma hoare_get_bind {B} (P : S -> Prop) (Q : B -> S -> Prop) (k : S -> M S B) :
  (forall s0, hoare P (k s0) Q) -> hoare P (bind get k) Q.
Proof. intros Hk s b s' Hs H. eapply (Hk s); [exact Hs|exact H]. Qed.

(** A step that maintains a relation under which [P] is stable. *)
Lemma hoare_keep_bind {A B} (R : S -> S -> Prop) (P : S -> Prop)
    (Q : B -> S -> Prop) (m : M S A) (k : A -> M S B) :
  (forall s s', P s -> R s s' -> P s') ->
  maintains R m -> (forall a, hoare P (k a) Q) -> hoare P (bind m k) Q.
Proof.
  intros HP Hm Hk. apply hoare_bind with (Q1 := fun _ => P); [|done].
  intros s a s' Hs H. apply Hm in H. by eapply HP.
Qed.

Lemma hoare_mapM {A B} (I : S -> Prop) (good : B -> Prop) (f : A -> M S B)
    (l : list A) :
  (forall a, hoare I (f a) (fun b s => I s /\ good b)) ->
  hoare I (mapM f l) (fun bs s => I s /\ Forall good bs).
Proof.
  intros Hf. induction l as [|a l IH]; cbn [mapM].
  - by apply hoare_ret.
  - intros s bs s' Hs H. unfold bind at 1 in H.
    destruct (f a s) as [[b|e] s1] eqn:E; [|discriminate].
    apply Hf in E as [Hs1 Hb]; [|done].
    unfold bind at 1 in H.
    destruct (mapM f l s1) as [[bs'|e] s2] eqn:E'; [|discriminate].
    apply IH in E' as [Hs2 Hbs]; [|done].
    injection H as <- <-. split; [done|by constructor].
Qed.

End Hoare.

Lemma hoare_in_ctx {A} (P : LoopyContext -> Prop) (Q : A -> LoopyContext -> Prop)
    (m : M LoopyContext A) :
  hoare P m Q -> hoare (fun w => P (ctx w)) (in_ctx m) (fun a w => Q a (ctx w)).
Proof.
  intros Hm w a w' Hw H. unfold in_ctx in H.
  destruct (m (ctx w)) as [r c] eqn:E. injection H as -> <-. by eapply Hm.
Qed.

(** ** Scopes of active indices *)

Lemma same_active_refl (c : LoopyContext) : same_active c c.
Proof. done. Qed.

Lemma same_active_trans (c1 c2 c3 : LoopyContext) :
  same_active c1 c2 -> same_active c2 c3 -> same_active c1 c3.
Proof. unfold same_active. congruence. Qed.

Lemma same_active_name_gen (based_on : string) :
  maintains same_active (name_gen_call based_on).
Proof. intros c r c' H. by apply name_gen_call_inv in H as (v & _ & _ & ->). Qed.

Lemma same_active_gem_to_pym_var (node : gem.node) :
  maintains same_active (_gem_to_pym_var node).
Proof.
  intros c r c' H. by apply _gem_to_pym_var_step in H as [->|(v & _ & _ & ->)].
Qed.

Lemma same_active_index_extent (name : string) (extent : nat) (c : LoopyContext) :
  same_active c (set_index_extent (od_set name extent) c).
Proof. done. Qed.

Lemma same_active_expression (fuel : nat) (top : bool) (expr : gem.node) :
  maintains same_active (expression fuel top expr).
Proof.
  apply expression_maintains.
  - apply same_active_refl.
  - apply same_active_trans.
  - apply same_active_gem_to_pym_var.
Qed.

Lemma active_is_stable (m0 : gmap nat string) (c c' : LoopyContext) :
  active_is m0 c -> same_active c c' -> active_is m0 c'.
Proof. unfold active_is, same_active. congruence. Qed.

Lemma active_is_stable_world (m0 : gmap nat string) (w w' : World) :
  active_is m0 (ctx w) -> on_ctx same_active w w' -> active_is m0 (ctx w').
Proof. apply active_is_stable. Qed.

Lemma hoare_inames_bind {B} (m0 : gmap nat string) (Q : B -> LoopyContext -> Prop)
    (k : gset string -> M LoopyContext B) :
  hoare (active_is m0) (k (inames_of m0)) Q ->
  hoare (active_is m0) (bind active_inames k) Q.
Proof.
  intros Hk c b c' Hc H. unfold active_inames, bind, get, ret in H.
  rewrite Hc in H. by eapply Hk.
Qed.

Lemma hoare_inames_bind_world {B} (m0 : gmap nat string) (Q : B -> World -> Prop)
    (k : gset string -> M World B) :
  hoare (fun w => active_is m0 (ctx w)) (k (inames_of m0)) Q ->
  hoare (fun w => active_is m0 (ctx w)) (bind (in_ctx active_inames) k) Q.
Proof.
  intros Hk w b w' Hw H.
  unfold active_inames, in_ctx, bind, get, ret in H. cbn in H.
  rewrite Hw in H. destruct w. by eapply Hk.
Qed.

Lemma elem_of_inames_of (m : gmap nat string) (v : string) :
  v ∈ inames_of m <-> exists k, m !! k = Some v.
Proof.
  unfold inames_of. rewrite elem_of_list_to_set, list_elem_of_fmap. split.
  - intros ([k v'] & -> & H). exists k. by apply elem_of_map_to_list.
  - intros (k & H). exists (k, v). split; [done|]. by apply elem_of_map_to_list.
Qed.

Lemma tagged_weaken (m0 m1 : gmap nat string) (insn : lp.instruction) :
  m0 ⊆ m1 -> tagged m1 insn -> tagged m0 insn.
Proof.
  intros Hm H v Hv. apply H. apply elem_of_inames_of in Hv as (k & Hk).
  apply elem_of_inames_of. exists k. by eapply lookup_weaken.
Qed.

Lemma update_mapping_lookup_ne (mapping : list (nat * string)) (m : gmap nat string)
    (k : nat) :
  k ∉ mapping.*1 -> update_mapping mapping m !! k = m !! k.
Proof.
  unfold update_mapping. revert m.
  induction mapping as [|[k' v] mapping IH]; intros m Hk; [done|].
  cbn in *. apply not_elem_of_cons in Hk as [Hne Hk].
  rewrite IH by done. by rewrite lookup_insert_ne.
Qed.

Lemma foldl_delete_lookup_ne (keys : list nat) (m : gmap nat string) (k : nat) :
  k ∉ keys -> foldl (fun m k => delete k m) m keys !! k = m !! k.
Proof.
  revert m. induction keys as [|k' keys IH]; intros m Hk; [done|].
  cbn. apply not_elem_of_cons in Hk as [Hne Hk].
  rewrite IH by done. by rewrite lookup_delete_ne.
Qed.

(** Popping after pushing fresh keys gives the mapping back. *)
Lemma pop_update_mapping (mapping : list (nat * string)) (m : gmap nat string) :
  (forall k, k ∈ mapping.*1 -> m !! k = None) ->
  foldl (fun m k => delete k m) (update_mapping mapping m) mapping.*1 = m.
Proof.
  intros Hfresh. apply map_eq. intros k.
  destruct (decide (k ∈ mapping.*1)) as [Hk|Hk].
  - rewrite lookup_foldl_delete by done. symmetry. by apply Hfresh.
  - rewrite foldl_delete_lookup_ne by done. by apply update_mapping_lookup_ne.
Qed.

Lemma update_mapping_fresh_subseteq (mapping : list (nat * string))
    (m : gmap nat string) :
  (forall k, k ∈ mapping.*1 -> m !! k = None) -> m ⊆ update_mapping mapping m.
Proof.
  intros Hfresh. apply map_subseteq_spec. intros k v Hk.
  rewrite update_mapping_lookup_ne; [done|].
  intros Hin. apply Hfresh in Hin. congruence.
Qed.

(** A scope over fresh keys around a body that keeps its own scopes. *)
Lemma with_active_indices_scoped (m0 : gmap nat string)
    (mapping : list (nat * string)) (body : M World (list lp.instruction)) :
  (forall k, k ∈ mapping.*1 -> m0 !! k = None) ->
  hoare (fun w => active_is (update_mapping mapping m0) (ctx w)) body
    (fun insns w => scoped (update_mapping mapping m0) insns (ctx w)) ->
  hoare (fun w => active_is m0 (ctx w)) (with_active_indices mapping body)
    (fun insns w => scoped m0 insns (ctx w)).
Proof.
  intros Hfresh Hb w insns w' Hw H.
  apply with_active_indices_ok in H as (w1 & H & ->).
  apply Hb in H as [H1 Ht]; [|unfold active_is, activated; cbn; by rewrite Hw].
  split.
  - unfold active_is in *. cbn. rewrite H1. by apply pop_update_mapping.
  - eapply Forall_impl; [exact Ht|]. intros insn.
    by apply tagged_weaken, update_mapping_fresh_subseteq.
Qed.

Lemma dict_of_pairs_keys {V} (pairs acc : list (nat * V)) (k : nat) :
  k ∈ (dict_of_pairs pairs acc).*1 -> k ∈ pairs.*1 \/ k ∈ acc.*1.
Proof.
  revert acc. induction pairs as [|[k0 v0] pairs IH]; intros acc Hk; [by right|].
  cbn [dict_of_pairs] in Hk. apply IH in Hk as [Hk|Hk].
  - left. cbn. by apply list_elem_of_further.
  - case_bool_decide as Hin.
    + right. apply list_elem_of_fmap in Hk as ([k1 v1] & -> & Hk).
      apply list_elem_of_fmap in Hk as ([k2 v2] & Hk & H2).
      apply list_elem_of_fmap. exists (k2, v2). split; [|done].
      cbn in Hk. case_bool_decide as E; cbn in *; congruence.
    + rewrite fmap_app in Hk. apply elem_of_app in Hk as [Hk|Hk]; [by right|].
      left. cbn in Hk. apply list_elem_of_singleton in Hk as ->. cbn.
      apply list_elem_of_here.
Qed.

Ltac scoping :=
  repeat first
    [ match goal with
      | |- hoare _ (raise _) _ => apply hoare_raise
      | |- hoare _ (ret _) _ =>
          apply hoare_ret; intros ? ?; split;
            [assumption
            |first [apply Forall_nil_2
                   |apply Forall_cons_2; [unfold tagged; cbn; reflexivity
                                         |apply Forall_nil_2]]]
      | |- hoare _ (bind active_inames _) _ => apply hoare_inames_bind
      | |- hoare _ (bind (in_ctx active_inames) _) _ => apply hoare_inames_bind_world
      | |- hoare _ (bind get _) _ => apply hoare_get_bind; intros ?
      | |- hoare (active_is _) (bind _ _) _ =>
          apply (hoare_keep_bind same_active);
            [apply active_is_stable|solve [auto]|intros ?]
      | |- hoare _ (bind _ _) _ =>
          apply (hoare_keep_bind (on_ctx same_active));
            [apply active_is_stable_world|solve [auto]|intros ?]
      | |- hoare _ (match ?x with _ => _ end) _ => destruct x
      end
    | progress cbv zeta ].

Lemma statement_leaf_scoped (fuel : nat) (m0 : gmap nat string) :
  (forall s, hoare (active_is m0) (statement_initialise fuel s) (scoped m0)) /\
  (forall s, hoare (active_is m0) (statement_accumulate fuel s) (scoped m0)) /\
  (forall v e, hoare (active_is m0) (statement_return fuel v e) (scoped m0)) /\
  (forall v s, hoare (active_is m0) (statement_returnaccumulate fuel v s) (scoped m0)).
Proof.
  pose proof (same_active_expression fuel) as He.
  split_and!; intros; unfold statement_initialise, statement_accumulate,
    statement_return, statement_returnaccumulate, scoped; scoping.
Qed.

Lemma same_active_sub_array_ref (fuel : nat) (node : gem.node) :
  maintains same_active (sub_array_ref fuel node).
Proof.
  apply sub_array_ref_maintains.
  - apply same_active_refl.
  - apply same_active_trans.
  - apply same_active_name_gen.
  - apply same_active_gem_to_pym_var.
  - apply same_active_index_extent.
  - done.
Qed.

Lemma same_active_pymbolic_variable (fuel : nat) (node : gem.node) :
  maintains same_active (pymbolic_variable (expression fuel false) node).
Proof.
  apply pymbolic_variable_maintains.
  - apply same_active_refl.
  - apply same_active_trans.
  - apply same_active_gem_to_pym_var.
  - intros e. apply same_active_expression.
Qed.

Lemma same_active_destruct (fuel : nat) (node : gem.node) :
  maintains same_active (pymbolic_variable_and_destruct (expression fuel false) node).
Proof.
  unfold pymbolic_variable_and_destruct.
  apply maintains_bind;
    [apply same_active_trans|apply same_active_pymbolic_variable|intros pym].
  destruct pym; apply maintains_ret, same_active_refl.
Qed.

Lemma same_active_call_operands (fuel : nat) (node : gem.node)
    (operands : list gem.node) :
  maintains same_active (call_operands fuel node operands).
Proof.
  pose proof same_active_refl. pose proof same_active_trans.
  pose proof (same_active_sub_array_ref fuel).
  unfold call_operands. maintaining.
Qed.

Lemma same_active_in_ctx {A} (m : M LoopyContext A) :
  maintains same_active m -> maintains (on_ctx same_active) (in_ctx m).
Proof. apply in_ctx_maintains. Qed.

Lemma statement_evaluate_scoped (fuel : nat) (expr : gem.node) (m0 : gmap nat string) :
  scopes_fresh (dom m0) (imp.Evaluate expr) ->
  hoare (fun w => active_is m0 (ctx w)) (statement_evaluate fuel expr)
    (fun insns w => scoped m0 insns (ctx w)).
Proof.
  intros Hfresh.
  pose proof (same_active_expression fuel) as He.
  pose proof (fun node => same_active_in_ctx _ (same_active_destruct fuel node)) as Hd.
  pose proof (fun node ops =>
    same_active_in_ctx _ (same_active_call_operands fuel node ops)) as Hc.
  pose proof (same_active_pymbolic_variable fuel) as Hp.
  assert (forall lhs reads shape,
    maintains (on_ctx same_active) (loopy_matfree_solve lhs reads shape)) as Hm.
  { intros. apply loopy_matfree_solve_maintains, same_active_refl. }
  destruct expr; unfold statement_evaluate, scoped;
    try (scoping; apply (hoare_in_ctx (active_is m0) (scoped m0));
         unfold scoped; by scoping); try by scoping.
  - (* ComponentTensor *)
    apply (hoare_keep_bind (on_ctx same_active));
      [apply active_is_stable_world| |intros idx].
    { apply same_active_in_ctx, gem_to_pym_multiindex_maintains.
      - apply same_active_refl.
      - apply same_active_trans.
      - apply same_active_name_gen.
      - apply same_active_index_extent.
      - done. }
    scoping. apply with_active_indices_scoped.
    + intros k Hk. apply dict_of_pairs_keys in Hk as [Hk|Hk];
        [|by apply elem_of_nil in Hk].
      apply list_elem_of_fmap in Hk as ([k' v] & -> & Hk).
      apply elem_of_zip_l, list_elem_of_fmap in Hk as (index & -> & Hi).
      cbn in Hfresh. apply not_elem_of_dom.
      by apply (proj1 (Forall_forall _ _) Hfresh).
    + apply (hoare_in_ctx (active_is _) (scoped _)). unfold scoped. by scoping.
  - (* ListTensor *)
    scoping. apply (hoare_in_ctx (active_is m0) (scoped m0)).
    apply hoare_mapM. intros [multiindex value]. scoping.
    apply hoare_ret. intros c Hc'. split; [done|]. unfold tagged. by cbn.
Qed.

(** A tree whose scopes are fresh, lowered under the active indices [m0]. *)
Lemma statement_scoped (fuel : nat) (t : imp.tree) (m0 : gmap nat string) :
  scopes_fresh (dom m0) t ->
  hoare (fun w => active_is m0 (ctx w)) (statement fuel t)
    (fun insns w => scoped m0 insns (ctx w)).
Proof.
  revert m0.
  induction t as [children IH| index body IH| | | | | expr |] using tree_induction;
    intros m0 Hfresh; destruct (statement_leaf_scoped fuel m0) as (Hi & Ha & Hr & Hra);
    cbn [statement].
  - cbn in Hfresh. induction IH as [|c cs Hc _ IHcs].
    + by apply hoare_ret.
    + destruct Hfresh as [Hf1 Hf2].
      intros w insns w' Hw H. unfold bind at 1 in H.
      destruct (statement fuel c w) as [[i1|e] w1] eqn:E1; [|discriminate].
      destruct (Hc m0 Hf1 w i1 w1 Hw E1) as [Hw1 Ht1].
      unfold bind at 1 in H.
      match type of H with
      | match ?m w1 with _ => _ end = _ =>
          destruct (m w1) as [[i2|e] w2] eqn:E2; [|discriminate]
      end.
      destruct (IHcs Hf2 w1 i2 w2 Hw1 E2) as [Hw2 Ht2].
      injection H as <- <-. split; [done|by apply Forall_app].
  - destruct Hfresh as [Hf1 Hf2].
    destruct (gem.extent index) as [[|extent]|]; try apply hoare_raise.
    apply (hoare_keep_bind (on_ctx same_active));
      [apply active_is_stable_world| |intros idx].
    { apply same_active_in_ctx.
      pose proof same_active_refl. pose proof same_active_trans.
      pose proof same_active_name_gen.
      assert (forall key, maintains same_active (index_names_get key)) as Hget.
      { intros key. by apply index_names_get_maintains. }
      maintaining. }
    apply (hoare_keep_bind (on_ctx same_active));
      [apply active_is_stable_world| |intros ?].
    { apply same_active_in_ctx. by apply maintains_modify. }
    apply with_active_indices_scoped.
    + intros k Hk. cbn in Hk. apply list_elem_of_singleton in Hk as ->.
      by apply not_elem_of_dom.
    + cbn. apply IH. by rewrite dom_insert_L.
  - by apply (hoare_in_ctx (active_is m0) (scoped m0)).
  - by apply (hoare_in_ctx (active_is m0) (scoped m0)).
  - by apply (hoare_in_ctx (active_is m0) (scoped m0)).
  - by apply (hoare_in_ctx (active_is m0) (scoped m0)).
  - by apply statement_evaluate_scoped.
  - apply hoare_raise.
Qed.

(** X8: the scopes of a statement tree are strictly nested when no loop and
    no component tensor binds an index already active: if the tree is lowered
    without exception, the active indices are afterwards exactly those at
    entry. *)
Theorem statement_restores_active_indices
    (fuel : nat) (t : imp.tree) (w w' : World) (insns : list lp.instruction) :
  scopes_fresh (dom (active_indices (ctx w))) t ->
  statement fuel t w = (Ok insns, w') ->
  active_indices (ctx w') = active_indices (ctx w).
Proof.
  intros Hfresh H. by apply (statement_scoped _ _ _ Hfresh) in H as [H _].
Qed.

(** X9: under the same condition, every instruction a tree is lowered to is
    nested in the inames of all the indices active around the tree. *)
Theorem statement_instructions_within_active_inames
    (fuel : nat) (t : imp.tree) (w w' : World) (insns : list lp.instruction) :
  scopes_fresh (dom (active_indices (ctx w))) t ->
  statement fuel t w = (Ok insns, w') ->
  forall insn v k, insn ∈ insns -> active_indices (ctx w) !! k = Some v ->
    v ∈ within_inames_of insn.
Proof.
  intros Hfresh H insn v k Hin Hk.
  apply (statement_scoped _ _ _ Hfresh) in H as [_ H]; [|done].
  apply (proj1 (Forall_forall _ _) H) in Hin. apply Hin.
  apply elem_of_inames_of. by exists k.
Qed.

(** ** The dtypes of the temporaries *)

Lemma foldl_union_subseteq (s : gset dtype) (rest : list (gset dtype)) :
  s ⊆ foldl (∪) s rest.
Proof.
  revert s. induction rest as [|t rest IH]; intros s; [done|].
  cbn. etrans; [|apply IH]. set_solver.
Qed.

Lemma set_union_nonempty (sets : list (gset dtype)) (s : gset dtype) :
  set_union sets = Ok s ->
  match sets with [] => False | s0 :: _ => s0 ⊆ s end.
Proof.
  destruct sets as [|s0 rest]; [discriminate|]. intros [= <-].
  apply foldl_union_subseteq.
Qed.

Lemma _assign_dtype_nonempty (scalar_type real_type : dtype) (e : gem.node)
    (s : gset dtype) :
  _assign_dtype scalar_type real_type e = Ok s -> s <> ∅.
Proof.
  revert e s. fix IH 1. intros e s.
  assert (forall c rest r s',
    _assign_dtype scalar_type real_type c = r ->
    (forall s0, r = Ok s0 -> s0 <> ∅) ->
    match match r with
          | Ok a => match sequence_result rest with
                    | Ok l => Ok (a :: l) | Raise x => Raise x end
          | Raise x => Raise x
          end with
    | Ok sets => set_union sets
    | Raise x => Raise x
    end = Ok s' -> s' <> ∅) as Hunion.
  { intros c rest r s' _ Hr H. destruct r as [s0|]; [|discriminate].
    destruct (sequence_result rest) as [l|]; [|discriminate].
    apply set_union_nonempty in H. intros ->. apply (Hr s0 eq_refl).
    by apply leibniz_equiv, equiv_empty. }
  destruct e as [ | | | | | |? a b|? a b|? a b| |? name cs| | | | | | |? c t e'
                |? a ?|? a ?|? ? a ?|? a ?|? ? cs|? a|? ? cs|? ? cs ?];
    cbn [_assign_dtype]; try (intros [= <-]; apply non_empty_singleton_L).
  - eapply Hunion; [reflexivity|apply IH].
  - eapply Hunion; [reflexivity|apply IH].
  - eapply Hunion; [reflexivity|apply IH].
  - repeat case_bool_decide; try (intros [= <-]; apply non_empty_singleton_L).
    destruct cs as [|c cs]; [discriminate|].
    cbn [sequence_result]. eapply Hunion; [reflexivity|apply IH].
  - eapply Hunion; [reflexivity|apply IH].
  - eapply Hunion; [reflexivity|apply IH].
  - eapply Hunion; [reflexivity|apply IH].
  - eapply Hunion; [reflexivity|apply IH].
  - eapply Hunion; [reflexivity|apply IH].
  - destruct cs as [|c cs]; [discriminate|].
    cbn [sequence_result]. eapply Hunion; [reflexivity|apply IH].
  - eapply Hunion; [reflexivity|apply IH].
  - destruct cs as [|c cs]; [discriminate|].
    cbn [sequence_result]. eapply Hunion; [reflexivity|apply IH].
  - destruct cs as [|c cs]; [discriminate|].
    cbn [sequence_result]. eapply Hunion; [reflexivity|apply IH].
Qed.

Lemma find_common_type_total (types : list dtype) :
  types <> [] ->
  exists d, find_common_type types = Some d /\
    forall x, x ∈ types -> can_cast x d = true.
Proof.
  intros Hne. destruct types as [|a [|b rest]]; [done| |].
  - exists a. split; [done|]. intros x Hx%list_elem_of_singleton. subst x. by destruct a.
  - unfold find_common_type.
    destruct (List.find _ test_types) as [d|] eqn:Hf.
    + exists d. split; [done|]. apply find_some in Hf as [_ Hf].
      intros x Hx. rewrite forallb_forall in Hf. apply Hf.
      by apply list_elem_of_In.
    + exfalso. pose proof (find_none _ _ Hf complex128) as Hn. cbn beta in Hn.
      rewrite (proj2 (forallb_forall _ _)) in Hn.
      * assert (In complex128 test_types) as Hin by (cbn; tauto).
        apply Hn in Hin. discriminate.
      * intros x _. by destruct x.
Qed.

Lemma sequence_result_map {A B} (f : A -> result B) (l : list A) (r : list B) :
  sequence_result (List.map f l) = Ok r -> Forall2 (fun a b => f a = Ok b) l r.
Proof.
  revert r. induction l as [|a l IH]; intros r H; cbn in H.
  - injection H as <-. constructor.
  - destruct (f a) as [b|] eqn:E; [|discriminate].
    destruct (sequence_result (List.map f l)) as [r'|]; [|discriminate].
    injection H as <-. constructor; [done|by apply IH].
Qed.

Lemma assign_dtypes_inv
    (expressions : list gem.node) (scalar_type : dtype)
    (typed : list (gem.node * option dtype)) :
  assign_dtypes expressions scalar_type = Ok typed ->
  typed.*1 = expressions /\
  exists real_type, finfo_dtype scalar_type = Ok real_type /\
    forall e dt, (e, dt) ∈ typed ->
      exists d s, dt = Some d /\
        _assign_dtype scalar_type real_type e = Ok s /\
        forall x, x ∈ s -> can_cast x d = true.
Proof.
  unfold assign_dtypes. intros H.
  destruct (finfo_dtype scalar_type) as [real_type|]; [|discriminate].
  apply sequence_result_map in H. split.
  - induction H as [|e [e' dt] l r He _ IH]; [done|]. cbn. f_equal; [|done].
    destruct (_assign_dtype _ _ e); [|discriminate]. by injection He as <- _.
  - exists real_type. split; [done|]. intros e dt Hin.
    apply list_elem_of_lookup in Hin as (j & Hj).
    destruct (Forall2_lookup_r _ _ _ _ _ H Hj) as (e0 & _ & He).
    destruct (_assign_dtype scalar_type real_type e0) as [s|] eqn:Hs; [|discriminate].
    injection He as -> <-.
    destruct (find_common_type_total (elements s)) as (d & Hd & Hcast).
    { intros Hnil. apply elements_empty_inv in Hnil.
      by apply _assign_dtype_nonempty in Hs; apply Hs, leibniz_equiv. }
    exists d, s. split_and!; [done..|]. intros x Hx. apply Hcast. by apply elem_of_elements.
Qed.

(** X10: when [assign_dtypes] returns, it returns the expressions in their
    order, and every one of them has a dtype, never [None]: a type to which
    each type inferred for the expression casts safely. *)
Theorem assign_dtypes_total_on_inferred
    (expressions : list gem.node) (scalar_type : dtype)
    (typed : list (gem.node * option dtype)) :
  assign_dtypes expressions scalar_type = Ok typed ->
  typed.*1 = expressions /\
  exists real_type, finfo_dtype scalar_type = Ok real_type /\
    forall e dt, (e, dt) ∈ typed ->
      exists d s, dt = Some d /\
        _assign_dtype scalar_type real_type e = Ok s /\
        forall x, x ∈ s -> can_cast x d = true.
Proof. apply assign_dtypes_inv. Qed.

(** ** A loop over an index that is already active *)

Lemma statement_for_unbinds (fuel : nat) (index : gem.Index) (body : imp.tree)
    (w w' : World) (insns : list lp.instruction) :
  statement fuel (imp.For index body) w = (Ok insns, w') ->
  active_indices (ctx w') !! gem.iid index = None.
Proof.
  cbn [statement]. destruct (gem.extent index) as [[|extent]|]; try discriminate.
  intros H. unfold bind at 1 in H.
  destruct (in_ctx _ w) as [[idx|e] w1]; [|discriminate].
  unfold bind at 1 in H.
  destruct (in_ctx _ w1) as [[[]|e] w2]; [|discriminate].
  apply with_active_indices_ok in H as (w3 & _ & ->). cbn.
  apply lookup_delete_eq.
Qed.

(** X11: a loop directly nested in a loop over the same index is never
    lowered: the inner loop unbinds the index on its exit, and the outer
    loop fails on popping it. *)
Theorem statement_for_same_index_raises
    (fuel : nat) (index : gem.Index) (body : imp.tree) (w w' : World)
    (r : result (list lp.instruction)) :
  statement fuel (imp.For index (imp.For index body)) w = (r, w') ->
  exists e, r = Raise e.
Proof.
  intros H. destruct r as [insns|e]; [exfalso|by exists e].
  remember (imp.For index body) as inner eqn:Hinner.
  cbn [statement] in H. destruct (gem.extent index) as [[|extent]|]; try discriminate.
  unfold bind at 1 in H.
  destruct (in_ctx _ w) as [[idx|e] w1]; [|discriminate].
  unfold bind at 1 in H.
  destruct (in_ctx _ w1) as [[[]|e] w2]; [|discriminate].
  unfold with_active_indices in H.
  change ((in_ctx (modify (set_active_indices (update_mapping [(gem.iid index, idx)])))
             ;;; statement fuel inner) w2)
    with (statement fuel inner (activated [(gem.iid index, idx)] w2)) in H.
  destruct (statement fuel inner _) as [[a|e] w3] eqn:Hb; [|discriminate].
  subst inner. apply statement_for_unbinds in Hb.
  unfold in_ctx in H. cbn in H. unfold bind, get in H. rewrite Hb in H. discriminate.
Qed.

(** ** The temporaries *)

Lemma declare_temporary_inv (i : nat) (temp : gem.node) (dt : option dtype)
    (c c' : LoopyContext) (d : lp.decl) :
  declare_temporary i temp dt c = (Ok d, c') ->
  lp.decl_name d = "t" +:+ pretty i /\ lp.decl_dtype d = dt /\
  c' = set_gem_to_pymbolic <[ node_key temp := "t" +:+ pretty i ]> c.
Proof.
  unfold declare_temporary. intros H. unfold bind at 1 in H.
  match type of H with
  | match ?m c with _ => _ end = _ => destruct (m c) as [[d0|e] c0] eqn:E; [|discriminate]
  end.
  cbn in H. injection H as <- <-.
  destruct (gem.is_Constant temp).
  - by injection E as <- <-.
  - unfold bind at 1 in E. cbn in E.
    destruct (indices c !! node_key temp) as [multiindex|]; [|discriminate].
    match type of E with
    | context [mapM ?f multiindex] =>
        assert (maintains (fun c1 c2 : LoopyContext => c2 = c1) (mapM f multiindex))
          as Hm;
        [apply maintains_mapM;
           [done|congruence|intros [?|?|?] s r s' Hs; by injection Hs as <- <-]|];
        unfold bind at 1 in E;
        destruct (mapM f multiindex c) as [[extents|e] c1] eqn:E1; [|discriminate]
    end.
    apply Hm in E1. subst c1. by injection E as <- <-.
Qed.

Lemma temporary_name_inj (i j : nat) : "t" +:+ pretty i = "t" +:+ pretty j -> i = j.
Proof. intros H. apply (inj (String.app "t")) in H. by apply (inj pretty) in H. Qed.

Lemma declare_temporaries_inv
    (i : nat) (temps : list (gem.node * option dtype)) (c c' : LoopyContext)
    (decls : list lp.decl) :
  declare_temporaries i temps c = (Ok decls, c') ->
  lp.decl_name <$> decls = (fun j => "t" +:+ pretty j) <$> seq i (length temps) /\
  lp.decl_dtype <$> decls = temps.*2 /\
  (forall k, k ∉ (node_key <$> temps.*1) ->
     gem_to_pymbolic c' !! k = gem_to_pymbolic c !! k) /\
  forall j temp dt, temps !! j = Some (temp, dt) ->
    (forall j' temp' dt', j < j' -> temps !! j' = Some (temp', dt') ->
       node_key temp' <> node_key temp) ->
    gem_to_pymbolic c' !! node_key temp = Some ("t" +:+ pretty (i + j)).
Proof.
  revert i c decls. induction temps as [|[temp dt] temps IH]; intros i c decls H.
  - injection H as <- <-. split_and!; try done.
  - cbn [declare_temporaries] in H. unfold bind at 1 in H.
    destruct (declare_temporary i temp dt c) as [[d|e] c1] eqn:E; [|discriminate].
    apply declare_temporary_inv in E as (En & Ed & ->).
    unfold bind at 1 in H.
    destruct (declare_temporaries (S i) temps _) as [[ds|e] c2] eqn:E'; [|discriminate].
    injection H as <- <-. apply IH in E' as (IHn & IHd & IHk & IHl).
    split_and!.
    + cbn. by rewrite En, IHn.
    + cbn. by rewrite Ed, IHd.
    + intros k Hk. cbn in Hk. apply not_elem_of_cons in Hk as [Hne Hk].
      rewrite IHk by done. cbn. by rewrite lookup_insert_ne.
    + intros [|j] temp0 dt0 Hj Hlater.
      * injection Hj as <- <-. rewrite IHk.
        -- cbn. rewrite Nat.add_0_r. by rewrite lookup_insert_eq.
        -- intros Hin. apply list_elem_of_fmap in Hin as (t' & Ht' & Hin).
           apply list_elem_of_fmap in Hin as ([t'' dt''] & -> & Hin).
           apply list_elem_of_lookup in Hin as (j' & Hj').
           by apply (Hlater (S j') t'' dt''); [lia|exact Hj'|].
      * replace (i + S j) with (S i + j) by lia. apply (IHl j temp0 dt0 Hj).
        intros j' temp' dt' Hlt Hj'. apply (Hlater (S j') temp' dt'); [lia|done].
Qed.

(** X12: the temporaries are declared in order under the names [t<i>],
    [t<i+1>], ..., all distinct, each with the dtype it was given; and a
    temporary is afterwards referenced by the name of its declaration,
    provided no later temporary has the same key. *)
Theorem declare_temporaries_names
    (i : nat) (temps : list (gem.node * option dtype)) (c c' : LoopyContext)
    (decls : list lp.decl) :
  declare_temporaries i temps c = (Ok decls, c') ->
  lp.decl_name <$> decls = (fun j => "t" +:+ pretty j) <$> seq i (length temps) /\
  lp.decl_dtype <$> decls = temps.*2 /\
  NoDup (lp.decl_name <$> decls) /\
  forall j temp dt, temps !! j = Some (temp, dt) ->
    (forall j' temp' dt', j < j' -> temps !! j' = Some (temp', dt') ->
       node_key temp' <> node_key temp) ->
    gem_to_pymbolic c' !! node_key temp = Some ("t" +:+ pretty (i + j)).
Proof.
  intros H. apply declare_temporaries_inv in H as (Hn & Hd & _ & Hl).
  split_and!; try done.
  rewrite Hn. apply NoDup_fmap_2; [|apply NoDup_seq].
  intros a b. apply temporary_name_inj.
Qed.

(** ** The pending kernel on every exit path *)

Section MaintainedByWorldSteps.

Variable Rw : World -> World -> Prop.
Hypothesis Rw_refl : forall w, Rw w w.
Hypothesis Rw_trans : forall w1 w2 w3, Rw w1 w2 -> Rw w2 w3 -> Rw w1 w3.
Hypothesis Rw_in_ctx : forall A (m : M LoopyContext A), maintains Rw (in_ctx m).
Hypothesis Rw_matfree :
  forall lhs reads shape, maintains Rw (loopy_matfree_solve lhs reads shape).

Lemma with_active_indices_maintains_world {A} (mapping : list (nat * string))
    (body : M World A) :
  maintains Rw body -> maintains Rw (with_active_indices mapping body).
Proof using Rw_trans Rw_in_ctx.
  intros Hb w r w' H. unfold with_active_indices in H.
  change ((in_ctx (modify (set_active_indices (update_mapping mapping))) ;;; body) w)
    with (body (activated mapping w)) in H.
  assert (Rw w (activated mapping w)) as H0.
  { by apply (Rw_in_ctx _ (modify (set_active_indices (update_mapping mapping)))
                w (Ok tt)). }
  destruct (body (activated mapping w)) as [[a|e] w1] eqn:E; apply Hb in E.
  - pose proof (Rw_in_ctx _ (pop_keys mapping.*1) w1) as Hp.
    destruct (in_ctx (pop_keys mapping.*1) w1) as [[u|e] w2];
      specialize (Hp _ _ eq_refl); injection H as <- <-;
      eapply Rw_trans; [| exact Hp | | exact Hp]; by eapply Rw_trans.
  - injection H as <- <-. by eapply Rw_trans.
Qed.

Ltac world_steps :=
  repeat first
    [ apply maintains_ret; exact Rw_refl
    | apply maintains_raise; exact Rw_refl
    | apply maintains_get; exact Rw_refl
    | apply Rw_matfree
    | apply with_active_indices_maintains_world
    | apply Rw_in_ctx
    | apply maintains_bind; [exact Rw_trans| |intros ?]
    | match goal with
      | |- maintains _ (match ?x with _ => _ end) => destruct x
      end ].

Lemma statement_maintains_world (fuel : nat) (t : imp.tree) :
  maintains Rw (statement fuel t).
Proof using Rw_refl Rw_trans Rw_in_ctx Rw_matfree.
  induction t as [children IH| index body IH| | | | | expr |] using tree_induction;
    cbn [statement].
  - induction IH as [|c cs Hc _ IHcs]; [by apply maintains_ret|].
    apply maintains_bind; [done..|intros ?].
    apply maintains_bind; [done..|intros ?]. by apply maintains_ret.
  - destruct (gem.extent index) as [[|extent]|]; try by apply maintains_raise.
    apply maintains_bind; [done|apply Rw_in_ctx|intros idx].
    apply maintains_bind; [done|apply Rw_in_ctx|intros ?].
    by apply with_active_indices_maintains_world.
  - apply Rw_in_ctx.
  - apply Rw_in_ctx.
  - apply Rw_in_ctx.
  - apply Rw_in_ctx.
  - destruct expr; unfold statement_evaluate; world_steps.
  - by apply maintains_raise.
Qed.

End MaintainedByWorldSteps.

Lemma statement_pending_kept_or_built (fuel : nat) (t : imp.tree) :
  maintains pending_kept_or_built (statement fuel t).
Proof.
  apply statement_maintains_world.
  - by left.
  - intros w1 w2 w3 [H12|H12] [H23|H23].
    + left. congruence.
    + by right.
    + right. destruct H12 as (shape & aux & ? & ?). exists shape, aux. split; congruence.
    + by right.
  - intros A m w r w' H. left. unfold in_ctx in H.
    destruct (m (ctx w)). by injection H as <- <-.
  - intros lhs reads [|n shape] w r w' H; injection H as <- <-; [by left|].
    right. by eexists (n :: shape), _.
Qed.

(** X13: a compilation that fails never resets the module variable: the
    kernel pending after a [generate] that raised is the one pending before,
    or the kernel of a matrix-free solve lowered before the failure. *)
Theorem generate_failure_keeps_pending
    (fuel : nat) (impero_c : ImperoC) (args : list lp.decl)
    (scalar_type : dtype) (kernel_name : string)
    (index_names : list ((nat + nat) * string)) (return_increments : bool)
    (before pending : option lp.kernel) (e : exn) :
  generate fuel impero_c args scalar_type kernel_name index_names
    return_increments before = (Raise e, pending) ->
  pending = before \/
  exists shape aux, matfree_cg_kernel_for shape = Some aux /\ pending = Some aux.
Proof.
  intros H. unfold generate in H.
  destruct (finfo_resolution scalar_type) as [eps|e0];
    [|injection H as <- <-; by left].
  destruct (assign_dtypes _ _) as [typed|e0]; [|injection H as <- <-; by left].
  match type of H with
  | match lower_tree _ _ _ _ ?w0 with _ => _ end = _ =>
      destruct (lower_tree fuel impero_c args typed w0) as [[[data insns]|e0] w] eqn:E
  end.
  - by destruct (matfree_solve_knl w).
  - injection H as <- <-. unfold lower_tree in E. unfold bind at 1 in E.
    match type of E with
    | match in_ctx ?m ?w0 with _ => _ end = _ =>
        destruct (in_ctx m w0) as [[temps|e1] w1] eqn:E1
    end.
    + unfold bind at 1 in E.
      destruct (statement fuel (tree impero_c) w1) as [[i1|e2] w2] eqn:E2; [discriminate|].
      injection E as <- <-. apply statement_pending_kept_or_built in E2.
      unfold in_ctx in E1. destruct (declare_temporaries 0 typed _) as [r1 c1].
      injection E1 as _ <-. exact E2.
    + injection E as <- <-. unfold in_ctx in E1.
      destruct (declare_temporaries 0 typed _) as [r1 c1].
      injection E1 as _ <-. by left.
Qed.

(** X14: [generate] started while a kernel is pending inlines that kernel
    even when the tree it compiles has no matrix-free solve. *)
Theorem generate_inlines_stale_kernel
    (fuel : nat) (impero_c : ImperoC) (args : list lp.decl)
    (scalar_type : dtype) (kernel_name : string)
    (index_names : list ((nat + nat) * string)) (return_increments : bool)
    (aux : lp.kernel) (pending : option lp.kernel) (res : generated) :
  last_matfree (tree impero_c) = None ->
  generate fuel impero_c args scalar_type kernel_name index_names
    return_increments (Some aux) = (Ok res, pending) ->
  pending = None /\
  exists knl,
    lp.name knl = kernel_name /\
    res = a_program
            (lp.inline_callable_kernel
               (lp._match_caller_callee_argument_dimension_
                  (lp.register_callable_kernel (lp.make_program knl) aux)
                  (lp.name aux))
               (lp.name aux)).
Proof.
  intros Hnone H. apply generate_returns in H as (-> & _ & knl & Hn & ->).
  split; [done|]. exists knl. split; [done|].
  unfold pending_after. by rewrite Hnone.
Qed.

(** ** Fresh inames for a shape *)

Lemma od_get_od_set_eq {V} (k : string) (v : V) (d : list (string * V)) :
  od_get k (od_set k v d) = Some v.
Proof.
  unfold od_get. induction d as [|[k' v'] d IH]; cbn.
  - by rewrite bool_decide_eq_true_2.
  - destruct (decide (k' = k)) as [->|Hne].
    + rewrite bool_decide_eq_true_2 by done. cbn. by rewrite bool_decide_eq_true_2.
    + rewrite bool_decide_eq_false_2 by done. cbn.
      by rewrite bool_decide_eq_false_2.
Qed.

Lemma od_get_od_set_ne {V} (k k0 : string) (v : V) (d : list (string * V)) :
  k0 <> k -> od_get k0 (od_set k v d) = od_get k0 d.
Proof.
  intros Hne. unfold od_get. induction d as [|[k' v'] d IH]; cbn.
  - by rewrite bool_decide_eq_false_2.
  - destruct (decide (k' = k)) as [->|Hk].
    + rewrite bool_decide_eq_true_2 by done. cbn.
      by rewrite !bool_decide_eq_false_2 by done.
    + rewrite bool_decide_eq_false_2 by done. cbn.
      destruct (decide (k' = k0)) as [->|Hk0].
      * by rewrite !bool_decide_eq_true_2.
      * by rewrite !bool_decide_eq_false_2.
Qed.

(** A lookup of [index_names] always returns; it touches the dictionary of
    index names only. *)
Lemma index_names_get_inv (key : nat + nat) (c : LoopyContext) :
  exists name c0,
    index_names_get key c = (Ok name, c0) /\
    active_indices c0 = active_indices c /\ index_extent c0 = index_extent c /\
    gem_to_pymbolic c0 = gem_to_pymbolic c /\ name_gen c0 = name_gen c.
Proof.
  unfold index_names_get, bind, get.
  destruct (index_names c !! key) as [name|]; by eexists _, _.
Qed.

(** One step of [pymbolic_multiindex]: a fresh name is issued and given the
    extent. *)
Lemma pymbolic_multiindex_cons (extent : nat) (shape : list nat) (c : LoopyContext) :
  exists v c0, (v ∉ name_gen c) /\ index_extent c0 = index_extent c /\
    pymbolic_multiindex (extent :: shape) c
      = (names <- pymbolic_multiindex shape ;; ret (v :: names))
          (set_index_extent (od_set v extent)
             (set_name_gen ({[ v ]} ∪ name_gen c) c0)).
Proof.
  destruct (index_names_get_inv (inr extent) c)
    as (based_on & c0 & Hget & _ & Hext & _ & Hgen).
  destruct (name_gen_call based_on c0) as [r c1] eqn:E.
  pose proof E as E0.
  apply name_gen_call_inv in E as (v & -> & Hv & ->).
  rewrite Hgen in Hv. exists v, c0. split_and!; [done..|].
  unfold pymbolic_multiindex at 1. cbn [mapM]. unfold bind at 1.
  unfold bind at 1. rewrite Hget. unfold bind at 1. rewrite E0.
  by rewrite Hgen.
Qed.

(** X15: [pymbolic_multiindex] always returns, with one name per extent of
    the shape; the names are pairwise distinct, none had been issued before
    and all are issued afterwards, and each is declared with its extent. *)
Theorem pymbolic_multiindex_fresh_names
    (shape : list nat) (c c' : LoopyContext) (r : result (list string)) :
  pymbolic_multiindex shape c = (r, c') ->
  exists names, r = Ok names /\ length names = length shape /\ NoDup names /\
    (forall n, n ∈ names -> (n ∉ name_gen c) /\ n ∈ name_gen c') /\
    name_gen c ⊆ name_gen c' /\
    forall j n extent, names !! j = Some n -> shape !! j = Some extent ->
      od_get n (index_extent c') = Some extent.
Proof.
  intros H.
  enough (exists names, r = Ok names /\ length names = length shape /\ NoDup names /\
    (forall n, n ∈ names -> n ∉ name_gen c) /\
    name_gen c' = list_to_set names ∪ name_gen c /\
    (forall k, k ∉ names -> od_get k (index_extent c') = od_get k (index_extent c)) /\
    forall j n extent, names !! j = Some n -> shape !! j = Some extent ->
      od_get n (index_extent c') = Some extent)
    as (names & -> & Hlen & Hnd & Hfresh & Hgen & _ & Hext).
  { exists names. split_and!; try done.
    - intros n Hn. split; [by apply Hfresh|]. rewrite Hgen.
      apply elem_of_union_l. by apply elem_of_list_to_set.
    - rewrite Hgen. apply union_subseteq_r. }
  revert c r c' H. induction shape as [|extent shape IH]; intros c r c' H.
  - injection H as <- <-. exists []. split_and!; try done.
    + constructor.
    + intros n Hn. by apply elem_of_nil in Hn.
    + cbn. by rewrite (left_id_L ∅ (∪)).
  - destruct (pymbolic_multiindex_cons extent shape c) as (v & c0 & Hv & Hext0 & Heq).
    rewrite Heq in H. clear Heq. unfold bind in H.
    destruct (pymbolic_multiindex shape _) as [r1 c1] eqn:E.
    apply IH in E as (names & -> & Hlen & Hnd & Hfresh & Hgen & Hkeep & Hext).
    injection H as <- <-. cbn in Hfresh, Hgen, Hkeep. rewrite Hext0 in Hkeep.
    assert (v ∉ names) as Hvn.
    { intros Hin. apply Hfresh in Hin. apply Hin. by apply elem_of_union_l, elem_of_singleton. }
    exists (v :: names). split_and!.
    + done.
    + cbn. by rewrite Hlen.
    + by constructor.
    + intros n [->|Hn]%elem_of_cons; [done|]. apply Hfresh in Hn.
      intros Hc. apply Hn. by apply elem_of_union_r.
    + rewrite Hgen. cbn. by rewrite (assoc_L (∪)), (comm_L (∪) (list_to_set names)).
    + intros k Hk. apply not_elem_of_cons in Hk as [Hne Hk].
      rewrite Hkeep by done. by apply od_get_od_set_ne.
    + intros [|j] n e Hn He; cbn in Hn, He.
      * injection Hn as <-. injection He as <-. rewrite Hkeep by done.
        apply od_get_od_set_eq.
      * by eapply Hext.
Qed.

(** ** References to recorded nodes *)

Lemma fetch_multiindex_bound (rec : gem.node -> M LoopyContext p.expr)
    (multiindex : list gem.index) (names : list string) (c : LoopyContext) :
  Forall2 (fun index v => exists i, index = gem.an_Index i /\
             active_indices c !! gem.iid i = Some v) multiindex names ->
  fetch_multiindex rec multiindex c = (Ok (p.Variable_ <$> names), c).
Proof.
  unfold fetch_multiindex. induction 1 as [|index v multiindex names (i & -> & Hi) _ IH].
  - done.
  - cbn [mapM]. unfold bind at 1. unfold bind at 1, get at 1. rewrite Hi.
    unfold ret at 1. unfold bind at 1. by rewrite IH.
Qed.

(** X16: a node that has a recorded name is referenced, not lowered again,
    whatever the node is: below the top level, [expression] returns its
    variable, subscripted by the inames of the free indices the node is
    declared with when there are any, and the context is unchanged. *)
Theorem expression_references_recorded_node
    (fuel : nat) (expr : gem.node) (c : LoopyContext) (name : string)
    (multiindex : list gem.index) (names : list string) :
  gem_to_pymbolic c !! node_key expr = Some name ->
  indices c !! node_key expr = Some multiindex \/
    (indices c !! node_key expr = None /\ multiindex = []) ->
  Forall2 (fun index v => exists i, index = gem.an_Index i /\
             active_indices c !! gem.iid i = Some v) multiindex names ->
  expression (S fuel) false expr c
    = (Ok (match names with
           | [] => p.Variable_ name
           | _ => p.Subscript (p.Variable_ name) (p.Variable_ <$> names)
           end), c).
Proof.
  intros Hname Hidx Hbound. cbn [expression]. unfold bind at 1, get at 1.
  rewrite Hname. rewrite bool_decide_eq_true_2 by done. cbn [negb andb].
  unfold pymbolic_variable. unfold bind at 1.
  unfold _gem_to_pym_var. unfold bind at 1, get at 1. rewrite Hname.
  unfold ret at 1. unfold bind at 1, get at 1.
  destruct Hidx as [Hidx|[Hidx ->]]; rewrite Hidx.
  - unfold bind. rewrite (fetch_multiindex_bound _ _ _ _ Hbound).
    by destruct names.
  - by inversion Hbound.
Qed.

(** ** Blocks *)

(** X17: lowering a block is lowering its children in order: the block of
    two lists of statements gives what lowering the block of the first and
    then the block of the second gives, state, exception and instructions
    alike. *)
Theorem statement_block_app
    (fuel : nat) (l1 l2 : list imp.tree) (w : World) :
  statement fuel (imp.Block (l1 ++ l2)) w
    = (i1 <- statement fuel (imp.Block l1) ;;
       i2 <- statement fuel (imp.Block l2) ;;
       ret (i1 ++ i2)) w.
Proof.
  cbn [statement].
  set (chain := fix chain (l : list imp.tree) : M World (list lp.instruction) :=
         match l with
         | [] => ret []
         | child :: l' =>
             insns <- statement fuel child ;;
             rest <- chain l' ;;
             ret (insns ++ rest)
         end).
  revert w. induction l1 as [|t l1 IH]; intros w.
  - change (chain [] ) with (@ret World (list lp.instruction) []).
    cbn [app]. unfold bind, ret. by destruct (chain l2 w) as [[i2|e] w2].
  - cbn [app].
    change (chain (t :: l1 ++ l2))
      with (insns <- statement fuel t ;; rest <- chain (l1 ++ l2) ;; ret (insns ++ rest)).
    change (chain (t :: l1))
      with (insns <- statement fuel t ;; rest <- chain l1 ;; ret (insns ++ rest)).
    unfold bind.
    destruct (statement fuel t w) as [[i|e] w1]; [|done].
    rewrite IH. unfold bind, ret.
    destruct (chain l1 w1) as [[i1|e] w2]; [|done].
    destruct (chain l2 w2) as [[i2|e] w3]; [|done].
    by rewrite (assoc_L (++)).
Qed.

(** ** List tensors *)

Lemma mapM_Forall2 {S A B} (Q : A -> B -> Prop) (f : A -> M S B) (l : list A) :
  (forall a, returns (Q a) (f a)) -> returns (Forall2 Q l) (mapM f l).
Proof.
  intros Hf. induction l as [|a l IH]; cbn [mapM].
  - apply returns_ret. constructor.
  - intros s bs s' H. unfold bind at 1 in H.
    destruct (f a s) as [[b|e] s1] eqn:E; [|discriminate]. apply Hf in E.
    unfold bind at 1 in H.
    destruct (mapM f l s1) as [[bs'|e] s2] eqn:E'; [|discriminate]. apply IH in E'.
    injection H as <- <-. by constructor.
Qed.

Lemma ndindex_length (shape : list nat) :
  length (ndindex shape) = foldr Nat.mul 1 shape.
Proof.
  induction shape as [|n shape IH]; [done|]. cbn [ndindex foldr].
  rewrite <- IH. generalize (ndindex shape). intros l. clear.
  generalize 0. induction n as [|n IHn]; intros k; [done|].
  cbn. rewrite length_app, length_fmap. f_equal. apply IHn.
Qed.

Lemma ndindex_within (shape : list nat) (multiindex : list nat) :
  multiindex ∈ ndindex shape -> Forall2 lt multiindex shape.
Proof.
  revert multiindex. induction shape as [|n shape IH]; intros multiindex Hin.
  - apply list_elem_of_singleton in Hin as ->. constructor.
  - cbn [ndindex] in Hin. apply list_elem_of_bind in Hin as (i & Hin & Hi).
    apply list_elem_of_fmap in Hin as (rest & -> & Hrest).
    constructor; [|by apply IH]. apply elem_of_seq in Hi. lia.
Qed.

Lemma hoare_mapM_Forall2 {S A B} (I : S -> Prop) (Q : A -> B -> Prop)
    (f : A -> M S B) (l : list A) :
  (forall a, hoare I (f a) (fun b s => I s /\ Q a b)) ->
  hoare I (mapM f l) (fun bs s => I s /\ Forall2 Q l bs).
Proof.
  intros Hf. induction l as [|a l IH]; cbn [mapM].
  - apply hoare_ret. intros s Hs. split; [done|constructor].
  - intros s bs s' Hs H. unfold bind at 1 in H.
    destruct (f a s) as [[b|e] s1] eqn:E; [|discriminate].
    apply Hf in E as [Hs1 Hb]; [|done].
    unfold bind at 1 in H.
    destruct (mapM f l s1) as [[bs'|e] s2] eqn:E'; [|discriminate].
    apply IH in E' as [Hs2 Hbs]; [|done].
    injection H as <- <-. split; [done|by constructor].
Qed.

Lemma expression_names_grow (fuel : nat) (top : bool) (expr : gem.node) :
  maintains names_grow (expression fuel top expr).
Proof.
  apply expression_maintains.
  - apply names_grow_refl.
  - apply names_grow_trans.
  - intros node c r c' H.
    apply _gem_to_pym_var_step in H as [->|(v & Hk & _ & ->)]; [by split|].
    split; cbn; [by apply insert_subseteq|apply union_subseteq_r].
Qed.

(** X18: a list tensor whose array has as many entries as its shape is
    evaluated to one assignment per entry, in the order of the entries.  The
    assignment for the entry at position [j] assigns to the tensor's own
    variable, subscripted by the free indices of the tensor followed by the
    [j]-th multi-index of the shape, the lowering of that entry, and is
    nested in the inames active around the statement. *)
Theorem statement_evaluate_listtensor_per_entry
    (fuel nid : nat) (arr_shape : list nat) (array : list gem.node)
    (w w' : World) (insns : list lp.instruction) :
  length array = foldr Nat.mul 1 arr_shape ->
  statement_evaluate fuel (gem.ListTensor nid arr_shape array) w = (Ok insns, w') ->
  exists var index w1,
    in_ctx (pymbolic_variable_and_destruct (expression fuel false)
              (gem.ListTensor nid arr_shape array)) w = (Ok (var, index), w1) /\
    length insns = length array /\
    forall j insn, insns !! j = Some insn ->
      exists multiindex value rhs c c',
        ndindex arr_shape !! j = Some multiindex /\
        Forall2 lt multiindex arr_shape /\
        array !! j = Some value /\
        active_indices c = active_indices (ctx w) /\
        names_grow (ctx w1) c /\
        expression fuel false value c = (Ok rhs, c') /\
        insn = lp.Assignment
                 (p.Subscript var (index ++ ((p.IntLit ∘ Z.of_nat) <$> multiindex)))
                 rhs (inames_of (active_indices (ctx w))) 0.
Proof.
  intros Hlen H. cbn [statement_evaluate] in H. unfold bind at 1 in H.
  destruct (in_ctx _ w) as [[[var index]|e] w1] eqn:E1; [|discriminate].
  exists var, index, w1. split; [done|].
  assert (active_indices (ctx w1) = active_indices (ctx w)) as Hact.
  { by apply (same_active_in_ctx _ (same_active_destruct fuel _)) in E1. }
  match type of H with
  | in_ctx (mapM ?f ?l) w1 = _ =>
      assert (hoare (fun c => active_indices c = active_indices (ctx w) /\ names_grow (ctx w1) c)
        (mapM f l)
        (fun bs c => (active_indices c = active_indices (ctx w) /\ names_grow (ctx w1) c) /\
           Forall2 (fun (a : list nat * gem.node) insn =>
             exists rhs c c',
               active_indices c = active_indices (ctx w) /\ names_grow (ctx w1) c /\
               expression fuel false a.2 c = (Ok rhs, c') /\
               insn = lp.Assignment
                 (p.Subscript var (index ++ ((p.IntLit ∘ Z.of_nat) <$> a.1)))
                 rhs (inames_of (active_indices (ctx w))) 0) l bs)) as Hm
  end.
  { apply hoare_mapM_Forall2. intros [mi value] c insn c' [Ha Hn] Hrun.
    unfold bind at 1 in Hrun.
    destruct (expression fuel false value c) as [[rhs|e] c1] eqn:E; [|discriminate].
    pose proof (same_active_expression _ _ _ _ _ _ E) as Ha1.
    pose proof (expression_names_grow _ _ _ _ _ _ E) as Hn1.
    unfold same_active in Ha1.
    unfold active_inames, bind, get, ret in Hrun. injection Hrun as <- <-.
    split; [split; [congruence|by eapply names_grow_trans]|].
    exists rhs, c, c1. split_and!; [done..|].
    cbn [fst]. unfold inames_of. by rewrite Ha1, Ha. }
  unfold in_ctx in H.
  match type of H with
  | (let '(r, c) := ?m (ctx w1) in _) = _ =>
      destruct (m (ctx w1)) as [[bs|e] c2] eqn:E2; [|discriminate]
  end.
  injection H as <- <-.
  apply Hm in E2 as [_ HF]; [|split; [done|apply names_grow_refl]].
  split.
  - apply Forall2_length in HF. rewrite <- HF, length_zip_with, ndindex_length. lia.
  - intros j insn Hj.
    destruct (Forall2_lookup_r _ _ _ _ _ HF Hj)
      as ([mi value] & Hz & rhs & c & c' & Ha & Hn & He & ->).
    apply lookup_zip_with_Some in Hz as (mi' & v' & [= <- <-] & Hmi & Hv).
    exists mi, value, rhs, c, c'. split_and!; try done.
    apply ndindex_within. by eapply list_elem_of_lookup_2.
Qed.

(** ** The data of the kernel *)

(** X19: the data of the kernel [generate] returns are its arguments
    followed by one temporary for each temporary of the ImperoC, in order,
    named [t0], [t1], ..., each with a dtype. *)
Theorem generate_kernel_data
    (fuel : nat) (impero_c : ImperoC) (args : list lp.decl)
    (scalar_type : dtype) (kernel_name : string)
    (index_names : list ((nat + nat) * string)) (return_increments : bool)
    (before pending : option lp.kernel) (res : generated) :
  generate fuel impero_c args scalar_type kernel_name index_names
    return_increments before = (Ok res, pending) ->
  lp.name (primary_kernel res) = kernel_name /\
  exists temps,
    lp.kernel_data (primary_kernel res) = args ++ temps /\
    lp.decl_name <$> temps
      = (fun j => "t" +:+ pretty j) <$> seq 0 (length (temporaries impero_c)) /\
    Forall (fun d => is_Some (lp.decl_dtype d)) temps.
Proof.
  intros H. apply generate_inv in H
    as (eps & typed & temps & insns & w0 & w1 & w & _ & Ht & _ & _ & E1 & _ & ->).
  split; [done|]. exists temps. split; [done|].
  unfold in_ctx in E1.
  destruct (declare_temporaries 0 typed (ctx w0)) as [r c1] eqn:E.
  injection E1 as -> _.
  apply declare_temporaries_inv in E as (Hn & Hd & _ & _).
  apply assign_dtypes_inv in Ht as (Hfst & real_type & _ & Hsome).
  split.
  - rewrite Hn. by rewrite <- Hfst, length_fmap.
  - assert (Forall is_Some (lp.decl_dtype <$> temps)) as HF.
    { rewrite Hd. apply Forall_fmap, Forall_forall.
      intros [e dt] Hin. destruct (Hsome e dt Hin) as (d & s & -> & _). by eexists. }
    apply Forall_forall. intros d Hin. apply (proj1 (Forall_forall _ _) HF).
    apply list_elem_of_fmap. by exists d.
Qed.

(** ** Loops *)

Lemma statement_for_inv (fuel : nat) (index : gem.Index) (body : imp.tree)
    (extent : nat) (w : World) :
  gem.extent index = Some (S extent) ->
  exists idx c0, (idx ∉ name_gen (ctx w)) /\
    active_indices c0 = active_indices (ctx w) /\
    statement fuel (imp.For index body) w
      = with_active_indices [(gem.iid index, idx)] (statement fuel body)
          {| ctx := set_index_extent (od_set idx (S extent))
                      (set_name_gen ({[ idx ]} ∪ name_gen (ctx w)) c0);
             matfree_solve_knl := matfree_solve_knl w |}.
Proof.
  intros He. cbn [statement]. rewrite He.
  destruct (index_names_get_inv (inl (gem.iid index)) (ctx w))
    as (based_on & c0 & Hget & Hact & _ & _ & Hgen).
  destruct (name_gen_call based_on c0) as [r c1] eqn:E.
  pose proof E as E0. apply name_gen_call_inv in E as (idx & -> & Hidx & ->).
  rewrite Hgen in Hidx. exists idx, c0. split_and!; [done..|].
  unfold bind at 1. unfold in_ctx at 1. unfold bind at 1.
  rewrite Hget. rewrite E0. by rewrite Hgen.
Qed.

(** X20: a loop whose scopes are fresh, once lowered, has an iname of its
    own: a name not issued before, with a declared extent, in which every
    instruction of the loop is nested. *)
Theorem statement_for_declares_iname
    (fuel : nat) (index : gem.Index) (body : imp.tree) (w w' : World)
    (insns : list lp.instruction) :
  scopes_fresh (dom (active_indices (ctx w))) (imp.For index body) ->
  statement fuel (imp.For index body) w = (Ok insns, w') ->
  exists idx, (idx ∉ name_gen (ctx w)) /\ idx ∈ name_gen (ctx w') /\
    idx ∈ (index_extent (ctx w')).*1 /\
    forall insn, insn ∈ insns -> idx ∈ within_inames_of insn.
Proof.
  intros [Hf1 Hf2] H.
  destruct (gem.extent index) as [[|extent]|] eqn:He;
    try (cbn [statement] in H; rewrite He in H; discriminate).
  destruct (statement_for_inv fuel index body extent w He)
    as (idx & c0 & Hidx & Hact & Heq).
  rewrite Heq in H. clear Heq.
  apply with_active_indices_ok in H as (w1 & Hb & ->).
  exists idx. split; [done|].
  pose proof (statement_names_grow _ _ _ _ _ Hb) as [_ Hg].
  pose proof (statement_domains_grow _ _ _ _ _ Hb) as [Hd _].
  cbn in Hg, Hd |- *. split_and!.
  - apply Hg. by apply elem_of_union_l, elem_of_singleton.
  - apply Hd. rewrite od_set_keys. case_bool_decide; [done|].
    apply elem_of_app. right. apply list_elem_of_here.
  - intros insn Hin.
    apply (statement_scoped fuel body (<[ gem.iid index := idx ]> (active_indices (ctx w))))
      in Hb as [_ Ht];
      [| by rewrite dom_insert_L | unfold active_is; cbn; by rewrite Hact].
    apply (proj1 (Forall_forall _ _) Ht) in Hin. apply Hin.
    apply elem_of_inames_of. exists (gem.iid index). apply lookup_insert_eq.
Qed.

(** X21: a loop whose scopes are fresh fails only when its index has no
    positive extent or when its body fails: popping the index on exit never
    raises. *)
Theorem statement_for_fails_with_body
    (fuel : nat) (index : gem.Index) (body : imp.tree) (w w' : World) (e : exn) :
  scopes_fresh (dom (active_indices (ctx w))) (imp.For index body) ->
  statement fuel (imp.For index body) w = (Raise e, w') ->
  ((gem.extent index = None \/ gem.extent index = Some 0) /\
   e = AssertionError "extent" /\ w' = w) \/
  exists w1, statement fuel body w1 = (Raise e, w') /\
    dom (active_indices (ctx w1)) = {[ gem.iid index ]} ∪ dom (active_indices (ctx w)).
Proof.
  intros [Hf1 Hf2] H.
  destruct (gem.extent index) as [[|extent]|] eqn:He;
    try (cbn [statement] in H; rewrite He in H; injection H as <- <-; left; auto).
  right.
  destruct (statement_for_inv fuel index body extent w He)
    as (idx & c0 & Hidx & Hact & Heq).
  rewrite Heq in H. clear Heq. unfold with_active_indices in H.
  match type of H with
  | match (_ ;;; _) ?w0 with _ => _ end = _ =>
      change ((in_ctx (modify (set_active_indices
                 (update_mapping [(gem.iid index, idx)]))) ;;; statement fuel body) w0)
        with (statement fuel body (activated [(gem.iid index, idx)] w0)) in H;
      destruct (statement fuel body (activated [(gem.iid index, idx)] w0))
        as [[a|e1] w2] eqn:Hb
  end.
  - exfalso.
    apply (statement_scoped fuel body (<[ gem.iid index := idx ]> (active_indices (ctx w))))
      in Hb as [Ha _];
      [| by rewrite dom_insert_L | unfold active_is; cbn; by rewrite Hact].
    unfold in_ctx in H. cbn in H. unfold bind, get in H.
    unfold active_is in Ha. rewrite Ha, lookup_insert_eq in H. discriminate.
  - injection H as <- <-. eexists. split; [exact Hb|]. cbn.
    by rewrite dom_insert_L, Hact.
Qed.

End Loopy.

(** * Names by key *)

(** C3, amended: the lookup is memoised per dictionary key of the node,
    whatever the keys are.  Looking a node up twice returns the identical
    name, also after another node was looked up in between, and two nodes
    with the same key share their name.  Two nodes with different keys get
    different names when neither had a name before, or when every name the
    context records was issued by its name generator; otherwise they need
    not. *)
Theorem memoised_name_per_node
    (node_key : gem.node -> nat)
    (x y : gem.node) (c c1 c2 : LoopyContext) (nx ny : p.expr) :
  _gem_to_pym_var node_key x c = (Ok nx, c1) ->
  _gem_to_pym_var node_key y c1 = (Ok ny, c2) ->
  _gem_to_pym_var node_key x c1 = (Ok nx, c1) /\
  _gem_to_pym_var node_key x c2 = (Ok nx, c2) /\
  (node_key x = node_key y -> nx = ny) /\
  (node_key x <> node_key y ->
     (gem_to_pymbolic c !! node_key x = None ->
      gem_to_pymbolic c1 !! node_key y = None -> nx <> ny) /\
     (names_reserved c -> nx <> ny)).
Proof.
  intros Hx Hy.
  destruct (names_by_key node_key x y c c1 c2 nx ny Hx Hy)
    as (H1 & H2 & H3 & H4 & H5).
  split_and!; [done..|]. intros Hne. split; [done|]. intros Hres. by apply H5.
Qed.

(** * Instances *)

(** ** C8 *)

(** Under complex128 a conditional between a real zero and a variable, tested
    by a comparison, gets the dtypes float64 and complex128 and not the int8 of
    the comparison. *)
Lemma conditional_dtype_excludes_condition_witness :
  let cond := gem.Comparison 20 "<" sample_A sample_b in
  _assign_dtype complex128 float64 cond = Ok {[ int8 ]} /\
  _assign_dtype complex128 float64 (gem.Conditional 21 cond (gem.Zero 22 []) sample_b)
    = Ok ({[ float64 ]} ∪ {[ complex128 ]}).
Proof.
  split; [reflexivity|].
  apply (conditional_dtype_excludes_condition complex128 float64 21
           (gem.Comparison 20 "<" sample_A sample_b) (gem.Zero 22 []) sample_b);
    reflexivity.
Defined.

(** ** C4 and C10 *)

(** C4 as stated fails: 1e-9 lies within the resolution 1e-3 of its
    one-decimal rounding 0.0, and is emitted verbatim, not as the rounding. *)
Lemma scalar_constant_near_zero_not_snapped :
  let v := 0.000000001%float in
  let c := sample_ctx float64 in
  PrimFloat.is_nan v = false /\
  PrimFloat.ltb (PrimFloat.abs (v - numpy_round1 v)) (epsilon c) = true /\
  _expression_scalar (scalar_literal 30 v) c = (Ok (p.FloatLit v), c) /\
  _expression_scalar (scalar_literal 30 v) c <> (Ok (p.FloatLit (numpy_round1 v)), c).
Proof.
  split_and!; [reflexivity..|].
  intros H.
  apply (f_equal (fun x => match x.1 with
                           | Ok (p.FloatLit f) => PrimFloat.eqb f 0
                           | _ => false
                           end)) in H.
  vm_compute in H. discriminate.
Qed.

(** With resolution 1e-3, 0.29999999 is emitted as 0.3 and 0.24 as it is. *)
Lemma scalar_constant_snaps_to_nonzero_rounding_witness :
  epsilon (sample_ctx float64) = 0.001%float /\
  _expression_scalar (scalar_literal 30 0.29999999%float) (sample_ctx float64)
    = (Ok (p.FloatLit 0.3%float), sample_ctx float64) /\
  _expression_scalar (scalar_literal 32 0.24%float) (sample_ctx float64)
    = (Ok (p.FloatLit 0.24%float), sample_ctx float64).
Proof.
  split; [reflexivity|]. split.
  - exact (proj1 (proj2 (proj2 (proj2
             (scalar_constant_snaps_to_nonzero_rounding
                (scalar_literal 30 0.29999999%float) 0.29999999%float
                (sample_ctx float64) eq_refl eq_refl))) eq_refl) eq_refl).
  - exact (proj2 (proj2 (proj2 (proj2
             (scalar_constant_snaps_to_nonzero_rounding
                (scalar_literal 32 0.24%float) 0.24%float
                (sample_ctx float64) eq_refl eq_refl))) eq_refl) eq_refl).
Defined.

Lemma scalar_constant_rounding_to_zero_is_verbatim_witness :
  PrimFloat.ltb (PrimFloat.abs (0.04 - numpy_round1 0.04)) 0.1 = true /\
  _expression_scalar (scalar_literal 31 0.04%float)
    {| indices := ∅; active_indices := ∅; index_extent := [];
       gem_to_pymbolic := ∅; name_gen := ∅; index_names := ∅;
       epsilon := 0.1%float; scalar_type := float64; return_increments := true |}
    = (Ok (p.FloatLit 0.04%float),
       {| indices := ∅; active_indices := ∅; index_extent := [];
          gem_to_pymbolic := ∅; name_gen := ∅; index_names := ∅;
          epsilon := 0.1%float; scalar_type := float64; return_increments := true |}).
Proof.
  split; [reflexivity|].
  apply (scalar_constant_rounding_to_zero_is_verbatim
           (scalar_literal 31 0.04%float) 0.04%float); reflexivity.
Defined.

(** ** C6 *)

(** C6 as stated fails: the ordinary Bessel function j is refused under a
    complex scalar type as well. *)
Lemma bessel_j_unsupported_when_complex :
  ("cyl_bessel_j" ∉ ["cyl_bessel_i"; "cyl_bessel_k"]) /\
  is_complex (scalar_type (sample_ctx complex128)) = true /\
  _expression_mathfunction identity_key Zero_handle one_handle
    (expression identity_key Zero_handle one_handle 10 false)
    "cyl_bessel_j" [gem_Zero; sample_y] (sample_ctx complex128)
  = (Raise (NotImplementedError
       "Bessel functions for complex numbers: missing implementation"),
     sample_ctx complex128).
Proof.
  split_and!; [|reflexivity..].
  intros H. repeat (apply elem_of_cons in H as [H|H]; [discriminate|]).
  by apply elem_of_nil in H.
Qed.

(** Under float64, j of order [gem.Zero()] becomes a call of [j0]. *)
Lemma bessel_unsupported_iff_complex_witness :
  let rec := expression identity_key Zero_handle one_handle 10 false in
  exists c2,
    _expression_mathfunction identity_key Zero_handle one_handle rec
      "cyl_bessel_j" [gem_Zero; sample_y] (sample_ctx float64)
    = (Ok (p.Call (p.Variable_ "j0") [p.Variable_ "y"]), c2).
Proof.
  intros rec.
  pose (c1 := (rec gem_Zero (sample_ctx float64)).2).
  pose (c2 := (rec sample_y c1).2).
  exists c2.
  assert (rec gem_Zero (sample_ctx float64) = (Ok (p.FloatLit 0), c1)) as H1
    by (vm_compute; reflexivity).
  assert (rec sample_y c1 = (Ok (p.Variable_ "y"), c2)) as H2
    by (vm_compute; reflexivity).
  exact (proj2 (bessel_unsupported_iff_complex identity_key Zero_handle one_handle
                  rec "cyl_bessel_j" gem_Zero sample_y (sample_ctx float64) eq_refl)
           eq_refl _ _ _ _ H1 H2).
Defined.

(** ** C2 *)

(** C2 as stated fails: when the body of a loop raises, the binding of the
    loop index stays in the active indices. *)
Lemma active_indices_left_extended_on_error :
  let run := statement identity_key Zero_handle one_handle plain_add 10
               sample_failing_tree sample_world in
  active_indices (ctx sample_world) !! gem.iid sample_i = None /\
  run.1 = Raise (GemFailure "degenerate") /\
  active_indices (ctx run.2) !! gem.iid sample_i = Some "i".
Proof. split_and!; vm_compute; reflexivity. Qed.

(** When the body returns, the binding is gone. *)
Lemma active_indices_popped_on_normal_exit_witness :
  exists w',
    with_active_indices [(7, "i")] (in_ctx active_inames) sample_world
      = (Ok {[ "i" ]}, w') /\
    active_indices (ctx w') !! 7 = None.
Proof.
  pose (w' := (with_active_indices [(7, "i")] (in_ctx active_inames) sample_world).2).
  assert (with_active_indices [(7, "i")] (in_ctx active_inames) sample_world
            = (Ok {[ "i" ]}, w')) as H by (vm_compute; reflexivity).
  exists w'. split; [exact H|].
  destruct (proj1 (active_indices_popped_on_normal_exit [(7, "i")]
                     (in_ctx active_inames) sample_world) _ _ H)
    as (w1 & _ & _ & Hk).
  apply Hk. cbn. apply list_elem_of_here.
Defined.

(** ** C3 *)

(** Keyed by identity, two instances of the variable [A] are named [A] and
    [A_0], and the first keeps its name. *)
Lemma memoised_name_per_node_witness :
  exists c1 c2,
    gem.nid sample_A <> gem.nid sample_A' /\
    _gem_to_pym_var identity_key sample_A LoopyContext_init
      = (Ok (p.Variable_ "A"), c1) /\
    _gem_to_pym_var identity_key sample_A' c1 = (Ok (p.Variable_ "A_0"), c2) /\
    _gem_to_pym_var identity_key sample_A c2 = (Ok (p.Variable_ "A"), c2) /\
    p.Variable_ "A" <> p.Variable_ "A_0".
Proof.
  pose (c1 := (_gem_to_pym_var identity_key sample_A LoopyContext_init).2).
  pose (c2 := (_gem_to_pym_var identity_key sample_A' c1).2).
  assert (_gem_to_pym_var identity_key sample_A LoopyContext_init
            = (Ok (p.Variable_ "A"), c1)) as H1 by (vm_compute; reflexivity).
  assert (_gem_to_pym_var identity_key sample_A' c1
            = (Ok (p.Variable_ "A_0"), c2)) as H2 by (vm_compute; reflexivity).
  assert (identity_key sample_A <> identity_key sample_A') as Hne
    by (vm_compute; lia).
  destruct (memoised_name_per_node identity_key sample_A sample_A'
              LoopyContext_init c1 c2 _ _ H1 H2)
    as (_ & Hagain & _ & Hdiff).
  exists c1, c2.
  split_and!; [exact Hne|exact H1|exact H2|exact Hagain
              |exact (proj2 (Hdiff Hne) names_reserved_init)].
Defined.

(** C3 as stated fails in the context [generate] builds: the temporary
    [Variable 5 "t0"] is recorded as [t0] without the name generator, and the
    distinct instance [Variable 77 "t0"], equal to it in structure, is named
    [t0] as well. *)
Lemma temporary_name_shared_by_equal_instance :
  let x := gem.Variable_ 5 "t0" [] in
  let y := gem.Variable_ 77 "t0" [] in
  let c := (declare_temporaries identity_key 0 [(x, Some float64)]
              sample_temporaries_ctx).2 in
  identity_key x <> identity_key y /\
  (_gem_to_pym_var identity_key x c).1 = Ok (p.Variable_ "t0") /\
  (_gem_to_pym_var identity_key y c).1 = Ok (p.Variable_ "t0").
Proof. split_and!; [vm_compute; lia|vm_compute; reflexivity..]. Qed.

(** ** C7 *)

(** The subscript [2 + i*4 + j*1] of [A], and its value 13 at i = 2, j = 3. *)
Lemma flexiblyindexed_subscript_is_affine_witness :
  let rec := expression identity_key Zero_handle one_handle 10 false in
  let e := p.Sum [p.IntLit 2; p.Product [p.Variable_ "i"; p.IntLit 4];
                  p.Product [p.Variable_ "j"; p.IntLit 1]] in
  exists c',
    _expression_flexiblyindexed rec sample_A sample_dim2idxs (sample_ctx float64)
      = (Ok (p.Subscript (p.Variable_ "A") [e]), c') /\
    (forall env, eval_index env e
       = Some (2 + (env "i" * 4 + (env "j" * 1 + 0)))%Z) /\
    eval_index sample_env e = Some 13%Z.
Proof.
  intros rec e.
  pose (c' := (_expression_flexiblyindexed rec sample_A sample_dim2idxs
                 (sample_ctx float64)).2).
  assert (_expression_flexiblyindexed rec sample_A sample_dim2idxs (sample_ctx float64)
            = (Ok (p.Subscript (p.Variable_ "A") [e]), c')) as H
    by (vm_compute; reflexivity).
  destruct (proj1 (flexiblyindexed_subscript_is_affine rec sample_A sample_dim2idxs
                     (sample_ctx float64)) _ _ H)
    as (var & _ & _ & Hd).
  destruct (Hd 2%Z [(gem.an_Index sample_i, 4%Z); (gem.an_Index sample_j, 1%Z)])
    as (_ & Hev); [apply list_elem_of_here|].
  exists c'. split_and!; [exact H|exact Hev|exact (Hev sample_env)].
Defined.

(** ** C5 *)



(** ** C1 *)

(** The scenario needs no recursion into expressions: it returns a program
    for every fuel. *)
Lemma matfree_scenario_returns (fuel : nat) :
  exists prg,
    generate identity_key Zero_handle one_handle plain_add fuel sample_solve_c []
      float64 "kernel" [] true None = (Ok (a_program prg), None).
Proof.
  eexists.
  apply (generate_fuel_le identity_key Zero_handle one_handle plain_add 0 fuel);
    [lia|].
  vm_compute. reflexivity.
Qed.

(** The scenario [Solve(A, b, matfree=True)] of shape (4,), followed by the
    compilation of a loop without solve. *)
Lemma matfree_solve_registered_then_inlined_witness :
  let gen := generate identity_key Zero_handle one_handle plain_add 10 in
  last_matfree (tree sample_solve_c) = Some [4] /\
  last_matfree (tree sample_sum_c) = None /\
  exists knl aux knl',
    matfree_cg_kernel_for [4] = Some aux /\
    gen sample_solve_c [] float64 "kernel" [] true None
      = (Ok (a_program (inlined knl aux)), None) /\
    gen sample_sum_c [] float64 "kernel" [] true None = (Ok (a_kernel knl'), None).
Proof.
  intros gen. split; [reflexivity|]. split; [reflexivity|].
  destruct (gen sample_solve_c [] float64 "kernel" [] true None)
    as [[res|e] pending] eqn:E1; [|vm_compute in E1; discriminate].
  destruct (proj2 (proj2 (matfree_solve_registered_then_inlined identity_key
                            Zero_handle one_handle plain_add))
              10 sample_solve_c [] float64 "kernel" [] true None res pending [4]
              eq_refl E1)
    as (-> & (eps & typed & data & insns & w & aux & _ & _ & _ & Haux & _ & _ & ->)
        & Hnext).
  destruct (gen sample_sum_c [] float64 "kernel" [] true None)
    as [[res'|e] pending'] eqn:E2; [|vm_compute in E2; discriminate].
  destruct (Hnext 10 sample_sum_c [] float64 "kernel" [] true res' pending' eq_refl E2)
    as (-> & eps' & typed' & data' & insns' & w' & _ & _ & _ & ->).
  eexists _, aux, _. split; [exact Haux|]. split; reflexivity.
Defined.

(** C1 as stated fails: of two matrix-free solves of the shapes (4,) and
    (5,) in one tree, both are lowered to a call of [matfree_cg_kernel], and
    the program registers and inlines one kernel, that of size 5; the kernel
    of size 4 is a different one. *)
Lemma matfree_solve_first_kernel_not_registered :
  exists knl aux4 aux5 lhs4 reads4 lhs5 reads5,
    matfree_cg_kernel_for [4] = Some aux4 /\
    matfree_cg_kernel_for [5] = Some aux5 /\
    lp.kernel_data aux4 <> lp.kernel_data aux5 /\
    generate identity_key Zero_handle one_handle plain_add 10 sample_two_solves_c []
      float64 "kernel" [] true None = (Ok (a_program (inlined knl aux5)), None) /\
    lp.instructions knl
      = [lp.CallInstruction [lhs4]
           (p.Call (p.Variable_ "matfree_cg_kernel") reads4) ∅ 2;
         lp.CallInstruction [lhs5]
           (p.Call (p.Variable_ "matfree_cg_kernel") reads5) ∅ 1].
Proof.
  eexists _, _, _, _, _, _, _.
  split; [reflexivity|]. split; [reflexivity|]. split.
  - intros H. vm_compute in H. discriminate.
  - split; vm_compute; reflexivity.
Qed.

(** * Instances of the further properties *)

(** ** Invariants of the lowering *)

(** Lowering [b[i] + b[i]] under the active indices [i] and [j]. *)
Lemma expression_keeps_scope_witness :
  let c := sample_ctx float64 in
  let run := expression identity_key Zero_handle one_handle 10 false sample_sum c in
  run.1 = Ok (p.Sum [p.Subscript (p.Variable_ "b") [p.Variable_ "i"];
                     p.Subscript (p.Variable_ "b") [p.Variable_ "i"]]) /\
  same_scope c run.2.
Proof.
  intros c run. split; [vm_compute; reflexivity|].
  assert (expression identity_key Zero_handle one_handle 10 false sample_sum c
            = (run.1, run.2)) as H by (vm_compute; reflexivity).
  exact (expression_keeps_scope identity_key Zero_handle one_handle 10 false
           sample_sum c run.2 run.1 H).
Defined.

Lemma statement_keeps_config_witness :
  exists r w',
    statement identity_key Zero_handle one_handle plain_add 10
      sample_inner_tree sample_inner_world = (r, w') /\
    index_names (ctx sample_inner_world) !! inl 9 = None /\
    index_names (ctx w') !! inl 9 = Some "i" /\
    same_inputs (ctx sample_inner_world) (ctx w').
Proof.
  destruct (statement identity_key Zero_handle one_handle plain_add 10
              sample_inner_tree sample_inner_world) as [r w'] eqn:H.
  exists r, w'. split_and!; [reflexivity|reflexivity| |].
  - vm_compute in H. injection H as _ <-. vm_compute. reflexivity.
  - exact (statement_keeps_config identity_key Zero_handle one_handle plain_add 10
             sample_inner_tree sample_inner_world w' r H).
Defined.

(** The names [i] and [j] issued before the loop over [k] are still issued
    after it. *)
Lemma statement_keeps_names_witness :
  let run := statement identity_key Zero_handle one_handle plain_add 10
               sample_inner_tree sample_inner_world in
  name_gen (ctx sample_inner_world) ⊆ name_gen (ctx run.2).
Proof.
  intros run.
  assert (statement identity_key Zero_handle one_handle plain_add 10
            sample_inner_tree sample_inner_world = (run.1, run.2)) as H
    by (vm_compute; reflexivity).
  exact (proj2 (statement_keeps_names identity_key Zero_handle one_handle plain_add 10
                  sample_inner_tree sample_inner_world run.2 run.1 H)).
Defined.

(** From [LoopyContext()], also when the statement fails. *)
Lemma statement_keeps_names_reserved_witness :
  let run := statement identity_key Zero_handle one_handle plain_add 10
               sample_failing_tree sample_world in
  run.1 = Raise (GemFailure "degenerate") /\ names_reserved (ctx run.2).
Proof.
  intros run. split; [vm_compute; reflexivity|].
  assert (statement identity_key Zero_handle one_handle plain_add 10
            sample_failing_tree sample_world = (run.1, run.2)) as H
    by (vm_compute; reflexivity).
  exact (statement_keeps_names_reserved identity_key Zero_handle one_handle plain_add
           10 sample_failing_tree sample_world run.2 run.1 names_reserved_init H).
Defined.

(** ** Domains, priorities and data of the kernel *)

Lemma create_domains_one_range_per_index_witness :
  let knl := {| lp.name := "kernel";
                lp.domains := create_domains [("i", 3); ("j", 4)];
                lp.instructions := []; lp.kernel_data := [];
                lp.loop_priority := None |} in
  lp.iname_values knl "j" = [0; 1; 2; 3].
Proof.
  intros knl.
  apply (proj2 (proj2 (proj2 (proj2
           (create_domains_one_range_per_index [("i", 3); ("j", 4)])))) knl "j" 4).
  - reflexivity.
  - refine (bool_decide_unpack _ _); vm_compute; exact I.
  - refine (bool_decide_unpack _ _); vm_compute; exact I.
Defined.

Lemma generate_domains_distinct_witness :
  exists res,
    generate identity_key Zero_handle one_handle plain_add 10 sample_sum_c []
      float64 "kernel" [] true None = (Ok res, None) /\
    NoDup (lp.iname <$> concat (lp.domains (primary_kernel res))).
Proof.
  destruct (generate identity_key Zero_handle one_handle plain_add 10 sample_sum_c []
              float64 "kernel" [] true None) as [[res|e] pending] eqn:E;
    [|vm_compute in E; discriminate].
  assert (pending = None) as ->.
  { vm_compute in E. injection E as _ E. exact (eq_sym E). }
  exists res. split; [reflexivity|].
  exact (proj1 (generate_domains_distinct identity_key Zero_handle one_handle plain_add
                  10 sample_sum_c [] float64 "kernel" [] true None None res E)).
Defined.

Lemma generate_priorities_fall_witness :
  exists res,
    generate identity_key Zero_handle one_handle plain_add 10 sample_sum_c []
      float64 "kernel" [] true None = (Ok res, None) /\
    forall j insn, lp.instructions (primary_kernel res) !! j = Some insn ->
      priority_of insn = Some (length (lp.instructions (primary_kernel res)) - j).
Proof.
  destruct (generate identity_key Zero_handle one_handle plain_add 10 sample_sum_c []
              float64 "kernel" [] true None) as [[res|e] pending] eqn:E;
    [|vm_compute in E; discriminate].
  assert (pending = None) as ->.
  { vm_compute in E. injection E as _ E. exact (eq_sym E). }
  exists res. split; [reflexivity|]. intros j insn Hj.
  pose proof (generate_priorities_fall identity_key Zero_handle one_handle plain_add
                10 sample_sum_c [] float64 "kernel" [] true None None res E) as H.
  exact (proj1 (H j insn Hj)).
Defined.

Lemma generate_kernel_data_witness :
  exists res temps,
    generate identity_key Zero_handle one_handle plain_add 10 sample_solve_c []
      float64 "kernel" [] true None = (Ok res, None) /\
    lp.kernel_data (primary_kernel res) = temps /\
    lp.decl_name <$> temps = ["t0"].
Proof.
  destruct (generate identity_key Zero_handle one_handle plain_add 10 sample_solve_c []
              float64 "kernel" [] true None) as [[res|e] pending] eqn:E;
    [|vm_compute in E; discriminate].
  assert (pending = None) as ->.
  { vm_compute in E. injection E as _ E. exact (eq_sym E). }
  destruct (generate_kernel_data identity_key Zero_handle one_handle plain_add
              10 sample_solve_c [] float64 "kernel" [] true None None res E)
    as (_ & temps & Hdata & Hnames & _).
  exists res, temps. split; [reflexivity|]. split; [exact Hdata|exact Hnames].
Defined.

(** ** Scopes *)

Lemma statement_restores_active_indices_witness :
  exists insns w',
    statement identity_key Zero_handle one_handle plain_add 10
      sample_inner_tree sample_inner_world = (Ok insns, w') /\
    active_indices (ctx w') = active_indices (ctx sample_inner_world).
Proof.
  destruct (statement identity_key Zero_handle one_handle plain_add 10
              sample_inner_tree sample_inner_world)
    as [[insns|e] w'] eqn:H; [|vm_compute in H; discriminate].
  exists insns, w'. split; [reflexivity|].
  refine (statement_restores_active_indices identity_key Zero_handle one_handle
            plain_add 10 sample_inner_tree sample_inner_world w' insns _ H).
  split; [|exact I]. refine (bool_decide_unpack _ _); vm_compute; exact I.
Defined.

(** The assignment in the loop over [k] is nested in the inames of [i] and
    [j], active around the loop. *)
Lemma statement_instructions_within_active_inames_witness :
  exists insns w',
    statement identity_key Zero_handle one_handle plain_add 10
      sample_inner_tree sample_inner_world = (Ok insns, w') /\
    forall insn, insn ∈ insns -> "j" ∈ within_inames_of insn.
Proof.
  destruct (statement identity_key Zero_handle one_handle plain_add 10
              sample_inner_tree sample_inner_world)
    as [[insns|e] w'] eqn:H; [|vm_compute in H; discriminate].
  exists insns, w'. split; [reflexivity|].
  intros insn Hin.
  refine (statement_instructions_within_active_inames identity_key Zero_handle
            one_handle plain_add 10 sample_inner_tree sample_inner_world w' insns
            _ H insn "j" 8 Hin _).
  - split; [|exact I]. refine (bool_decide_unpack _ _); vm_compute; exact I.
  - vm_compute. reflexivity.
Defined.

Lemma statement_for_declares_iname_witness :
  exists insns w' idx,
    statement identity_key Zero_handle one_handle plain_add 10
      (imp.For sample_k sample_inner_body) sample_inner_world = (Ok insns, w') /\
    (idx ∉ name_gen (ctx sample_inner_world)) /\
    forall insn, insn ∈ insns -> idx ∈ within_inames_of insn.
Proof.
  destruct (statement identity_key Zero_handle one_handle plain_add 10
              (imp.For sample_k sample_inner_body) sample_inner_world)
    as [[insns|e] w'] eqn:H; [|vm_compute in H; discriminate].
  assert (scopes_fresh (dom (active_indices (ctx sample_inner_world)))
            (imp.For sample_k sample_inner_body)) as Hfresh.
  { split; [|exact I]. refine (bool_decide_unpack _ _); vm_compute; exact I. }
  destruct (statement_for_declares_iname identity_key Zero_handle one_handle
              plain_add 10 sample_k sample_inner_body sample_inner_world w' insns
              Hfresh H)
    as (idx & Hidx & _ & _ & Hin).
  by exists insns, w', idx.
Defined.

(** The loop of [sample_failing_tree] fails because its body does. *)
Lemma statement_for_fails_with_body_witness :
  exists w1 w',
    statement identity_key Zero_handle one_handle plain_add 10
      (imp.Return sample_y (gem.Failure 14 [] "degenerate")) w1
      = (Raise (GemFailure "degenerate"), w').
Proof.
  destruct (statement identity_key Zero_handle one_handle plain_add 10
              (imp.For sample_i (imp.Return sample_y (gem.Failure 14 [] "degenerate")))
              sample_world)
    as [[insns|e] w'] eqn:H; [vm_compute in H; discriminate|].
  assert (e = GemFailure "degenerate") as ->.
  { vm_compute in H. injection H as H _. exact (eq_sym H). }
  assert (scopes_fresh (dom (active_indices (ctx sample_world)))
            (imp.For sample_i (imp.Return sample_y (gem.Failure 14 [] "degenerate"))))
    as Hfresh.
  { split; [|exact I]. refine (bool_decide_unpack _ _); vm_compute; exact I. }
  destruct (statement_for_fails_with_body identity_key Zero_handle one_handle
              plain_add 10 sample_i
              (imp.Return sample_y (gem.Failure 14 [] "degenerate"))
              sample_world w' _ Hfresh H)
    as [([He|He] & _)|(w1 & Hw1 & _)]; [discriminate..|].
  by exists w1, w'.
Defined.

Lemma statement_for_same_index_raises_witness :
  exists e w',
    statement identity_key Zero_handle one_handle plain_add 10
      (imp.For sample_i
         (imp.For sample_i
            (imp.Return (gem.Indexed 10 sample_y [gem.an_Index sample_i])
                        (gem.Indexed 12 sample_b [gem.an_Index sample_i]))))
      sample_world = (Raise e, w').
Proof.
  destruct (statement identity_key Zero_handle one_handle plain_add 10
              (imp.For sample_i
                 (imp.For sample_i
                    (imp.Return (gem.Indexed 10 sample_y [gem.an_Index sample_i])
                                (gem.Indexed 12 sample_b [gem.an_Index sample_i]))))
              sample_world) as [r w'] eqn:H.
  destruct (statement_for_same_index_raises identity_key Zero_handle one_handle
              plain_add 10 sample_i _ sample_world w' r H) as (e & ->).
  by exists e, w'.
Defined.

(** ** Temporaries and their dtypes *)

Lemma assign_dtypes_total_on_inferred_witness :
  exists typed,
    assign_dtypes [sample_solve; sample_sum] complex128 = Ok typed /\
    typed.*1 = [sample_solve; sample_sum].
Proof.
  destruct (assign_dtypes [sample_solve; sample_sum] complex128) as [typed|e] eqn:E;
    [|vm_compute in E; discriminate].
  exists typed. split; [reflexivity|].
  exact (proj1 (assign_dtypes_total_on_inferred _ _ typed E)).
Defined.

Lemma declare_temporaries_names_witness :
  exists decls c',
    declare_temporaries identity_key 0 sample_temporaries sample_temporaries_ctx
      = (Ok decls, c') /\
    lp.decl_name <$> decls = ["t0"; "t1"] /\
    gem_to_pymbolic c' !! 5 = Some "t0".
Proof.
  destruct (declare_temporaries identity_key 0 sample_temporaries
              sample_temporaries_ctx) as [[decls|e] c'] eqn:H;
    [|vm_compute in H; discriminate].
  destruct (declare_temporaries_names identity_key 0 sample_temporaries
              sample_temporaries_ctx c' decls H) as (Hn & _ & _ & Hl).
  exists decls, c'. split_and!; [reflexivity|exact Hn|].
  apply (Hl 0 sample_solve (Some float64) eq_refl).
  intros [|[|[|j']]] temp' dt' Hlt Hj'; try lia; [|discriminate..].
  injection Hj' as <- _. vm_compute. lia.
Defined.

(** ** The pending kernel *)

(** The kernel of the solve is still pending when the statement after it
    has failed. *)
Lemma generate_failure_keeps_pending_witness :
  exists shape aux,
    matfree_cg_kernel_for shape = Some aux /\
    generate identity_key Zero_handle one_handle plain_add 10
      sample_failing_c [] float64 "kernel" [] true None
    = (Raise (GemFailure "degenerate"), Some aux).
Proof.
  destruct (generate identity_key Zero_handle one_handle plain_add 10
              sample_failing_c [] float64 "kernel" [] true None)
    as [[res|e] pending] eqn:H; [vm_compute in H; discriminate|].
  assert (e = GemFailure "degenerate") as ->.
  { vm_compute in H. injection H as H _. exact (eq_sym H). }
  destruct (generate_failure_keeps_pending identity_key Zero_handle one_handle
              plain_add 10 sample_failing_c [] float64 "kernel" [] true None
              pending _ H)
    as [->|(shape & aux & Haux & ->)]; [vm_compute in H; discriminate|].
  exists shape, aux. split; [exact Haux|reflexivity].
Defined.

Lemma generate_inlines_stale_kernel_witness :
  exists knl,
    generate identity_key Zero_handle one_handle plain_add 10 sample_sum_c []
      float64 "kernel" [] true (Some sample_stale_kernel)
    = (Ok (a_program
             (lp.inline_callable_kernel
                (lp._match_caller_callee_argument_dimension_
                   (lp.register_callable_kernel (lp.make_program knl)
                      sample_stale_kernel)
                   "matfree_cg_kernel")
                "matfree_cg_kernel")), None).
Proof.
  destruct (generate identity_key Zero_handle one_handle plain_add 10 sample_sum_c []
              float64 "kernel" [] true (Some sample_stale_kernel))
    as [[res|e] pending] eqn:E; [|vm_compute in E; discriminate].
  destruct (generate_inlines_stale_kernel identity_key Zero_handle one_handle
              plain_add 10 sample_sum_c [] float64 "kernel" [] true
              sample_stale_kernel pending res eq_refl E) as (-> & knl & _ & ->).
  by exists knl.
Defined.

(** ** Names *)

Lemma pymbolic_multiindex_fresh_names_witness :
  exists names c',
    pymbolic_multiindex [3; 4] (sample_ctx float64) = (Ok names, c') /\
    length names = 2 /\ NoDup names /\
    forall n, n ∈ names -> n ∉ name_gen (sample_ctx float64).
Proof.
  destruct (pymbolic_multiindex [3; 4] (sample_ctx float64)) as [r c'] eqn:H.
  destruct (pymbolic_multiindex_fresh_names [3; 4] (sample_ctx float64) c' r H)
    as (names & -> & Hlen & Hnd & Hfresh & _).
  exists names, c'. split_and!; [reflexivity|exact Hlen|exact Hnd|].
  intros n Hn. exact (proj1 (Hfresh n Hn)).
Defined.

(** The node 14 is a [Failure], yet it is referenced as [t0[i]]. *)
Lemma expression_references_recorded_node_witness :
  expression identity_key Zero_handle one_handle 1 false
    (gem.Failure 14 [] "degenerate") sample_recorded_ctx
  = (Ok (p.Subscript (p.Variable_ "t0") [p.Variable_ "i"]), sample_recorded_ctx).
Proof.
  apply (expression_references_recorded_node identity_key Zero_handle one_handle 0
           (gem.Failure 14 [] "degenerate") sample_recorded_ctx "t0"
           [gem.an_Index sample_i] ["i"]).
  - vm_compute. reflexivity.
  - left. vm_compute. reflexivity.
  - constructor; [|constructor]. exists sample_i. split; [reflexivity|].
    vm_compute. reflexivity.
Defined.

(** ** List tensors *)

Lemma statement_evaluate_listtensor_per_entry_witness :
  exists insns w',
    statement_evaluate identity_key Zero_handle one_handle 10
      (gem.ListTensor 40 [2] [scalar_literal 41 1%float; scalar_literal 42 2%float])
      sample_listtensor_world = (Ok insns, w') /\
    length insns = 2 /\
    forall insn, insns !! 1 = Some insn ->
      exists rhs,
        insn = lp.Assignment (p.Subscript (p.Variable_ "t0") [p.IntLit 1]) rhs ∅ 0.
Proof.
  destruct (statement_evaluate identity_key Zero_handle one_handle 10
              (gem.ListTensor 40 [2]
                 [scalar_literal 41 1%float; scalar_literal 42 2%float])
              sample_listtensor_world) as [[insns|e] w'] eqn:H;
    [|vm_compute in H; discriminate].
  destruct (statement_evaluate_listtensor_per_entry identity_key Zero_handle
              one_handle 10 40 [2]
              [scalar_literal 41 1%float; scalar_literal 42 2%float]
              sample_listtensor_world w' insns eq_refl H)
    as (var & index & w1 & Hvar & Hlen & Hinsns).
  exists insns, w'. split_and!; [reflexivity|exact Hlen|].
  intros insn Hj.
  destruct (Hinsns 1 insn Hj)
    as (mi & value & rhs & c & c' & Hmi & _ & _ & _ & _ & _ & ->).
  vm_compute in Hvar. injection Hvar as <- <- _.
  injection Hmi as <-. exists rhs. reflexivity.
Defined.
